(** * TextManipulation node: a shallow embedding of its operation engine

    This development embeds [nodes/TextManipulation/TextManipulation.node.ts]
    (the 1.4.0 sources): the primitive transforms ([replaceAll], [charsTrim],
    [charsTrimStart], [charsTrimEnd], [unescapeEscapedCharacters],
    [buildRegexGroup]), the [switch (manipulation.action)] fold of [execute], and
    the per-item source resolution and commit on an explicit object store.

    JavaScript strings are sequences of UTF-16 code units, so texts are lists
    of code units ([N]); the built-ins the node calls ([substring], [padStart],
    [trim], [replace] with a [RegExp], ...) are modelled after ECMAScript. *)

From Stdlib Require Import String Ascii ZArith NArith Lia DecimalString DecimalNat.
From stdpp Require Import base list option.

Open Scope Z_scope.
Open Scope list_scope.

(** ** JavaScript strings *)

Definition jsstring := list N.

(** A source literal made of Latin-1 characters, as a sequence of code units. *)
Definition js (s : string) : jsstring :=
  map N_of_ascii (list_ascii_of_string s).

Definition cu_eqb (a b : N) : bool := N.eqb a b.

Fixpoint js_eqb (a b : jsstring) : bool :=
  match a, b with
  | [], [] => true
  | x :: a', y :: b' => cu_eqb x y && js_eqb a' b'
  | _, _ => false
  end.

Definition in_range (lo hi c : N) : bool := (N.leb lo c && N.leb c hi)%bool.

(** ECMAScript WhiteSpace and LineTerminator code units: what
    [String.prototype.trim] strips and what [\s] matches. *)
Definition isLineTerminator (c : N) : bool :=
  (cu_eqb c 10 || cu_eqb c 13 || cu_eqb c 8232 || cu_eqb c 8233)%bool.

Definition isWhiteSpace (c : N) : bool :=
  (in_range 9 13 c || cu_eqb c 32 || cu_eqb c 160 || cu_eqb c 5760
   || in_range 8192 8202 c || cu_eqb c 8232 || cu_eqb c 8233 || cu_eqb c 8239
   || cu_eqb c 8287 || cu_eqb c 12288 || cu_eqb c 65279)%bool.

Fixpoint drop_while (p : N -> bool) (s : jsstring) : jsstring :=
  match s with
  | [] => []
  | c :: s' => if p c then drop_while p s' else s
  end.

Definition drop_while_end (p : N -> bool) (s : jsstring) : jsstring :=
  rev (drop_while p (rev s)).

(** [String.prototype.trimStart], [trimEnd] and [trim]. *)
Definition js_trimStart (s : jsstring) : jsstring := drop_while isWhiteSpace s.
Definition js_trimEnd (s : jsstring) : jsstring := drop_while_end isWhiteSpace s.
Definition js_trim (s : jsstring) : jsstring := js_trimEnd (js_trimStart s).

(** [String.prototype.substring(start, end)]: both bounds are clamped to
    [0 .. length] (a negative bound counts as 0) and swapped when
    [start > end]. [None] stands for an omitted [end]. *)
Definition clamp (len x : Z) : Z := Z.min (Z.max x 0) len.

Definition js_substring (s : jsstring) (start : Z) (end_ : option Z) : jsstring :=
  let len := Z.of_nat (length s) in
  let intEnd := match end_ with None => len | Some e => e end in
  let finalStart := clamp len start in
  let finalEnd := clamp len intEnd in
  let from := Z.min finalStart finalEnd in
  let to := Z.max finalStart finalEnd in
  take (Z.to_nat (to - from)) (drop (Z.to_nat from) s).


(** The filler of [padStart]/[padEnd]: [fill] repeated and truncated to
    [fillLen] code units. *)
Fixpoint cycle_take (n : nat) (fill cur : jsstring) : jsstring :=
  match n with
  | O => []
  | S n' =>
      match cur with
      | c :: cur' => c :: cycle_take n' fill cur'
      | [] =>
          match fill with
          | c :: fill' => c :: cycle_take n' fill fill'
          | [] => []
          end
      end
  end.

Definition pad_filler (s : jsstring) (maxLength : Z) (fill : jsstring) : option jsstring :=
  let intMaxLength := Z.max maxLength 0 in
  let stringLength := Z.of_nat (length s) in
  if intMaxLength <=? stringLength then None
  else match fill with
       | [] => None
       | _ => Some (cycle_take (Z.to_nat (intMaxLength - stringLength)) fill [])
       end.

Definition js_padStart (s : jsstring) (maxLength : Z) (fill : jsstring) : jsstring :=
  match pad_filler s maxLength fill with
  | None => s
  | Some filler => filler ++ s
  end.

Definition js_padEnd (s : jsstring) (maxLength : Z) (fill : jsstring) : jsstring :=
  match pad_filler s maxLength fill with
  | None => s
  | Some filler => s ++ filler
  end.

(** [Number.MAX_SAFE_INTEGER], 2^53 - 1: up to it every whole number is a
    Number value of its own. *)
Definition MAX_SAFE_INTEGER : Z := 9007199254740991.

(** Template-literal rendering of a whole number: [`${n}`] is its decimal
    numeral, with a minus sign when negative. This is [Number::toString]
    for the safe integers only: above them the digits are the shortest
    that read back as the same Number, and from 10^21 on the rendering
    is in exponent notation; neither is modelled, and the statements
    about [number_to_js] bound their numbers by [MAX_SAFE_INTEGER]. *)
Definition number_to_js (n : Z) : jsstring :=
  js (NilZero.string_of_int
        (match n with
         | Zneg p => Decimal.Neg (Nat.to_uint (Pos.to_nat p))
         | _ => Decimal.Pos (Nat.to_uint (Z.to_nat n))
         end)).

(** Index of the first occurrence of [needle] in [s] ([String.prototype.indexOf]). *)
Fixpoint is_prefix (p s : jsstring) : bool :=
  match p, s with
  | [], _ => true
  | x :: p', y :: s' => cu_eqb x y && is_prefix p' s'
  | _ :: _, [] => false
  end.

Fixpoint index_of_from (needle s : jsstring) (i : nat) : option nat :=
  if is_prefix needle s then Some i
  else match s with
       | [] => None
       | _ :: s' => index_of_from needle s' (S i)
       end.

Definition js_indexOf (needle s : jsstring) : option nat := index_of_from needle s 0.

(** ** Regular expressions

    The fragment of ECMAScript (non-unicode, Annex B) patterns that the node
    builds or that its examples configure: literals, [.], classes, [^] and
    [$], alternation, capturing and [(?:...)] groups, and the quantifiers
    [*], [+], [?], [{n}], [{n,}], [{n,m}] with their lazy forms. Patterns
    outside the fragment (look-around, back-references, named groups, [\b],
    the [u] flag) are rejected by [new_RegExp]. *)

Definition ch (a : ascii) : N := N_of_ascii a.
Arguments ch a%_char.

Inductive class_item :=
| CChar (c : N)
| CRange (lo hi : N)
| CDigit (neg : bool)
| CSpace (neg : bool)
| CWord (neg : bool).

Inductive regex :=
| REmpty
| RChar (c : N)
| RAny
| RClass (neg : bool) (items : list class_item)
| RBol
| REol
| RSeq (r1 r2 : regex)
| RAlt (r1 r2 : regex)
| RGroup (idx : nat) (r : regex)
| RRepeat (r : regex) (min : nat) (max : option nat) (greedy : bool).

Record flags := mkFlags {
  f_global : bool;
  f_ignoreCase : bool;
  f_multiline : bool;
  f_dotAll : bool;
  f_unicode : bool;
  f_sticky : bool
}.

Record RegExp := mkRegExp {
  re_source : regex;
  re_groups : nat;
  re_flags : flags
}.

(** *** Pattern parser *)

Definition is_digit (c : N) : bool := in_range 48 57 c.
Definition digit_val (c : N) : nat := N.to_nat (c - 48).
Definition is_ascii_letter (c : N) : bool := (in_range 65 90 c || in_range 97 122 c)%bool.
Definition is_word_char (c : N) : bool :=
  (is_ascii_letter c || is_digit c || cu_eqb c (ch "_"))%bool.

Fixpoint parse_nat_acc (p : jsstring) (acc : nat) : nat * jsstring :=
  match p with
  | c :: p' => if is_digit c then parse_nat_acc p' (10 * acc + digit_val c)%nat else (acc, p)
  | [] => (acc, p)
  end.

Definition parse_digits (p : jsstring) : option (nat * jsstring) :=
  match p with
  | c :: _ => if is_digit c then Some (parse_nat_acc p 0%nat) else None
  | [] => None
  end.

(** A braced quantifier [{n}], [{n,}] or [{n,m}] at the head of [p]. The
    outer [None] means that [p] does not start with one; [Some None] is the
    out-of-order [{m,n}] that the RegExp constructor rejects. *)
Definition parse_braced (p : jsstring) : option (option (nat * option nat * jsstring)) :=
  match p with
  | c :: p1 =>
      if cu_eqb c (ch "{") then
        match parse_digits p1 with
        | Some (n, p2) =>
            match p2 with
            | d :: p3 =>
                if cu_eqb d (ch "}") then Some (Some (n, Some n, p3))
                else if cu_eqb d (ch ",") then
                  match p3 with
                  | e :: p4 =>
                      if cu_eqb e (ch "}") then Some (Some (n, None, p4))
                      else match parse_digits p3 with
                           | Some (m, f :: p5) =>
                               if cu_eqb f (ch "}")
                               then (if (m <? n)%nat then Some None
                                     else Some (Some (n, Some m, p5)))
                               else None
                           | _ => None
                           end
                  | [] => None
                  end
                else None
            | [] => None
            end
        | None => None
        end
      else None
  | [] => None
  end.

Definition hex_val (c : N) : option N :=
  if is_digit c then Some (c - 48)%N
  else if in_range 97 102 c then Some (c - 87)%N
  else if in_range 65 70 c then Some (c - 55)%N
  else None.

Fixpoint parse_hex (n : nat) (p : jsstring) (acc : N) : option (N * jsstring) :=
  match n with
  | O => Some (acc, p)
  | S n' =>
      match p with
      | c :: p' =>
          match hex_val c with
          | Some v => parse_hex n' p' (16 * acc + v)%N
          | None => None
          end
      | [] => None
      end
  end.

(** An escape after the backslash, shared by atoms and class items: either a
    single code unit or a predefined class. *)
Inductive escape :=
| EChar (c : N)
| EClass (it : class_item).

Definition is_syntax_char (c : N) : bool :=
  existsb (cu_eqb c)
    (map N_of_ascii ["^"; "$"; "\"; "."; "*"; "+"; "?"; "("; ")"; "["; "]"; "{"; "}"; "|"; "/"; "-"]%char).

Definition parse_escape (p : jsstring) : option (escape * jsstring) :=
  match p with
  | [] => None
  | c :: p' =>
      if cu_eqb c (ch "d") then Some (EClass (CDigit false), p')
      else if cu_eqb c (ch "D") then Some (EClass (CDigit true), p')
      else if cu_eqb c (ch "s") then Some (EClass (CSpace false), p')
      else if cu_eqb c (ch "S") then Some (EClass (CSpace true), p')
      else if cu_eqb c (ch "w") then Some (EClass (CWord false), p')
      else if cu_eqb c (ch "W") then Some (EClass (CWord true), p')
      else if cu_eqb c (ch "n") then Some (EChar 10%N, p')
      else if cu_eqb c (ch "r") then Some (EChar 13%N, p')
      else if cu_eqb c (ch "t") then Some (EChar 9%N, p')
      else if cu_eqb c (ch "v") then Some (EChar 11%N, p')
      else if cu_eqb c (ch "f") then Some (EChar 12%N, p')
      else if cu_eqb c (ch "0") then
        match p' with
        | d :: _ => if is_digit d then None else Some (EChar 0%N, p')
        | [] => Some (EChar 0%N, p')
        end
      else if cu_eqb c (ch "x") then
        match parse_hex 2 p' 0%N with
        | Some (v, p'') => Some (EChar v, p'')
        | None => None
        end
      else if cu_eqb c (ch "u") then
        match parse_hex 4 p' 0%N with
        | Some (v, p'') => Some (EChar v, p'')
        | None => None
        end
      else if is_syntax_char c then Some (EChar c, p')
      else if is_word_char c then None
      else Some (EChar c, p')
  end.

(** Class items up to the closing bracket. *)
Definition class_atom (p : jsstring) : option (escape * jsstring) :=
  match p with
  | [] => None
  | c :: p' =>
      if cu_eqb c (ch "\") then
        match p' with
        | b :: p'' => if cu_eqb b (ch "b") then Some (EChar 8%N, p'') else parse_escape p'
        | [] => None
        end
      else Some (EChar c, p')
  end.

Fixpoint parse_class_items (fuel : nat) (p : jsstring) : option (list class_item * jsstring) :=
  match fuel with
  | O => None
  | S fuel' =>
      match p with
      | [] => None
      | c :: p' =>
          if cu_eqb c (ch "]") then Some ([], p')
          else
            match class_atom p with
            | None => None
            | Some (EClass it, p1) =>
                match parse_class_items fuel' p1 with
                | Some (its, p2) => Some (it :: its, p2)
                | None => None
                end
            | Some (EChar lo, p1) =>
                match p1 with
                | d :: (e :: _) as p2 =>
                    if (cu_eqb d (ch "-") && negb (cu_eqb e (ch "]")))%bool then
                      match class_atom p2 with
                      | Some (EChar hi, p3) =>
                          if (hi <? lo)%N then None
                          else match parse_class_items fuel' p3 with
                               | Some (its, p4) => Some (CRange lo hi :: its, p4)
                               | None => None
                               end
                      | Some (EClass it, p3) =>
                          match parse_class_items fuel' p3 with
                          | Some (its, p4) => Some (CChar lo :: CChar (ch "-") :: it :: its, p4)
                          | None => None
                          end
                      | None => None
                      end
                    else
                      match parse_class_items fuel' p1 with
                      | Some (its, p2') => Some (CChar lo :: its, p2')
                      | None => None
                      end
                | _ =>
                    match parse_class_items fuel' p1 with
                    | Some (its, p2) => Some (CChar lo :: its, p2)
                    | None => None
                    end
                end
            end
      end
  end.

Definition parse_class (p : jsstring) : option (regex * jsstring) :=
  let '(neg, p1) :=
    match p with
    | c :: p' => if cu_eqb c (ch "^") then (true, p') else (false, p)
    | [] => (false, p)
    end in
  match parse_class_items (S (length p1)) p1 with
  | Some (its, p2) => Some (RClass neg its, p2)
  | None => None
  end.

(** The quantifier, if any, that follows an atom. *)
Definition parse_quantifier (atom : regex) (p : jsstring) : option (regex * jsstring) :=
  let lazy_suffix (mn : nat) (mx : option nat) (q : jsstring) :=
    match q with
    | c :: q' =>
        if cu_eqb c (ch "?") then Some (RRepeat atom mn mx false, q')
        else Some (RRepeat atom mn mx true, q)
    | [] => Some (RRepeat atom mn mx true, q)
    end in
  match p with
  | [] => Some (atom, p)
  | c :: p' =>
      if cu_eqb c (ch "*") then lazy_suffix 0%nat None p'
      else if cu_eqb c (ch "+") then lazy_suffix 1%nat None p'
      else if cu_eqb c (ch "?") then lazy_suffix 0%nat (Some 1%nat) p'
      else match parse_braced p with
           | Some (Some (mn, mx, q)) => lazy_suffix mn mx q
           | Some None => None
           | None => Some (atom, p)
           end
  end.

(** Disjunction, alternative and term. [n] counts the capturing groups
    opened so far (groups are numbered by their left parenthesis). Every
    level of the recursion either consumes a code unit or is one of at most
    three levels between two consumptions, so [3 * length + 3] levels of
    [fuel] are never exhausted. *)
Fixpoint parse_disjunction (fuel : nat) (p : jsstring) (n : nat)
  : option (regex * jsstring * nat) :=
  match fuel with
  | O => None
  | S fuel' =>
      match parse_alternative fuel' p n with
      | None => None
      | Some (a, p1, n1) =>
          match p1 with
          | c :: p2 =>
              if cu_eqb c (ch "|") then
                match parse_disjunction fuel' p2 n1 with
                | Some (d, p3, n3) => Some (RAlt a d, p3, n3)
                | None => None
                end
              else Some (a, p1, n1)
          | [] => Some (a, p1, n1)
          end
      end
  end
with parse_alternative (fuel : nat) (p : jsstring) (n : nat)
  : option (regex * jsstring * nat) :=
  match fuel with
  | O => None
  | S fuel' =>
      match p with
      | [] => Some (REmpty, p, n)
      | c :: _ =>
          if (cu_eqb c (ch "|") || cu_eqb c (ch ")"))%bool then Some (REmpty, p, n)
          else
            match parse_term fuel' p n with
            | None => None
            | Some (t, p1, n1) =>
                match parse_alternative fuel' p1 n1 with
                | Some (REmpty, p2, n2) => Some (t, p2, n2)
                | Some (r, p2, n2) => Some (RSeq t r, p2, n2)
                | None => None
                end
            end
      end
  end
with parse_term (fuel : nat) (p : jsstring) (n : nat)
  : option (regex * jsstring * nat) :=
  match fuel with
  | O => None
  | S fuel' =>
      match p with
      | [] => None
      | c :: p' =>
          if cu_eqb c (ch "^") then Some (RBol, p', n)
          else if cu_eqb c (ch "$") then Some (REol, p', n)
          else
            let quantified (res : option (regex * jsstring * nat)) :=
              match res with
              | Some (atom, q, n') =>
                  match parse_quantifier atom q with
                  | Some (t, q') => Some (t, q', n')
                  | None => None
                  end
              | None => None
              end in
            if cu_eqb c (ch "(") then
              match p' with
              | q :: p'' =>
                  if cu_eqb q (ch "?") then
                    match p'' with
                    | k :: p3 =>
                        if cu_eqb k (ch ":") then
                          match parse_disjunction fuel' p3 n with
                          | Some (r, e :: p4, n') =>
                              if cu_eqb e (ch ")") then quantified (Some (r, p4, n')) else None
                          | _ => None
                          end
                        else None
                    | [] => None
                    end
                  else
                    match parse_disjunction fuel' p' (S n) with
                    | Some (r, e :: p4, n') =>
                        if cu_eqb e (ch ")") then quantified (Some (RGroup (S n) r, p4, n'))
                        else None
                    | _ => None
                    end
              | [] => None
              end
            else if cu_eqb c (ch ".") then quantified (Some (RAny, p', n))
            else if cu_eqb c (ch "[") then
              match parse_class p' with
              | Some (r, q) => quantified (Some (r, q, n))
              | None => None
              end
            else if cu_eqb c (ch "\") then
              match parse_escape p' with
              | Some (EChar x, q) => quantified (Some (RChar x, q, n))
              | Some (EClass it, q) => quantified (Some (RClass false [it], q, n))
              | None => None
              end
            else if (cu_eqb c (ch "*") || cu_eqb c (ch "+") || cu_eqb c (ch "?"))%bool then None
            else if cu_eqb c (ch "{") then
              match parse_braced p with
              | Some _ => None
              | None => quantified (Some (RChar c, p', n))
              end
            else quantified (Some (RChar c, p', n))
      end
  end.

Definition parse_pattern (p : jsstring) : option (regex * nat) :=
  match parse_disjunction (3 * length p + 3) p 0%nat with
  | Some (r, [], n) => Some (r, n)
  | _ => None
  end.

(** The flags argument of the RegExp constructor: letters of [dgimsuvy],
    each at most once. [d] has no effect on matching. *)
Fixpoint count_occ_cu (c : N) (s : jsstring) : nat :=
  match s with
  | [] => 0%nat
  | x :: s' => ((if cu_eqb c x then 1 else 0) + count_occ_cu c s')%nat
  end.

Definition has_flag (fs : jsstring) (a : ascii) : bool := existsb (cu_eqb (N_of_ascii a)) fs.
Arguments has_flag fs a%_char.

Definition parse_flags (fs : jsstring) : option flags :=
  if forallb (fun c => (existsb (cu_eqb c) (js "dgimsuvy")
                        && (count_occ_cu c fs <=? 1)%nat)%bool) fs
  then Some (mkFlags (has_flag fs "g") (has_flag fs "i") (has_flag fs "m")
                     (has_flag fs "s") (has_flag fs "u" || has_flag fs "v")
                     (has_flag fs "y"))
  else None.

(** [new RegExp(pattern, flags)]. [None] stands for the constructor's
    SyntaxError and for patterns outside the modelled fragment. *)
Definition new_RegExp (pattern fs : jsstring) : option RegExp :=
  match parse_flags fs with
  | None => None
  | Some fl =>
      if f_unicode fl then None
      else match parse_pattern pattern with
           | Some (r, n) => Some (mkRegExp r n fl)
           | None => None
           end
  end.

(** *** Backtracking matcher

    The matcher follows the ECMAScript pattern semantics: a matcher takes a
    continuation and a state (position, remaining input, previous code unit,
    captures) and returns the first successful final state in priority
    order. Case-insensitive comparison canonicalizes ASCII letters; the
    simple upper-case mapping of other code units is not modelled. *)

Record mstate := mkState {
  m_pos : nat;
  m_rest : jsstring;
  m_prev : option N;
  m_caps : list (option (nat * nat))
}.

Definition canonicalize (fl : flags) (c : N) : N :=
  if f_ignoreCase fl then (if in_range 97 122 c then c - 32 else c)%N else c.

Definition item_has (it : class_item) (c : N) : bool :=
  match it with
  | CChar x => cu_eqb x c
  | CRange lo hi => in_range lo hi c
  | CDigit neg => xorb neg (is_digit c)
  | CSpace neg => xorb neg (isWhiteSpace c)
  | CWord neg => xorb neg (is_word_char c)
  end.

Definition case_variants (fl : flags) (c : N) : list N :=
  if f_ignoreCase fl then
    if in_range 97 122 c then [c; (c - 32)%N]
    else if in_range 65 90 c then [c; (c + 32)%N]
    else [c]
  else [c].

Definition class_has (fl : flags) (neg : bool) (items : list class_item) (c : N) : bool :=
  xorb neg (existsb (fun it => existsb (item_has it) (case_variants fl c)) items).

Definition eat (p : N -> bool) (k : mstate -> option mstate) (st : mstate) : option mstate :=
  match m_rest st with
  | c :: rest' =>
      if p c then k (mkState (S (m_pos st)) rest' (Some c) (m_caps st)) else None
  | [] => None
  end.

Fixpoint groups_of (r : regex) : list nat :=
  match r with
  | RSeq r1 r2 | RAlt r1 r2 => groups_of r1 ++ groups_of r2
  | RGroup idx r' => idx :: groups_of r'
  | RRepeat r' _ _ _ => groups_of r'
  | _ => []
  end.

Definition clear_caps (gs : list nat) (caps : list (option (nat * nat)))
  : list (option (nat * nat)) :=
  fold_left (fun cs g => <[pred g := None]> cs) gs caps.

Definition with_caps (st : mstate) (caps : list (option (nat * nat))) : mstate :=
  mkState (m_pos st) (m_rest st) (m_prev st) caps.

(** RepeatMatcher: [iter] matches one iteration of the quantified atom. An
    iteration that matches the empty string once the minimum is reached is
    rejected, so at most [min + length rest] iterations happen. *)
Fixpoint repeat_loop (iter : (mstate -> option mstate) -> mstate -> option mstate)
    (gs : list nat) (greedy : bool) (fuel : nat) (mn : nat) (mx : option nat)
    (k : mstate -> option mstate) (st : mstate) : option mstate :=
  match fuel with
  | O => None
  | S fuel' =>
      match mx with
      | Some O => k st
      | _ =>
          let d := fun st' =>
            if (Nat.eqb mn 0 && Nat.eqb (m_pos st') (m_pos st))%bool then None
            else repeat_loop iter gs greedy fuel' (pred mn) (option_map pred mx) k st' in
          let xr := with_caps st (clear_caps gs (m_caps st)) in
          if negb (Nat.eqb mn 0) then iter d xr
          else if greedy then
            match iter d xr with
            | Some z => Some z
            | None => k st
            end
          else
            match k st with
            | Some z => Some z
            | None => iter d xr
            end
      end
  end.

Fixpoint rmatch (fl : flags) (r : regex) (k : mstate -> option mstate) (st : mstate)
  {struct r} : option mstate :=
  match r with
  | REmpty => k st
  | RChar c => eat (fun x => cu_eqb (canonicalize fl x) (canonicalize fl c)) k st
  | RAny => eat (fun x => (f_dotAll fl || negb (isLineTerminator x))%bool) k st
  | RClass neg items => eat (class_has fl neg items) k st
  | RBol =>
      match m_prev st with
      | None => k st
      | Some c => if (f_multiline fl && isLineTerminator c)%bool then k st else None
      end
  | REol =>
      match m_rest st with
      | [] => k st
      | c :: _ => if (f_multiline fl && isLineTerminator c)%bool then k st else None
      end
  | RSeq r1 r2 => rmatch fl r1 (rmatch fl r2 k) st
  | RAlt r1 r2 =>
      match rmatch fl r1 k st with
      | Some z => Some z
      | None => rmatch fl r2 k st
      end
  | RGroup idx r' =>
      rmatch fl r'
        (fun st' => k (with_caps st' (<[pred idx := Some (m_pos st, m_pos st')]> (m_caps st'))))
        st
  | RRepeat r' mn mx greedy =>
      repeat_loop (rmatch fl r') (groups_of r') greedy
        (mn + length (m_rest st) + 1)%nat mn mx k st
  end.

(** *** exec, match and replace *)

Record match_result := mkMatch {
  mr_index : nat;
  mr_end : nat;
  mr_caps : list (option (nat * nat))
}.

Definition slice (s : jsstring) (from to : nat) : jsstring := take (to - from) (drop from s).

Definition capture_text (s : jsstring) (c : option (nat * nat)) : option jsstring :=
  match c with
  | Some (a, b) => Some (slice s a b)
  | None => None
  end.

Definition try_at (re : RegExp) (pos : nat) (prev : option N) (rest : jsstring)
  : option mstate :=
  rmatch (re_flags re) (re_source re) Some
    (mkState pos rest prev (replicate (re_groups re) None)).

(** The scan of RegExpBuiltinExec: the first index from the current one at
    which the pattern matches (only the current one for a sticky RegExp). *)
Fixpoint scan (re : RegExp) (pos : nat) (prev : option N) (rest : jsstring)
  : option (nat * mstate) :=
  match try_at re pos prev rest with
  | Some st' => Some (pos, st')
  | None =>
      if f_sticky (re_flags re) then None
      else match rest with
           | c :: rest' => scan re (S pos) (Some c) rest'
           | [] => None
           end
  end.

Definition regexp_exec (re : RegExp) (s : jsstring) : option match_result :=
  match scan re 0%nat None s with
  | Some (i, st') => Some (mkMatch i (m_pos st') (m_caps st'))
  | None => None
  end.

(** [String.prototype.match] with a RegExp that has no [g] flag: the array
    [[whole; capture 1; ...]] or [null]. *)
Definition js_match (re : RegExp) (s : jsstring) : option (list (option jsstring)) :=
  match regexp_exec re s with
  | Some m => Some (Some (slice s (mr_index m) (mr_end m)) :: map (capture_text s) (mr_caps m))
  | None => None
  end.

(** GetSubstitution without named captures (the parser rejects named
    groups, so [$<] stays literal). *)
Fixpoint get_substitution (s : jsstring) (m : match_result) (tpl : jsstring) : jsstring :=
  let dollar := ch "$" in
  let capture (i : nat) : jsstring :=
    match mr_caps m !! pred i with
    | Some (Some (a, b)) => slice s a b
    | _ => []
    end in
  let captureLen := length (mr_caps m) in
  match tpl with
  | [] => []
  | c :: t =>
      if negb (cu_eqb c dollar) then c :: get_substitution s m t
      else
        match t with
        | [] => [dollar]
        | d :: t' =>
            if cu_eqb d dollar then dollar :: get_substitution s m t'
            else if cu_eqb d (ch "&") then slice s (mr_index m) (mr_end m) ++ get_substitution s m t'
            else if cu_eqb d (ch "`") then take (mr_index m) s ++ get_substitution s m t'
            else if cu_eqb d (ch "'") then drop (mr_end m) s ++ get_substitution s m t'
            else if is_digit d then
              let one_digit :=
                let index := digit_val d in
                if ((1 <=? index) && (index <=? captureLen))%nat%bool
                then capture index ++ get_substitution s m t'
                else dollar :: d :: get_substitution s m t' in
              match t' with
              | e :: t'' =>
                  if is_digit e then
                    let index := (10 * digit_val d + digit_val e)%nat in
                    if (captureLen <? index)%nat then one_digit
                    else if (1 <=? index)%nat then capture index ++ get_substitution s m t''
                    else dollar :: d :: e :: get_substitution s m t''
                  else one_digit
              | [] => one_digit
              end
            else dollar :: get_substitution s m t
        end
  end.

(** RegExp.prototype[Symbol.replace] with a replacer function [repl]
    (a template goes through [get_substitution]). With the [g] flag every
    match is replaced, and an empty match advances [lastIndex] by one. *)
Fixpoint replace_loop (fuel : nat) (re : RegExp) (s : jsstring)
    (repl : match_result -> jsstring) (emitted : nat)
    (pos : nat) (prev : option N) (rest : jsstring) : jsstring :=
  match fuel with
  | O => drop emitted s
  | S fuel' =>
      match scan re pos prev rest with
      | None => drop emitted s
      | Some (i, st') =>
          let e := m_pos st' in
          let out := slice s emitted i ++ repl (mkMatch i e (m_caps st')) in
          if f_global (re_flags re) then
            if Nat.eqb e i then
              match m_rest st' with
              | [] => out ++ drop e s
              | c :: rest' => out ++ replace_loop fuel' re s repl e (S e) (Some c) rest'
              end
            else out ++ replace_loop fuel' re s repl e e (m_prev st') (m_rest st')
          else out ++ drop e s
      end
  end.

Definition regexp_replace_with (re : RegExp) (s : jsstring)
    (repl : match_result -> jsstring) : jsstring :=
  replace_loop (S (length s)) re s repl 0%nat 0%nat None s.

Definition regexp_replace (re : RegExp) (s template : jsstring) : jsstring :=
  regexp_replace_with re s (fun m => get_substitution s m template).

(** [String.prototype.replace] with a string pattern: the first occurrence
    only; the replacement is still a template (no captures). *)
Definition string_replace (s pattern template : jsstring) : jsstring :=
  match js_indexOf pattern s with
  | None => s
  | Some i =>
      let m := mkMatch i (i + length pattern) [] in
      take i s ++ get_substitution s m template ++ drop (i + length pattern) s
  end.

(** ** Failures

    Every [throw] of the node is a [NodeOperationError] carrying a message
    and the index of the item being processed. The other constructors stand
    for exceptions of the built-ins and libraries the node calls, and
    [OutsideModel] for inputs on which a library is not modelled. *)

Inductive error :=
| NodeOperationError (message : string) (itemIndex : nat)
| RegExpSyntaxError (pattern : jsstring)
| LibraryError (what : string)
| OutsideModel (what : string).

Inductive result (A : Type) :=
| Ok (a : A)
| Err (e : error).
Arguments Ok {A} a.
Arguments Err {A} e.

Definition bind {A B : Type} (r : result A) (f : A -> result B) : result B :=
  match r with
  | Ok a => f a
  | Err e => Err e
  end.

Declare Scope result_scope.
Delimit Scope result_scope with result.
Notation "x <- r ;; k" := (bind r (fun x => k))
  (at level 100, r at next level, right associativity) : result_scope.
Open Scope result_scope.

(** The spec's taxonomy of the node's own errors, read off the message:
    the ["... are valid options"] errors of the [default:] branches are
    invalid options, the ["... has to be set to at least 0 or higher!"]
    errors are invalid parameters. *)
Inductive error_kind := InvalidOptionError | InvalidParameterError | OtherError.

Definition invalid_parameter_messages : list string :=
  [ "The Target Length has to be set to at least 0 or higher!";
    "The Length has to be set to at least 0 or higher!";
    "The Times has to be set to at least 0 or higher!" ]%string.

Definition kind_of (e : error) : error_kind :=
  match e with
  | NodeOperationError msg _ =>
      if existsb (String.eqb msg) invalid_parameter_messages
      then InvalidParameterError else InvalidOptionError
  | _ => OtherError
  end.

(** ** Primitive transforms *)

(** [String.prototype.repeat(count)] for a whole count: a negative count
    is a [RangeError], and so is a result longer than the platform's limit
    on the length of a string, [limit]; an empty string and a count of 0
    give the empty string whatever the other is. *)
Definition js_repeat (limit : Z) (s : jsstring) (count : Z) : result jsstring :=
  if count <? 0 then Err (LibraryError "RangeError: Invalid count value")
  else if Z.of_nat (length s) * count <=? limit
       then Ok (concat (replicate (Z.to_nat count) s))
       else Err (LibraryError "RangeError: Invalid string length").

(** lodash [escapeRegExp]: a backslash before each of [^$\.*+?()[]{}|]. *)
Definition reRegExpChar (c : N) : bool :=
  existsb (cu_eqb c)
    (map N_of_ascii ["\"; "^"; "$"; "."; "*"; "+"; "?"; "("; ")"; "["; "]"; "{"; "}"; "|"]%char).

Definition escapeRegExp (s : jsstring) : jsstring :=
  flat_map (fun c => if reRegExpChar c then [ch "\"; c] else [c]) s.

Definition with_RegExp {A : Type} (pattern fs : jsstring) (f : RegExp -> A) : result A :=
  match new_RegExp pattern fs with
  | Some re => Ok (f re)
  | None => Err (RegExpSyntaxError pattern)
  end.

(** [replaceAll(str, substr, newSubstr)] *)
Definition replaceAll (str substr newSubstr : jsstring) : result jsstring :=
  with_RegExp (escapeRegExp substr) (js "g") (fun re => regexp_replace re str newSubstr).

(** [charsTrimStart(str, chars)] *)
Definition charsTrimStart (str chars : jsstring) : result jsstring :=
  if js_eqb chars (js " ") then Ok (js_trimStart str)
  else
    let chars := escapeRegExp chars in
    with_RegExp (js "^(" ++ chars ++ js ")+") (js "g") (fun re => regexp_replace re str []).

(** [charsTrimEnd(str, chars)] *)
Definition charsTrimEnd (str chars : jsstring) : result jsstring :=
  if js_eqb chars (js " ") then Ok (js_trimEnd str)
  else
    let chars := escapeRegExp chars in
    with_RegExp (js "(" ++ chars ++ js ")+$") (js "g") (fun re => regexp_replace re str []).

(** [charsTrim(str, chars)] *)
Definition charsTrim (str chars : jsstring) : result jsstring :=
  if js_eqb chars (js " ") then Ok (js_trim str)
  else
    let chars := escapeRegExp chars in
    with_RegExp (js "^(" ++ chars ++ js ")+|(" ++ chars ++ js ")+$") (js "g")
      (fun re => regexp_replace re str []).

(** [unescapeEscapedCharacters(str)]: the table of the single-character
    escapes, the pattern, and the replacer function. *)
Definition escapeCharacters (key : jsstring) : option jsstring :=
  match key with
  | [b; c] =>
      if negb (cu_eqb b (ch "\")) then None
      else if cu_eqb c (ch "0") then Some [0%N]
      else if cu_eqb c (ch "'") then Some [ch "'"]
      else if cu_eqb c 34 then Some [34%N]
      else if cu_eqb c (ch "\") then Some [ch "\"]
      else if cu_eqb c (ch "n") then Some [10%N]
      else if cu_eqb c (ch "r") then Some [13%N]
      else if cu_eqb c (ch "v") then Some [11%N]
      else if cu_eqb c (ch "t") then Some [9%N]
      else if cu_eqb c (ch "b") then Some [8%N]
      else if cu_eqb c (ch "f") then Some [12%N]
      else None
  | _ => None
  end.

Definition unescape_pattern : jsstring :=
  js "(\\0|\\'|\\" ++ [34%N]
  ++ js "|\\n|\\r|\\v|\\t|\\b|\\f)|\\u([\da-fA-F]{4})|\\x([\da-fA-F]{2})|\\u{(0*(?:10|[\da-fA-F])?[\da-fA-F]{1,4})}|\\(.)".

(** [parseInt(digits, 16)] on a string of hexadecimal digits. *)
Definition parseInt16 (digits : jsstring) : N :=
  fold_left (fun acc c => match hex_val c with Some v => 16 * acc + v | None => acc end)%N
    digits 0%N.

(** [String.fromCharCode(n)]: the code unit [n mod 2^16]. *)
Definition fromCharCode (n : N) : jsstring := [(n mod 65536)%N].

Definition nonempty (o : option jsstring) : bool :=
  match o with
  | Some (_ :: _) => true
  | _ => false
  end.

Definition unescape_replacer (s : jsstring) (m : match_result) : jsstring :=
  let group (i : nat) : option jsstring :=
    match mr_caps m !! i with
    | Some c => capture_text s c
    | None => None
    end in
  let escapeCharacter := group 0%nat in
  let unicodeCharacter := group 1%nat in
  let unicodeShortCharacter := group 2%nat in
  let unicodeBracesCharacter := group 3%nat in
  let anyCharacter := group 4%nat in
  if nonempty escapeCharacter then
    default [] (escapeCharacters (default [] escapeCharacter))
  else if nonempty anyCharacter then default [] anyCharacter
  else
    fromCharCode (parseInt16
      (match unicodeCharacter with
       | Some x => x
       | None =>
           match unicodeShortCharacter with
           | Some x => x
           | None => default [] unicodeBracesCharacter
           end
       end)).

Definition unescapeEscapedCharacters (str : jsstring) : result jsstring :=
  with_RegExp unescape_pattern (js "g")
    (fun re => regexp_replace_with re str (unescape_replacer str)).

(** [buildRegexGroup(base, min = 0, max = 0)]: a count is truthy when it is
    not zero. *)
Definition buildRegexGroup (base : jsstring) (min max : Z) : jsstring :=
  if negb (min =? 0) then
    if negb (max =? 0) then
      base ++ js "{" ++ number_to_js min ++ js "," ++ number_to_js max ++ js "}"
    else
      base ++ js "{" ++ number_to_js min ++ js ",}"
  else if negb (max =? 0) then
    base ++ js "{" ++ number_to_js max ++ js "}"
  else
    base ++ js "*".

(** ** lodash [trim], [trimStart], [trimEnd] with a [chars] argument

    lodash splits both strings into symbols and strips the symbols of the
    text that occur among those of [chars]. For strings without surrogates,
    combining marks, variation selectors and zero-width joiners
    ([hasUnicode] is false) a symbol is a code unit; the grapheme splitting
    of the other strings is not modelled. *)
Definition hasUnicode (s : jsstring) : bool :=
  existsb (fun c =>
    (cu_eqb c 8205 || in_range 55296 57343 c || in_range 768 879 c
     || in_range 65056 65071 c || in_range 8400 8447 c
     || cu_eqb c 65038 || cu_eqb c 65039)%bool) s.

Definition stringToArray (s : jsstring) : result (list N) :=
  if hasUnicode s then Err (OutsideModel "lodash unicodeToArray") else Ok s.

Definition baseIndexOf (array : list N) (value : N) : bool := existsb (cu_eqb value) array.

(** [charsStartIndex]: the number of leading symbols found in [chrSymbols]. *)
Fixpoint charsStartIndex (strSymbols chrSymbols : list N) : nat :=
  match strSymbols with
  | c :: rest => if baseIndexOf chrSymbols c then S (charsStartIndex rest chrSymbols) else 0%nat
  | [] => 0%nat
  end.

(** [charsEndIndex(...) + 1]: the length left after dropping the trailing
    symbols found in [chrSymbols]. *)
Definition charsEndIndex_succ (strSymbols chrSymbols : list N) : nat :=
  (length strSymbols - charsStartIndex (rev strSymbols) chrSymbols)%nat.

Definition lodash_trim_with
    (bounds : list N -> list N -> nat * nat) (string chars : jsstring) : result jsstring :=
  match string, chars with
  | [], _ | _, [] => Ok string
  | _, _ =>
      strSymbols <- stringToArray string ;;
      chrSymbols <- stringToArray chars ;;
      let '(start, end_) := bounds strSymbols chrSymbols in
      Ok (slice strSymbols start end_)
  end.

Definition lodash_trim : jsstring -> jsstring -> result jsstring :=
  lodash_trim_with (fun str chr => (charsStartIndex str chr, charsEndIndex_succ str chr)).

Definition lodash_trimStart : jsstring -> jsstring -> result jsstring :=
  lodash_trim_with (fun str chr => (charsStartIndex str chr, length str)).

Definition lodash_trimEnd : jsstring -> jsstring -> result jsstring :=
  lodash_trim_with (fun str chr => (0%nat, charsEndIndex_succ str chr)).

(** ** Byte buffers and iconv-lite

    [Buffer.from(text)] and [buffer.toString()] are UTF-8 encoding and
    decoding of the code units (a lone surrogate is encoded as U+FFFD, an
    ill-formed byte sequence decodes to U+FFFD per maximal subpart; the
    decoder keeps a leading byte-order mark). *)

Definition buffer := list N.

Definition utf8_bytes (cp : N) : buffer :=
  if (cp <? 128)%N then [cp]
  else if (cp <? 2048)%N then [192 + cp / 64; 128 + cp mod 64]%N
  else if (cp <? 65536)%N then [224 + cp / 4096; 128 + (cp / 64) mod 64; 128 + cp mod 64]%N
  else [240 + cp / 262144; 128 + (cp / 4096) mod 64; 128 + (cp / 64) mod 64; 128 + cp mod 64]%N.

Fixpoint Buffer_from (s : jsstring) : buffer :=
  match s with
  | [] => []
  | c :: s' =>
      if in_range 55296 56319 c then
        match s' with
        | d :: s'' =>
            if in_range 56320 57343 d
            then utf8_bytes (65536 + (c - 55296) * 1024 + (d - 56320))%N ++ Buffer_from s''
            else utf8_bytes 65533 ++ Buffer_from s'
        | [] => utf8_bytes 65533
        end
      else if in_range 56320 57343 c then utf8_bytes 65533 ++ Buffer_from s'
      else utf8_bytes c ++ Buffer_from s'
  end.

Definition code_point_units (cp : N) : jsstring :=
  if (cp <? 65536)%N then [cp]
  else [55296 + (cp - 65536) / 1024; 56320 + (cp - 65536) mod 1024]%N.

Record utf8_state := mkUtf8 {
  u_cp : N;
  u_needed : nat;
  u_lower : N;
  u_upper : N
}.

Definition utf8_initial : utf8_state := mkUtf8 0 0 128 191.

(** One byte in the initial state: the emitted code units and the next state. *)
Definition utf8_lead (b : N) : jsstring * utf8_state :=
  if (b <? 128)%N then ([b], utf8_initial)
  else if in_range 194 223 b then ([], mkUtf8 (b mod 32) 1 128 191)
  else if in_range 224 239 b then
    ([], mkUtf8 (b mod 16) 2 (if cu_eqb b 224 then 160 else 128)%N
                              (if cu_eqb b 237 then 159 else 191)%N)
  else if in_range 240 244 b then
    ([], mkUtf8 (b mod 8) 3 (if cu_eqb b 240 then 144 else 128)%N
                             (if cu_eqb b 244 then 143 else 191)%N)
  else ([65533%N], utf8_initial).

Fixpoint utf8_decode (st : utf8_state) (bs : buffer) : jsstring :=
  match bs with
  | [] => match u_needed st with O => [] | S _ => [65533%N] end
  | b :: bs' =>
      match u_needed st with
      | O => let '(out, st') := utf8_lead b in out ++ utf8_decode st' bs'
      | S n =>
          if in_range (u_lower st) (u_upper st) b then
            let cp := (u_cp st * 64 + b mod 64)%N in
            match n with
            | O => code_point_units cp ++ utf8_decode utf8_initial bs'
            | S _ => utf8_decode (mkUtf8 cp n 128 191) bs'
            end
          else
            let '(out, st') := utf8_lead b in
            65533%N :: out ++ utf8_decode st' bs'
      end
  end.

Definition Buffer_toString (b : buffer) : jsstring := utf8_decode utf8_initial b.

(** The options object passed to iconv: each key may be absent. *)
Record Options := mkOptions {
  opt_addBOM : option bool;
  opt_stripBOM : option bool
}.

(** The codecs behind iconv-lite: whether the codec of an encoding is
    BOM-aware, and its raw decoder and encoder (which receive the options
    too). An unknown encoding makes [getCodec] throw. *)
Class IconvCodecs := {
  getCodec : string -> result bool;
  codec_decoder : string -> Options -> buffer -> result jsstring;
  codec_encoder : string -> Options -> jsstring -> result buffer
}.

Definition BOMChar : N := 65279.

Section Iconv.
Context `{IconvCodecs}.

(** [iconv.decode(buf, encoding, options)]: the decoder is wrapped in
    [StripBOM] when the codec is BOM-aware unless
    [options.stripBOM === false]. *)
Definition iconv_decode (buf : buffer) (encoding : string) (options : Options)
  : result jsstring :=
  bomAware <- getCodec encoding ;;
  res <- codec_decoder encoding options buf ;;
  if (bomAware && negb (match opt_stripBOM options with Some false => true | _ => false end))%bool
  then match res with
       | c :: res' => if cu_eqb c BOMChar then Ok res' else Ok res
       | [] => Ok res
       end
  else Ok res.

(** [iconv.encode(str, encoding, options)]: the encoder is wrapped in
    [PrependBOM] when the codec is BOM-aware and [options.addBOM] is
    truthy. *)
Definition iconv_encode (str : jsstring) (encoding : string) (options : Options)
  : result buffer :=
  bomAware <- getCodec encoding ;;
  if (bomAware && match opt_addBOM options with Some true => true | _ => false end)%bool
  then codec_encoder encoding options (BOMChar :: str)
  else codec_encoder encoding options str.
End Iconv.

(** The [utf8] and [binary] codecs of iconv-lite's internal codec table;
    [utf8] is BOM-aware, [binary] is not. The other encodings are not
    modelled. *)
Definition internal_getCodec (encoding : string) : result bool :=
  if String.eqb encoding "utf8" then Ok true
  else if String.eqb encoding "binary" then Ok false
  else Err (OutsideModel "iconv-lite codec").

Definition internal_decoder (encoding : string) (_ : Options) (buf : buffer) : result jsstring :=
  if String.eqb encoding "utf8" then Ok (Buffer_toString buf)
  else if String.eqb encoding "binary" then Ok buf
  else Err (OutsideModel "iconv-lite codec").

Definition internal_encoder (encoding : string) (_ : Options) (str : jsstring) : result buffer :=
  if String.eqb encoding "utf8" then Ok (Buffer_from str)
  else if String.eqb encoding "binary" then Ok (map (fun c => c mod 256)%N str)
  else Err (OutsideModel "iconv-lite codec").

Definition internal_codecs : IconvCodecs :=
  {| getCodec := internal_getCodec;
     codec_decoder := internal_decoder;
     codec_encoder := internal_encoder |}.

(** ** Text primitives of the platform and of the libraries

    The entity, casing, normalization, URI and tag-stripping functions are
    taken as they are ([entities], lodash, [string-strip-html] and the
    JavaScript built-ins); the URI functions and the locale-aware casing
    can throw. [maxStringLength] is the platform's limit on the length of
    a string (2^29 - 24 code units on 64-bit V8). *)
Class TextPrimitives := {
  decodeURI : jsstring -> result jsstring;
  decodeURIComponent : jsstring -> result jsstring;
  encodeURI : jsstring -> result jsstring;
  encodeURIComponent : jsstring -> result jsstring;
  decodeXML : jsstring -> jsstring;
  decodeXMLStrict : jsstring -> jsstring;
  decodeHTML : jsstring -> jsstring;
  decodeHTMLStrict : jsstring -> jsstring;
  encodeXML : jsstring -> jsstring;
  encodeHTML : jsstring -> jsstring;
  escapeUTF8 : jsstring -> jsstring;
  encodeNonAsciiHTML : jsstring -> jsstring;
  camelCase : jsstring -> jsstring;
  capitalize : jsstring -> jsstring;
  kebabCase : jsstring -> jsstring;
  snakeCase : jsstring -> jsstring;
  startCase : jsstring -> jsstring;
  toUpperCase : jsstring -> jsstring;
  toLowerCase : jsstring -> jsstring;
  toLocaleUpperCase : jsstring -> jsstring -> result jsstring;
  toLocaleLowerCase : jsstring -> jsstring -> result jsstring;
  normalize : string -> jsstring -> jsstring;
  stripHtml : bool -> jsstring -> jsstring -> jsstring;
  maxStringLength : Z
}.

(** ** Operations

    A manipulation is the parameter object of one entry of the
    [manipulation] collection, grouped by the [action] it is dispatched on.
    Option fields stay strings: a value outside the declared options reaches
    the [default:] branch of its [switch]. Nullable fields are options. *)

Record replaceParams := mkReplace {
  replaceMode : string;
  rp_substring : jsstring;
  rp_value : jsstring;
  rp_replaceAll : bool;
  rp_extended : bool;
  rp_regex : jsstring;
  rp_pattern : jsstring;
  predefinedRule : string;
  onlyRecognisedHTML : bool;
  rp_newline : bool;
  newlineMin : Z;
  newlineMax : Z;
  rp_number : bool;
  numberMin : Z;
  numberMax : Z;
  rp_alpha : bool;
  alphaMin : Z;
  alphaMax : Z;
  rp_whitespace : bool;
  whitespaceMin : Z;
  whitespaceMax : Z
}.

Inductive manipulation :=
| Concat (before after : option jsstring)
| DecodeEncode (decodeWith encodeWith : string) (addBOM stripBOM : option bool)
| DecodeEncodeEntities (decodeWithEntities encodeWithEntities
                        entitiesDecodeMode entitiesEncodeMode : string)
| LetterCase (caseType : string) (language : jsstring)
| Normalize (normalizeForm : string)
| Replace (params : replaceParams)
| Trim (trim : string) (trimStringUnit : bool) (trimString : jsstring)
| Pad (pad : string) (targetLength : option Z) (padString : jsstring)
| Substring (startPosition : Z) (end_ : string) (endPosition : Z) (endLength : option Z)
| Repeat (times : option Z)
| UnknownAction (action : string).

Fixpoint split_on (sep : N) (cur : jsstring) (s : jsstring) : list jsstring :=
  match s with
  | [] => [rev cur]
  | c :: s' => if cu_eqb c sep then rev cur :: split_on sep [] s' else split_on sep (c :: cur) s'
  end.

Fixpoint join (sep : jsstring) (parts : list jsstring) : jsstring :=
  match parts with
  | [] => []
  | [p] => p
  | p :: rest => p ++ sep ++ join sep rest
  end.

(** The pattern with which the [regex] mode recognises a regex literal. *)
Definition literal_pattern : jsstring := js "^/(.*?)/([gimusy]*)$".

(** [new RegExp(x)] and [new RegExp(x, f)] with [x] or [f] read from an
    array slot: [undefined] gives the empty pattern and no flags. *)
Definition slot (a : list (option jsstring)) (i : nat) : option jsstring :=
  match a !! i with
  | Some x => x
  | None => None
  end.

Definition new_RegExp_js (pattern flags : option jsstring) : result RegExp :=
  with_RegExp (default (js "(?:)") pattern) (default [] flags) id.

Definition invalid {A : Type} (message : string) (itemIndex : nat) : result A :=
  Err (NodeOperationError message itemIndex).

(** [manipulation.extended ? unescapeEscapedCharacters(v) : v] *)
Definition replacement (extended : bool) (v : jsstring) : result jsstring :=
  if extended then unescapeEscapedCharacters v else Ok v.

(** [case 'normalize'], over the platform's [String.prototype.normalize]. *)
Definition normalize_case (normalize : string -> jsstring -> jsstring)
    (normalizeForm : string) (text : jsstring) : result jsstring :=
  if String.eqb normalizeForm "nfc" then Ok (normalize "NFC"%string text)
  else if String.eqb normalizeForm "nfd" then Ok (normalize "NFD"%string text)
  else if String.eqb normalizeForm "nfkc" then Ok (normalize "NFKC"%string text)
  else if String.eqb normalizeForm "nfkd" then Ok (normalize "NFKD"%string text)
  else Ok text.

(** [case 'regex'] of the replace modes. *)
Definition replace_regex (extended : bool) (regex pattern text : jsstring)
  : result jsstring :=
  literal <- new_RegExp_js (Some literal_pattern) None ;;
  match js_match literal regex with
  | None =>
      re <- new_RegExp_js (Some regex) None ;;
      v <- replacement extended pattern ;;
      Ok (regexp_replace re text v)
  | Some regexMatch =>
      if Nat.eqb (length regexMatch) 1 then
        re <- new_RegExp_js (slot regexMatch 1) None ;;
        v <- replacement extended pattern ;;
        Ok (regexp_replace re text v)
      else
        re <- new_RegExp_js (slot regexMatch 1) (slot regexMatch 2) ;;
        v <- replacement extended pattern ;;
        Ok (regexp_replace re text v)
  end.

(** [case 'characterGroups']: the enabled classes, joined by [|]. *)
Definition characterGroups (p : replaceParams) : list jsstring :=
  (if rp_newline p
   then [buildRegexGroup (js "(\r\n|\r|\n)") (newlineMin p) (newlineMax p)] else [])
  ++ (if rp_number p then [buildRegexGroup (js "\d") (numberMin p) (numberMax p)] else [])
  ++ (if rp_alpha p then [buildRegexGroup (js "[a-zA-Z]") (alphaMin p) (alphaMax p)] else [])
  ++ (if rp_whitespace p
      then [buildRegexGroup (js "\s") (whitespaceMin p) (whitespaceMax p)] else []).

Definition replace_characterGroups (p : replaceParams) (text : jsstring) : result jsstring :=
  re <- new_RegExp_js (Some (join (js "|") (characterGroups p))) (Some (js "g")) ;;
  v <- replacement (rp_extended p) (rp_value p) ;;
  Ok (regexp_replace re text v).

(** [case 'trim'] *)
Definition trim_case (itemIndex : nat) (trim : string) (trimStringUnit : bool)
    (trimString text : jsstring) : result jsstring :=
  if String.eqb trim "trimBoth" then
    if trimStringUnit then charsTrim text trimString else lodash_trim text trimString
  else if String.eqb trim "trimStart" then
    if trimStringUnit then charsTrimStart text trimString
    else lodash_trimStart text trimString
  else if String.eqb trim "trimEnd" then
    if trimStringUnit then charsTrimEnd text trimString
    else lodash_trimEnd text trimString
  else invalid "trimBoth, trimStart or trimEnd are valid options" itemIndex.

(** [case 'pad'] *)
Definition pad_case (itemIndex : nat) (pad : string) (targetLength : option Z)
    (padString text : jsstring) : result jsstring :=
  match targetLength with
  | None => invalid "The Target Length has to be set to at least 0 or higher!" itemIndex
  | Some targetLength =>
      if targetLength <? 0 then
        invalid "The Target Length has to be set to at least 0 or higher!" itemIndex
      else if String.eqb pad "padStart" then Ok (js_padStart text targetLength padString)
      else if String.eqb pad "padEnd" then Ok (js_padEnd text targetLength padString)
      else invalid "padStart or padEnd are valid options" itemIndex
  end.

(** [case 'substring'] *)
Definition substring_case (itemIndex : nat) (startPosition : Z) (end_ : string)
    (endPosition : Z) (endLength : option Z) (text : jsstring) : result jsstring :=
  if String.eqb end_ "complete" then Ok (js_substring text startPosition None)
  else if String.eqb end_ "position" then
    Ok (js_substring text startPosition (Some endPosition))
  else if String.eqb end_ "length" then
    match endLength with
    | None => invalid "The Length has to be set to at least 0 or higher!" itemIndex
    | Some endLength =>
        if endLength <? 0 then
          invalid "The Length has to be set to at least 0 or higher!" itemIndex
        else if startPosition <? 0 then
          Ok (js_substring text startPosition
                (Some (Z.of_nat (length text) + startPosition + endLength)))
        else
          Ok (js_substring text startPosition (Some (startPosition + endLength)))
    end
  else invalid "complete, position or length are valid options" itemIndex.

(** [case 'repeat'] *)
Definition repeat_case (limit : Z) (itemIndex : nat) (times : option Z) (text : jsstring)
  : result jsstring :=
  match times with
  | None => invalid "The Times has to be set to at least 0 or higher!" itemIndex
  | Some times =>
      if times <? 0 then invalid "The Times has to be set to at least 0 or higher!" itemIndex
      else js_repeat limit text times
  end.

Section DecodeEncode.
Context `{IconvCodecs}.

(** [case 'decodeEncode'] *)
Definition decodeEncode_case (decodeWith encodeWith : string)
    (addBOM stripBOM : option bool) (text : jsstring) : result jsstring :=
  if negb (String.eqb encodeWith decodeWith) then
    decoded <- iconv_decode (Buffer_from text) decodeWith (mkOptions addBOM None) ;;
    encoded <- iconv_encode decoded encodeWith (mkOptions None stripBOM) ;;
    Ok (Buffer_toString encoded)
  else Ok text.

(** What the node's description offers: [stripBOM] for the decoding and
    [addBOM] for the encoding. *)
Definition decodeEncode_documented (decodeWith encodeWith : string)
    (addBOM stripBOM : option bool) (text : jsstring) : result jsstring :=
  if negb (String.eqb encodeWith decodeWith) then
    decoded <- iconv_decode (Buffer_from text) decodeWith (mkOptions None stripBOM) ;;
    encoded <- iconv_encode decoded encodeWith (mkOptions addBOM None) ;;
    Ok (Buffer_toString encoded)
  else Ok text.
End DecodeEncode.

Section Engine.
Context `{IconvCodecs} `{TextPrimitives}.

Definition decodeEntities (itemIndex : nat) (decodeWithEntities
    entitiesDecodeMode : string) (text : jsstring) : result jsstring :=
  if String.eqb decodeWithEntities "url" then decodeURI text
  else if String.eqb decodeWithEntities "urlComponent" then decodeURIComponent text
  else if String.eqb decodeWithEntities "xml" then
    if String.eqb entitiesDecodeMode "legacy" then Ok (decodeXML text)
    else if String.eqb entitiesDecodeMode "strict" then Ok (decodeXMLStrict text)
    else invalid "legacy or strict are valid options" itemIndex
  else if String.eqb decodeWithEntities "html" then
    if String.eqb entitiesDecodeMode "legacy" then Ok (decodeHTML text)
    else if String.eqb entitiesDecodeMode "strict" then Ok (decodeHTMLStrict text)
    else invalid "legacy or strict are valid options" itemIndex
  else if String.eqb decodeWithEntities "nothing" then Ok text
  else invalid "url, xml, html or nothing are valid options" itemIndex.

Definition encodeEntities (itemIndex : nat) (encodeWithEntities
    entitiesEncodeMode : string) (text : jsstring) : result jsstring :=
  if String.eqb encodeWithEntities "url" then encodeURI text
  else if String.eqb encodeWithEntities "urlComponent" then encodeURIComponent text
  else if String.eqb encodeWithEntities "xml" then
    if String.eqb entitiesEncodeMode "extensive" then Ok (encodeXML text)
    else if String.eqb entitiesEncodeMode "utf8" then Ok (escapeUTF8 text)
    else if String.eqb entitiesEncodeMode "nonAscii" then Ok (encodeXML text)
    else invalid "extensive, utf8 or nonAscii are valid options" itemIndex
  else if String.eqb encodeWithEntities "html" then
    if String.eqb entitiesEncodeMode "extensive" then Ok (encodeHTML text)
    else if String.eqb entitiesEncodeMode "utf8" then Ok (escapeUTF8 text)
    else if String.eqb entitiesEncodeMode "nonAscii" then Ok (encodeNonAsciiHTML text)
    else invalid "extensive, utf8 or nonAscii are valid options" itemIndex
  else if String.eqb encodeWithEntities "nothing" then Ok text
  else invalid "url, xml, html or nothing are valid options" itemIndex.

Definition letterCase (itemIndex : nat) (caseType : string) (language : jsstring)
    (text : jsstring) : result jsstring :=
  if String.eqb caseType "camelCase" then Ok (camelCase text)
  else if String.eqb caseType "capitalize" then Ok (capitalize text)
  else if String.eqb caseType "titlecase" then
    Ok (join (js " ") (map capitalize (split_on (ch " ") [] text)))
  else if String.eqb caseType "kebabCase" then Ok (kebabCase text)
  else if String.eqb caseType "snakeCase" then Ok (snakeCase text)
  else if String.eqb caseType "startCase" then Ok (startCase text)
  else if String.eqb caseType "upperCase" then Ok (toUpperCase text)
  else if String.eqb caseType "lowerCase" then Ok (toLowerCase text)
  else if String.eqb caseType "localeUpperCase" then toLocaleUpperCase text language
  else if String.eqb caseType "localeLowerCase" then toLocaleLowerCase text language
  else invalid
    "upperCase, lowerCase, capitalize, camelCase, kebabCase or snakeCase are valid options"
    itemIndex.

(** [case 'replace'] *)
Definition replace (itemIndex : nat) (p : replaceParams) (text : jsstring)
  : result jsstring :=
  if String.eqb (replaceMode p) "substring" then
    if rp_replaceAll p then
      v <- replacement (rp_extended p) (rp_value p) ;;
      replaceAll text (rp_substring p) v
    else
      v <- replacement (rp_extended p) (rp_value p) ;;
      Ok (string_replace text (rp_substring p) v)
  else if String.eqb (replaceMode p) "extendedSubstring" then
    if rp_replaceAll p then
      sub <- unescapeEscapedCharacters (rp_substring p) ;;
      v <- replacement (rp_extended p) (rp_value p) ;;
      replaceAll text sub v
    else
      sub <- unescapeEscapedCharacters (rp_substring p) ;;
      v <- replacement (rp_extended p) (rp_value p) ;;
      Ok (string_replace text sub v)
  else if String.eqb (replaceMode p) "regex" then
    replace_regex (rp_extended p) (rp_regex p) (rp_pattern p) text
  else if String.eqb (replaceMode p) "predefinedRule" then
    if String.eqb (predefinedRule p) "tags" then
      v <- replacement (rp_extended p) (rp_value p) ;;
      Ok (stripHtml (onlyRecognisedHTML p) v text)
    else if String.eqb (predefinedRule p) "characterGroups" then
      replace_characterGroups p text
    else invalid "tags or characterGroups are valid options" itemIndex
  else invalid "substring, extendedSubstring, regex or predefinedRule are valid options"
         itemIndex.

(** One step of the fold: the body of [switch (manipulation.action)]. *)
Definition apply (itemIndex : nat) (text : jsstring) (m : manipulation) : result jsstring :=
  match m with
  | Concat before after => Ok (default [] before ++ text ++ default [] after)
  | DecodeEncode decodeWith encodeWith addBOM stripBOM =>
      decodeEncode_case decodeWith encodeWith addBOM stripBOM text
  | DecodeEncodeEntities decodeWithEntities encodeWithEntities
      entitiesDecodeMode entitiesEncodeMode =>
      if negb (String.eqb encodeWithEntities decodeWithEntities) then
        text <- decodeEntities itemIndex decodeWithEntities entitiesDecodeMode text ;;
        encodeEntities itemIndex encodeWithEntities entitiesEncodeMode text
      else Ok text
  | LetterCase caseType language => letterCase itemIndex caseType language text
  | Normalize normalizeForm => normalize_case normalize normalizeForm text
  | Replace p => replace itemIndex p text
  | Trim trim trimStringUnit trimString =>
      trim_case itemIndex trim trimStringUnit trimString text
  | Pad pad targetLength padString => pad_case itemIndex pad targetLength padString text
  | Substring startPosition end_ endPosition endLength =>
      substring_case itemIndex startPosition end_ endPosition endLength text
  | Repeat times => repeat_case maxStringLength itemIndex times text
  | UnknownAction _ =>
      invalid "decodeEncode, replace, trim, pad, substring or repeat are valid options"
        itemIndex
  end.

(** The loop over [manipulations.manipulation]. *)
Fixpoint applyAll (itemIndex : nat) (text : jsstring) (ms : list manipulation)
  : result jsstring :=
  match ms with
  | [] => Ok text
  | m :: ms' =>
      text' <- apply itemIndex text m ;;
      applyAll itemIndex text' ms'
  end.
End Engine.

(** ** Items on an object store

    Items, their [json] trees and their [binary] maps are JavaScript
    objects: they live in a store and are referred to by location, so that
    two references to one object observe each other's writes. An object is
    the list of its own properties in insertion order (an array is the
    object of its indices). A function is an object that can be called:
    [VFunction l] is the function whose own properties are the object at
    [l]. *)

Inductive value :=
| VUndefined
| VNull
| VBool (b : bool)
| VNumber (z : Z)
| VString (s : jsstring)
| VObject (l : nat)
| VFunction (l : nat).

Abbreviation object := (list (jsstring * value)).
Abbreviation store := (list object).

Fixpoint obj_get (o : object) (key : jsstring) : value :=
  match o with
  | [] => VUndefined
  | (k, v) :: o' => if js_eqb k key then v else obj_get o' key
  end.

Fixpoint obj_set (o : object) (key : jsstring) (v : value) : object :=
  match o with
  | [] => [(key, v)]
  | (k, x) :: o' => if js_eqb k key then (k, v) :: o' else (k, x) :: obj_set o' key v
  end.

Definition obj_of (h : store) (l : nat) : object := default [] (h !! l).

(** [target[key] = v] on the object at [l]. *)
Definition assign (h : store) (l : nat) (key : jsstring) (v : value) : store :=
  <[l := obj_set (obj_of h l) key v]> h.

(** [new Object]: the next free location. *)
Definition alloc (h : store) (o : object) : nat * store := (length h, h ++ [o]).

Definition canonical_index (key : jsstring) : option nat :=
  match key with
  | [] => None
  | [c] => if is_digit c then Some (digit_val c) else None
  | c :: _ =>
      if (is_digit c && negb (cu_eqb c (ch "0")) && forallb is_digit key)%bool
      then Some (fst (parse_nat_acc key 0%nat)) else None
  end.

(** [object[key]] for a value: the own properties of an object or a
    function, the [length] and the indices of a string; other primitives
    have no own properties (inherited ones are not modelled). *)
Definition prop (h : store) (v : value) (key : jsstring) : value :=
  match v with
  | VObject l | VFunction l => obj_get (obj_of h l) key
  | VString s =>
      if js_eqb key (js "length") then VNumber (Z.of_nat (length s))
      else match canonical_index key with
           | Some i => match s !! i with Some c => VString [c] | None => VUndefined end
           | None => VUndefined
           end
  | _ => VUndefined
  end.

Definition has_own (h : store) (v : value) (key : jsstring) : bool :=
  match v with
  | VObject l | VFunction l => existsb (fun kv => js_eqb (fst kv) key) (obj_of h l)
  | _ => false
  end.

Definition truthy (v : value) : bool :=
  match v with
  | VUndefined | VNull => false
  | VBool b => b
  | VNumber z => negb (z =? 0)
  | VString s => match s with [] => false | _ => true end
  | VObject _ | VFunction _ => true
  end.

(** [typeof v === 'function'], with the function. *)
Definition as_function (v : value) : option nat :=
  match v with
  | VFunction f => Some f
  | _ => None
  end.

(** The code of the functions that the data of the items holds:
    [call_function f this] is [f.call(this)], the store it leaves and the
    value it returns. A call that throws is not modelled. *)
Class Functions := {
  call_function : nat -> value -> store -> store * value
}.

(** *** lodash [get] and [set]

    How a path string is split ([stringToPath]) and when it counts as deep
    ([reIsDeepProp]) is lodash's path syntax; the traversal is modelled. *)
Class PathSyntax := {
  isDeepProp : jsstring -> bool;
  stringToPath : jsstring -> list jsstring
}.

(** Dotted paths: the path syntax on strings without brackets. *)
Definition dotted_paths : PathSyntax :=
  {| isDeepProp := fun s => existsb (fun c => (cu_eqb c (ch ".") || cu_eqb c (ch "["))%bool) s;
     stringToPath := split_on (ch ".") [] |}.

Section Paths.
Context `{PathSyntax}.

Definition isKey (h : store) (path : jsstring) (object : value) : bool :=
  (forallb is_word_char path || negb (isDeepProp path) || has_own h object path)%bool.

Definition castPath (h : store) (path : jsstring) (object : value) : list jsstring :=
  if isKey h path object then [path] else stringToPath path.

Fixpoint baseGet_loop (h : store) (object : value) (path : list jsstring) : value :=
  match path with
  | [] => object
  | key :: path' =>
      match object with
      | VUndefined | VNull => VUndefined
      | _ => baseGet_loop h (prop h object key) path'
      end
  end.

(** [get(object, path)] *)
Definition get (h : store) (object : value) (path : jsstring) : value :=
  match object with
  | VUndefined | VNull => VUndefined
  | _ =>
      match castPath h path object with
      | [] => VUndefined
      | p => baseGet_loop h object p
      end
  end.

Definition unsafe_key (key : jsstring) : bool :=
  (js_eqb key (js "__proto__") || js_eqb key (js "constructor")
   || js_eqb key (js "prototype"))%bool.

(** The loop of [baseSet]: intermediate containers are reused when they
    are objects ([isObject]: an object or a function) and created
    otherwise. *)
Fixpoint baseSet_loop (h : store) (nested : nat) (path : list jsstring) (v : value)
  : store :=
  match path with
  | [] => h
  | key :: rest =>
      if unsafe_key key then h
      else
        match rest with
        | [] => assign h nested key v
        | _ :: _ =>
            match obj_get (obj_of h nested) key with
            | VObject l' => baseSet_loop (assign h nested key (VObject l')) l' rest v
            | VFunction l' => baseSet_loop (assign h nested key (VFunction l')) l' rest v
            | _ =>
                let '(l', h1) := alloc h [] in
                baseSet_loop (assign h1 nested key (VObject l')) l' rest v
            end
        end
  end.

(** [set(object, path, value)] *)
Definition set (h : store) (object : value) (path : jsstring) (v : value) : store :=
  match object with
  | VObject l | VFunction l => baseSet_loop h l (castPath h path object) v
  | _ => h
  end.
End Paths.

(** *** n8n-workflow [deepCopy]

    A primitive and a function are returned as they are; an object with a
    [toJSON] method is replaced by what the method returns, uncopied; any
    other object is cloned, property by property. Objects already cloned
    are found in [hash], so every object is cloned once and [fuel] (the
    depth of the recursion) is bounded by the number of objects in the
    store. *)
Fixpoint hash_get (hash : list (nat * nat)) (l : nat) : option nat :=
  match hash with
  | [] => None
  | (a, b) :: hash' => if Nat.eqb a l then Some b else hash_get hash' l
  end.

(** The loop over the own properties of the source: [clone[i] = deepCopy(source[i])]. *)
Fixpoint copy_props
    (rec : value -> list (nat * nat) -> store -> result (value * list (nat * nat) * store))
    (clone : nat) (ps : object) (hash : list (nat * nat)) (h : store)
  : result (list (nat * nat) * store) :=
  match ps with
  | [] => Ok (hash, h)
  | (i, v) :: ps' =>
      r <- rec v hash h ;;
      let '(v', hash', h') := r in
      copy_props rec clone ps' hash' (assign h' clone i v')
  end.

Section DeepCopy.
Context `{Functions}.

Fixpoint deepCopy (fuel : nat) (source : value) (hash : list (nat * nat)) (h : store)
  : result (value * list (nat * nat) * store) :=
  match source with
  | VObject l =>
      match as_function (prop h source (js "toJSON")) with
      | Some toJSON =>
          let '(h', v) := call_function toJSON source h in
          Ok (v, hash, h')
      | None =>
          match hash_get hash l with
          | Some c => Ok (VObject c, hash, h)
          | None =>
              match fuel with
              | O => Err (OutsideModel "deepCopy")
              | S fuel' =>
                  let '(clone, h1) := alloc h [] in
                  r <- copy_props (deepCopy fuel') clone (obj_of h l) ((l, clone) :: hash) h1 ;;
                  let '(hash', h') := r in
                  Ok (VObject clone, hash', h')
              end
          end
      end
  | _ => Ok (source, hash, h)
  end.
End DeepCopy.

(** ** Data sources and the per-item pipeline *)

Inductive readOperation :=
| FromFile (getManipulatedData : bool) (binaryPropertyName : jsstring)
           (fileDecodeWith : string) (fileStripBOM : option bool)
| FromJSON (getManipulatedData : bool) (sourceKey : jsstring) (skipNonString : bool)
| FromText (text : jsstring)
| UnknownRead (readOperation : string).

Inductive writeOperation :=
| ToFile (destinationBinaryPropertyName : jsstring) (fileEncodeWith : string)
         (fileAddBOM : option bool) (fileName mimeType : jsstring)
| ToJSON (destinationKey : jsstring)
| UnknownWrite (writeOperation : string).

Record dataSource := mkDataSource {
  ds_read : readOperation;
  ds_write : writeOperation
}.

(** One entry of [textsWithManipulations.textsWithManipulationsValues]. *)
Record textsWithManipulationsValues := mkGroup {
  dataSources : list dataSource;
  manipulations : list manipulation
}.

(** An input item: its [json] object and, when defined, its [binary] map. *)
Record item := mkItem {
  item_json : nat;
  item_binary : option nat
}.

(** What is pushed to [returnData] for an item. *)
Record outputItem := mkOutput {
  out_json : value;
  out_binary : option nat;
  pairedItem : nat
}.

(** The host's binary helpers: the [BINARY_ENCODING] (base64) decoding of
    an attachment's [data], and [helpers.prepareBinaryData], which builds
    the properties of a new attachment. *)
Class BinaryHelpers := {
  base64_decode : jsstring -> buffer;
  prepareBinaryData : buffer -> jsstring -> jsstring -> object
}.

(** Computations on the store that may throw; the store survives a throw. *)
Definition M (A : Type) : Type := store -> store * result A.

Definition ret {A : Type} (a : A) : M A := fun h => (h, Ok a).
Definition throw {A : Type} (e : error) : M A := fun h => (h, Err e).
Definition lift {A : Type} (r : result A) : M A := fun h => (h, r).
Definition read {A : Type} (f : store -> A) : M A := fun h => (h, Ok (f h)).
Definition write (f : store -> store) : M unit := fun h => (f h, Ok tt).

Definition mbind {A B : Type} (m : M A) (f : A -> M B) : M B :=
  fun h =>
    match m h with
    | (h', Ok a) => f a h'
    | (h', Err e) => (h', Err e)
    end.

Declare Scope store_scope.
Delimit Scope store_scope with store.
Notation "x <~ m ;; k" := (mbind m (fun x => k))
  (at level 100, m at next level, right associativity) : store_scope.
Notation "m ;;; k" := (mbind m (fun _ => k))
  (at level 100, right associativity) : store_scope.

Section Pipeline.
Context `{IconvCodecs} `{TextPrimitives} `{PathSyntax} `{BinaryHelpers} `{Functions}.
Open Scope store_scope.

(** [Buffer.from(attachment.data, BINARY_ENCODING)] *)
Definition attachment_bytes (h : store) (attachment : value) : result buffer :=
  match prop h attachment (js "data") with
  | VString data => Ok (base64_decode data)
  | _ => Err (LibraryError "Buffer.from: the first argument must be a string")
  end.

Definition decode_attachment (attachment : value) (fileDecodeWith : string)
    (fileStripBOM : option bool) : M jsstring :=
  fun h =>
    (h, buf <- attachment_bytes h attachment ;;
        iconv_decode buf fileDecodeWith (mkOptions None fileStripBOM))%result.

(** [(value ?? '').toString()] for a value that is not a string. *)
Definition stringify (v : value) : result jsstring :=
  match v with
  | VUndefined | VNull => Ok []
  | VBool true => Ok (js "true")
  | VBool false => Ok (js "false")
  | VNumber z => Ok (number_to_js z)
  | VString s => Ok s
  | VObject _ => Err (OutsideModel "Object.prototype.toString")
  | VFunction _ => Err (OutsideModel "Function.prototype.toString")
  end.

(** [switch (dataSource.readOperation)]: the text of the source, or
    [None] where the code runs [continue]. *)
Definition readSource (itemIndex : nat) (it : item) (newItemJson : value)
    (newItemBinary : nat) (r : readOperation) : M (option jsstring) :=
  match r with
  | FromFile getManipulatedData binaryPropertyName fileDecodeWith fileStripBOM =>
      fun h =>
        let raw :=
          match item_binary it with
          | None => VUndefined
          | Some b => obj_get (obj_of h b) binaryPropertyName
          end in
        let decode (attachment : value) : store * result (option jsstring) :=
          (text <~ decode_attachment attachment fileDecodeWith fileStripBOM ;;
           ret (Some text)) h in
        if getManipulatedData then
          match obj_get (obj_of h newItemBinary) binaryPropertyName with
          | VUndefined =>
              match raw with
              | VUndefined => (h, Ok None)
              | _ => decode raw
              end
          | manipulated => decode manipulated
          end
        else
          match raw with
          | VUndefined => (h, Ok None)
          | _ => decode raw
          end
  | FromJSON getManipulatedData sourceKey skipNonString =>
      fun h =>
        let manipulated :=
          if getManipulatedData then get h newItemJson sourceKey else VBool false in
        let value :=
          if truthy manipulated then manipulated
          else get h (VObject (item_json it)) sourceKey in
        match value with
        | VString s => (h, Ok (Some s))
        | _ =>
            if skipNonString then (h, Ok None)
            else (h, text <- stringify value ;; Ok (Some text))%result
        end
  | FromText text => ret (Some text)
  | UnknownRead _ =>
      throw (NodeOperationError "fromFile, fromJSON or fromText are valid options" itemIndex)
  end.

(** [switch (dataSource.writeOperation)] *)
Definition writeDestination (itemIndex : nat) (newItemJson : value) (newItemBinary : nat)
    (w : writeOperation) (text : jsstring) : M unit :=
  match w with
  | ToFile destinationBinaryPropertyName fileEncodeWith fileAddBOM fileName mimeType =>
      encoded <~ lift (iconv_encode text fileEncodeWith (mkOptions fileAddBOM None)) ;;
      fun h =>
        let '(l, h1) := alloc h (prepareBinaryData encoded fileName mimeType) in
        (assign h1 newItemBinary destinationBinaryPropertyName (VObject l), Ok tt)
  | ToJSON destinationKey =>
      write (fun h => set h newItemJson destinationKey (VString text))
  | UnknownWrite _ =>
      throw (NodeOperationError "toFile or toJSON are valid options" itemIndex)
  end.

(** The body of the loop over the data sources of one group. *)
Definition runDataSource (itemIndex : nat) (it : item) (newItemJson : value)
    (newItemBinary : nat) (ms : list manipulation) (ds : dataSource) : M unit :=
  source <~ readSource itemIndex it newItemJson newItemBinary (ds_read ds) ;;
  match source with
  | None => ret tt
  | Some text =>
      text' <~ lift (applyAll itemIndex text ms) ;;
      writeDestination itemIndex newItemJson newItemBinary (ds_write ds) text'
  end.

Fixpoint forEach {A : Type} (f : A -> M unit) (xs : list A) : M unit :=
  match xs with
  | [] => ret tt
  | x :: xs' => f x ;;; forEach f xs'
  end.

(** [Object.assign(target, source)]: the own properties of [source], in
    order, assigned to [target]. *)
Definition Object_assign (target source : nat) : M unit :=
  fun h =>
    (fold_left (fun h' kv => assign h' target (fst kv) (snd kv)) (obj_of h source) h, Ok tt).

(** One iteration of the loop over the items of [execute]. *)
Definition processItem (keepOnlySet : bool) (groups : list textsWithManipulationsValues)
    (itemIndex : nat) (it : item) : M outputItem :=
  emptyJson <~ (fun h => let '(l, h1) := alloc h [] in (h1, Ok l)) ;;
  newItemBinary <~ (fun h => let '(l, h1) := alloc h [] in (h1, Ok l)) ;;
  newItemJson <~
    (if negb keepOnlySet then
       match item_binary it with
       | Some b => Object_assign newItemBinary b
       | None => ret tt
       end ;;;
       fun h =>
         match deepCopy (S (length h)) (VObject (item_json it)) [] h with
         | Ok (copy, _, h') => (h', Ok copy)
         | Err e => (h, Err e)
         end
     else ret (VObject emptyJson)) ;;
  forEach (fun g =>
    forEach (runDataSource itemIndex it newItemJson newItemBinary (manipulations g))
      (dataSources g)) groups ;;;
  binaryKeys <~ read (fun h => length (obj_of h newItemBinary)) ;;
  ret (mkOutput newItemJson
         (if Nat.eqb binaryKeys 0 then None else Some newItemBinary) itemIndex).

(** [execute]: the items in input order; the first throw ends the run. *)
Fixpoint execute_from (keepOnlySet : nat -> bool)
    (groups : nat -> list textsWithManipulationsValues)
    (itemIndex : nat) (items : list item) : M (list outputItem) :=
  match items with
  | [] => ret []
  | it :: items' =>
      out <~ processItem (keepOnlySet itemIndex) (groups itemIndex) itemIndex it ;;
      outs <~ execute_from keepOnlySet groups (S itemIndex) items' ;;
      ret (out :: outs)
  end.

Definition execute (keepOnlySet : nat -> bool)
    (groups : nat -> list textsWithManipulationsValues) (items : list item)
  : M (list outputItem) :=
  execute_from keepOnlySet groups 0%nat items.
End Pipeline.

(** ** Reference definitions used by the statements *)

(** The quantifier that a [min]/[max] pair of [buildRegexGroup] denotes:
    lower bound and optional upper bound. *)
Definition repetition (min max : Z) : nat * option nat :=
  if min =? 0 then
    if max =? 0 then (0%nat, None) else (Z.to_nat max, Some (Z.to_nat max))
  else
    if max =? 0 then (Z.to_nat min, None) else (Z.to_nat min, Some (Z.to_nat max)).

Definition is_regex_flag (c : N) : bool := existsb (cu_eqb c) (js "gimusy").

(** The regex-literal form, read directly: after the leading slash, the
    body ends at the first slash that is followed by flag letters only, and
    the body has no line terminator. *)
Fixpoint literal_body (body_rev rest : jsstring) : option (jsstring * jsstring) :=
  match rest with
  | [] => None
  | c :: rest' =>
      if (cu_eqb c (ch "/") && forallb is_regex_flag rest')%bool
      then Some (rev body_rev, rest')
      else if isLineTerminator c then None
      else literal_body (c :: body_rev) rest'
  end.

Definition literal_split (regex : jsstring) : option (jsstring * jsstring) :=
  match regex with
  | c :: rest => if cu_eqb c (ch "/") then literal_body [] rest else None
  | [] => None
  end.

(** Literal spaces: all that a per-character trim with a single space
    drops. *)
Definition is_space (c : N) : bool := cu_eqb c 32.

(** A text with no white space at its start, and at its end. *)
Definition trimmed_start (s : jsstring) : Prop :=
  match s with
  | c :: _ => isWhiteSpace c = false
  | [] => True
  end.

Definition trimmed_end (s : jsstring) : Prop := trimmed_start (rev s).

Definition all_white (s : jsstring) : Prop := Forall (fun c => isWhiteSpace c = true) s.

Definition starts_with_digit (s : jsstring) : bool :=
  match s with
  | c :: _ => is_digit c
  | [] => false
  end.

(** The parsed form of [literal_pattern], with no flags set. *)
Definition no_flags : flags := mkFlags false false false false false false.

Definition flag_class : regex := RClass false (map CChar (js "gimusy")).

Definition literal_tail : regex :=
  RSeq (RChar (ch "/")) (RSeq (RGroup 2 (RRepeat flag_class 0 None true)) REol).

Definition literal_re : RegExp :=
  mkRegExp (RSeq RBol (RSeq (RChar (ch "/"))
              (RSeq (RGroup 1 (RRepeat RAny 0 None false)) literal_tail))) 2 no_flags.

(** What follows the lazy body of group 1: the capture is recorded, then
    the closing slash and the flags up to the end are matched. *)
Definition group1_k (st' : mstate) : option mstate :=
  rmatch no_flags literal_tail Some
    (with_caps st' (<[0%nat := Some (1%nat, m_pos st')]> (m_caps st'))).

(** The two conditions on the parts of a regex literal. *)
Definition no_line_terminator (s : jsstring) : Prop :=
  Forall (fun c => isLineTerminator c = false) s.

Definition regex_flags (s : jsstring) : Prop :=
  Forall (fun c => is_regex_flag c = true) s.

(** Plain data: no property of an object of the store holds a function
    (so no object has a method, [toJSON] included), and every reference is
    to an object of the store. *)
Definition plain_value (n : nat) (v : value) : bool :=
  match v with
  | VFunction _ => false
  | VObject l => (l <? n)%nat
  | _ => true
  end.

Definition plain_data (h : store) : bool :=
  forallb (fun o : object => forallb (fun kv => plain_value (length h) (snd kv)) o) h.

(** Ghost state of the frame argument. [J] is a set of locations owned by
    the output tree: they lie above the first [n0] objects of the store,
    are closed under following object references and hold no functions. *)
Definition owned (n0 : nat) (J : nat -> Prop) (h : store) : Prop :=
  (forall l, J l -> (n0 <= l < length h)%nat)
  /\ (forall l key l', J l -> obj_get (obj_of h l) key = VObject l' -> J l')
  /\ (forall l key f, J l -> obj_get (obj_of h l) key <> VFunction f).

Definition root_in (J : nat -> Prop) (v : value) : Prop :=
  match v with
  | VObject l => J l
  | VFunction _ => False
  | _ => True
  end.

(** The invariant of one item: the first [length h0] objects are those of
    the initial store [h0], the attachment map [lb] is a later object, and
    the output root is owned by a set that excludes [lb]. *)
Definition item_inv (h0 : store) (lb : nat) (root : value) (h : store) : Prop :=
  take (length h0) h = h0
  /\ (length h0 <= lb < length h)%nat
  /\ exists J, owned (length h0) J h /\ ~ J lb /\ root_in J root.

(** A computation keeps [P] whether it returns or throws. *)
Definition stable {A : Type} (P : store -> Prop) (m : M A) : Prop :=
  forall h, P h -> P (fst (m h)).

(** For [deepCopy]: the objects from [n1] on refer to objects from [n1] on
    and hold no functions, and the clones recorded in [hash] are among
    them. *)
Definition fresh_closed (n1 : nat) (h : store) : Prop :=
  (forall l key l', (n1 <= l < length h)%nat ->
     obj_get (obj_of h l) key = VObject l' -> (n1 <= l' < length h)%nat)
  /\ (forall l key f, (n1 <= l < length h)%nat -> obj_get (obj_of h l) key <> VFunction f).

Definition hash_ok (n1 : nat) (hash : list (nat * nat)) (h : store) : Prop :=
  forall a c, hash_get hash a = Some c -> (n1 <= c < length h)%nat.

(** The sources recorded in [hash] are distinct objects among the first
    [n0]. *)
Definition hash_wf (n0 : nat) (hash : list (nat * nat)) : Prop :=
  NoDup (map fst hash) /\ List.Forall (fun a => (a < n0)%nat) (map fst hash).

Definition copy_post (n1 : nat) (h : store) (v : value) (hash' : list (nat * nat))
    (h' : store) : Prop :=
  (length h <= length h')%nat
  /\ take n1 h' = take n1 h
  /\ fresh_closed n1 h'
  /\ hash_ok n1 hash' h'
  /\ (forall c, v = VObject c -> (n1 <= c < length h')%nat)
  /\ (forall f, v <> VFunction f).

(** *** As-unit trim *)

(** The regular expression of a literal: what the parser builds from
    [escapeRegExp chars]. *)
Fixpoint lit (chars : jsstring) : regex :=
  match chars with
  | [] => REmpty
  | c :: cs =>
      match cs with
      | [] => RChar c
      | _ :: _ => RSeq (RChar c) (lit cs)
      end
  end.

(** The code unit before the position reached after reading [chars]. *)
Definition last_prev (prev : option N) (chars : jsstring) : option N :=
  fold_left (fun _ c => Some c) chars prev.

(** [j] copies of the trim string, one after the other. *)
Definition power (j : nat) (token : jsstring) : jsstring := concat (replicate j token).

Definition is_suffix (p s : jsstring) : bool := is_prefix (rev p) (rev s).

(** The flags of [new RegExp(..., 'g')]. *)
Definition global_flags : flags := mkFlags true false false false false false.

(** The expressions behind [charsTrimStart], [charsTrimEnd] and [charsTrim]
    for a trim string other than a single space. *)
Definition re_start (token : jsstring) : RegExp :=
  mkRegExp (RSeq RBol (RRepeat (RGroup 1 (lit token)) 1 None true)) 1 global_flags.

Definition re_end (token : jsstring) : RegExp :=
  mkRegExp (RSeq (RRepeat (RGroup 1 (lit token)) 1 None true) REol) 1 global_flags.

Definition re_both (token : jsstring) : RegExp :=
  mkRegExp (RAlt (RSeq RBol (RRepeat (RGroup 1 (lit token)) 1 None true))
                 (RSeq (RRepeat (RGroup 2 (lit token)) 1 None true) REol)) 2 global_flags.

(** A global expression that never matches the empty remainder and, in the
    states [ok], matches exactly a run of whole tokens reaching the end. *)
Definition end_like (token : jsstring) (re : RegExp)
    (ok : option N -> jsstring -> Prop) : Prop :=
  f_sticky (re_flags re) = false
  /\ f_global (re_flags re) = true
  /\ (forall pos prev, try_at re pos prev [] = None)
  /\ forall pos prev rest, ok prev rest ->
       (forall j, rest = power (S j) token ->
          exists prev' caps',
            try_at re pos prev rest = Some (mkState (pos + length rest) [] prev' caps'))
       /\ ((forall j, rest <> power (S j) token) -> try_at re pos prev rest = None).

(** What [escapeRegExp] writes for one code unit. *)
Definition esc (c : N) : jsstring := if reRegExpChar c then [ch "\"; c] else [c].

(** The remainder of a pattern does not start with a quantifier. *)
Definition no_quantifier (rest : jsstring) : bool :=
  match rest with
  | [] => true
  | x :: _ => negb (cu_eqb x (ch "*") || cu_eqb x (ch "+") || cu_eqb x (ch "?")
                    || cu_eqb x (ch "{"))
  end.

(** The remainder of a pattern ends the current alternative. *)
Definition alternative_end (rest : jsstring) : bool :=
  match rest with
  | [] => true
  | x :: _ => (cu_eqb x (ch "|") || cu_eqb x (ch ")"))%bool
  end.

(** The remainder of a pattern does not make the quantifier before it lazy. *)
Definition lazy_free (rest : jsstring) : bool :=
  match rest with
  | [] => true
  | x :: _ => negb (cu_eqb x (ch "?"))
  end.

(** *** Reference definitions of the further properties *)

(** Every occurrence of [substr], found from left to right after the end
    of the one before: the single replace of the first occurrence, taken
    up again on what follows it. *)
Fixpoint replace_each (fuel : nat) (substr new s : jsstring) : jsstring :=
  match fuel with
  | O => s
  | S fuel' =>
      match js_indexOf substr s with
      | None => s
      | Some i =>
          take i s ++ new ++ replace_each fuel' substr new (drop (i + length substr) s)
      end
  end.

(** A replacement value in which no [$] pattern can occur. *)
Definition dollar_free (v : jsstring) : bool := forallb (fun c => negb (cu_eqb c (ch "$"))) v.

(** The value inserted before every code unit and at the end. *)
Definition interleave (v s : jsstring) : jsstring := v ++ flat_map (fun c => c :: v) s.

(** The regular expression of an escaped literal, with the flag [g]. *)
Definition re_literal (substr : jsstring) : RegExp := mkRegExp (lit substr) 0 global_flags.

(** Every match of the expression starts with the code unit [b]. *)
Fixpoint first_is (b : N) (r : regex) : bool :=
  match r with
  | RChar c => cu_eqb c b
  | RSeq r1 _ => first_is b r1
  | RAlt r1 r2 => first_is b r1 && first_is b r2
  | RGroup _ r' => first_is b r'
  | _ => false
  end.

Definition backslash_free (v : jsstring) : bool :=
  forallb (fun c => negb (cu_eqb c (ch "\"))) v.

(** The escape sequence that [unescapeEscapedCharacters] reads back as the
    code unit [c]: the entries of its table, and two backslashes for a
    backslash. *)
Definition escape_letter (c : N) : option N :=
  if cu_eqb c 0 then Some (ch "0")
  else if cu_eqb c (ch "'") then Some (ch "'")
  else if cu_eqb c 34 then Some 34%N
  else if cu_eqb c (ch "\") then Some (ch "\")
  else if cu_eqb c 10 then Some (ch "n")
  else if cu_eqb c 13 then Some (ch "r")
  else if cu_eqb c 11 then Some (ch "v")
  else if cu_eqb c 9 then Some (ch "t")
  else if cu_eqb c 8 then Some (ch "b")
  else if cu_eqb c 12 then Some (ch "f")
  else None.

Definition escape_unit (c : N) : jsstring :=
  match escape_letter c with
  | Some x => [ch "\"; x]
  | None => [c]
  end.

Definition escape_text (v : jsstring) : jsstring := flat_map escape_unit v.

(** The captures after a match of two code units at [pos]: by the table
    group, or by the any-character group. *)
Definition table_caps (pos : nat) : list (option (nat * nat)) :=
  [Some (pos, S (S pos)); None; None; None; None].

Definition any_caps (pos : nat) : list (option (nat * nat)) :=
  [None; None; None; None; Some (S pos, S (S pos))].

Definition escape_caps (x : N) (pos : nat) : list (option (nat * nat)) :=
  if cu_eqb x (ch "\") then any_caps pos else table_caps pos.

(** Stand-ins for the platform and the host, to run the pipeline on
    concrete items: casing, entities and URI functions that leave the text
    as it is, the string limit of 64-bit V8, and attachments that hold
    their bytes unencoded. *)
Definition plain_primitives : TextPrimitives :=
  {| decodeURI := Ok; decodeURIComponent := Ok; encodeURI := Ok; encodeURIComponent := Ok;
     decodeXML := id; decodeXMLStrict := id; decodeHTML := id; decodeHTMLStrict := id;
     encodeXML := id; encodeHTML := id; escapeUTF8 := id; encodeNonAsciiHTML := id;
     camelCase := id; capitalize := id; kebabCase := id; snakeCase := id; startCase := id;
     toUpperCase := id; toLowerCase := id;
     toLocaleUpperCase := fun s _ => Ok s; toLocaleLowerCase := fun s _ => Ok s;
     normalize := fun _ s => s; stripHtml := fun _ _ s => s;
     maxStringLength := 536870888 |}.

Definition plain_binary : BinaryHelpers :=
  {| base64_decode := id;
     prepareBinaryData := fun buf fileName mimeType =>
       [(js "data", VString buf); (js "fileName", VString fileName);
        (js "mimeType", VString mimeType)] |}.

(** Two stand-ins for the functions of the data: functions that do nothing
    and return [undefined], and methods that return the object they are
    called on ([function () { return this; }]). *)
Definition no_methods : Functions :=
  {| call_function := fun _ _ h => (h, VUndefined) |}.

Definition returns_this : Functions :=
  {| call_function := fun _ this h => (h, this) |}.

(** Three inputs of the run over the items: the groups that write the
    text ["new"] to the key [data]; a store of plain data, the item
    [{data: "raw", more: {n: 1}}]; and a store whose item has a method,
    [{toJSON() {...}, data: "raw"}] with the function at location 1. *)
Definition overwrite_data : list textsWithManipulationsValues :=
  [mkGroup [mkDataSource (FromText (js "new")) (ToJSON (js "data"))] []].

Definition nested_item : store :=
  [[(js "data", VString (js "raw")); (js "more", VObject 1)]; [(js "n", VNumber 1)]].

Definition self_serializing_item : store :=
  [[(js "toJSON", VFunction 1); (js "data", VString (js "raw"))]; []].

(** A result that is not a [NodeOperationError]: what the built-ins and
    the libraries return. *)
Definition foreign {A : Type} (r : result A) : Prop :=
  forall message j, r <> Err (NodeOperationError message j).

(** The built-ins and libraries throw their own exceptions, never the
    node's. *)
Definition libraries_are_foreign `{IconvCodecs} `{TextPrimitives} : Prop :=
  (forall enc, foreign (getCodec enc))
  /\ (forall enc o b, foreign (codec_decoder enc o b))
  /\ (forall enc o s, foreign (codec_encoder enc o s))
  /\ (forall s, foreign (decodeURI s)) /\ (forall s, foreign (decodeURIComponent s))
  /\ (forall s, foreign (encodeURI s)) /\ (forall s, foreign (encodeURIComponent s))
  /\ (forall s l, foreign (toLocaleUpperCase s l))
  /\ (forall s l, foreign (toLocaleLowerCase s l)).

(** A failure, if it is the node's own, names the item [i]. *)
Definition attributed {A : Type} (i : nat) (r : result A) : Prop :=
  forall message j, r = Err (NodeOperationError message j) -> j = i.

Definition bracket_free (path : jsstring) : bool :=
  forallb (fun c => negb (cu_eqb c (ch "[") || cu_eqb c (ch "]"))) path.

Definition safe_keys (keys : list jsstring) : bool := forallb (fun k => negb (unsafe_key k)) keys.

(** The value under [key] is not an object (a function is one):
    [baseSet] creates the container it descends into. *)
Definition unbound (h : store) (l : nat) (key : jsstring) : Prop :=
  forall l', obj_get (obj_of h l) key <> VObject l'
             /\ obj_get (obj_of h l) key <> VFunction l'.

(** The option values that each [switch] of the node accepts. *)
Definition caseTypes : list string :=
  ["camelCase"; "capitalize"; "titlecase"; "kebabCase"; "snakeCase"; "startCase";
   "upperCase"; "lowerCase"; "localeUpperCase"; "localeLowerCase"]%string.

Definition replaceModes : list string :=
  ["substring"; "extendedSubstring"; "regex"; "predefinedRule"]%string.

Definition entityCodings : list string := ["url"; "urlComponent"; "xml"; "html"; "nothing"]%string.

(** A numeric parameter that is missing or negative. *)
Definition unset_or_negative (n : option Z) : Prop :=
  match n with
  | None => True
  | Some z => z < 0
  end.

(** The code units of the enabled character groups (the newline group
    apart). *)
Definition group_unit (p : replaceParams) (c : N) : bool :=
  ((rp_number p && is_digit c) || (rp_alpha p && is_ascii_letter c)
   || (rp_whitespace p && isWhiteSpace c))%bool.

(** The counts as the node's description sets them: one to one. *)
Definition default_counts (p : replaceParams) : Prop :=
  numberMin p = 1 /\ numberMax p = 1 /\ alphaMin p = 1 /\ alphaMax p = 1
  /\ whitespaceMin p = 1 /\ whitespaceMax p = 1.

(** Every line break replaced by [new]: a carriage return with the line
    feed after it counts as one. *)
Fixpoint replace_newlines (new s : jsstring) : jsstring :=
  match s with
  | [] => []
  | c :: s' =>
      if cu_eqb c 13 then
        new ++ match s' with
               | d :: s'' =>
                   if cu_eqb d 10 then replace_newlines new s'' else replace_newlines new s'
               | [] => []
               end
      else if cu_eqb c 10 then new ++ replace_newlines new s'
      else c :: replace_newlines new s'
  end.

(** The expression of the newline group with the counts one to one. *)
Definition newline_re : RegExp :=
  mkRegExp
    (RRepeat (RGroup 1 (RAlt (RSeq (RChar 13) (RChar 10)) (RAlt (RChar 13) (RChar 10))))
       1 (Some 1%nat) true)
    1 global_flags.

(** * Properties *)

(** ** Basic facts about code units and strings *)

Lemma cu_eqb_eq a b : cu_eqb a b = true <-> a = b.
Proof. unfold cu_eqb. apply N.eqb_eq. Qed.

Lemma cu_eqb_refl a : cu_eqb a a = true.
Proof. apply cu_eqb_eq. reflexivity. Qed.

Lemma js_eqb_eq a b : js_eqb a b = true <-> a = b.
Proof.
  revert b. induction a as [|x a IH]; intros [|y b]; simpl; split; try congruence; try done.
  - intros Hxy. apply andb_true_iff in Hxy as [Hx Hab].
    apply cu_eqb_eq in Hx. apply IH in Hab. congruence.
  - intros [= -> ->]. rewrite cu_eqb_refl. simpl. apply IH. reflexivity.
Qed.

Lemma js_app (a b : string) : js (a ++ b)%string = js a ++ js b.
Proof.
  unfold js. induction a as [|c a IH]; simpl; [reflexivity|].
  f_equal. exact IH.
Qed.

(** ** Substring *)

Lemma js_substring_negative_start (s : jsstring) (start : Z) (e : option Z) :
  start < 0 -> js_substring s start e = js_substring s 0 e.
Proof.
  intros Hneg. unfold js_substring, clamp.
  replace (Z.max start 0) with 0 by lia.
  reflexivity.
Qed.

(** C2. On ["HelloWorld"], Substring(start=-3, end=length, length=2) does
    not select ["rl"]: [String.prototype.substring] treats the negative
    start as 0, so the code returns ["HelloWorl"], while
    Substring(start=7, end=position, endPosition=9) returns ["rl"]. *)
Theorem substring_negative_start_is_clamped (itemIndex : nat) :
  substring_case itemIndex (-3) "length" 1 (Some 2) (js "HelloWorld")
    = Ok (js "HelloWorl")
  /\ substring_case itemIndex 7 "position" 9 None (js "HelloWorld") = Ok (js "rl").
Proof. split; reflexivity. Qed.

(** ** Normalize *)

Lemma normalize_case_default
    (normalize : string -> jsstring -> jsstring) (normalizeForm : string) (text : jsstring) :
  ~ In normalizeForm ["nfc"; "nfd"; "nfkc"; "nfkd"]%string ->
  normalize_case normalize normalizeForm text = Ok text.
Proof.
  intros Hnot. unfold normalize_case.
  repeat match goal with
  | |- context [String.eqb normalizeForm ?s] =>
      destruct (String.eqb_spec normalizeForm s) as [->|_];
      [exfalso; apply Hnot; simpl; tauto|]
  end.
  reflexivity.
Qed.

Lemma normalize_case_known
    (normalize : string -> jsstring -> jsstring) (text : jsstring) :
  normalize_case normalize "nfc" text = Ok (normalize "NFC"%string text)
  /\ normalize_case normalize "nfd" text = Ok (normalize "NFD"%string text)
  /\ normalize_case normalize "nfkc" text = Ok (normalize "NFKC"%string text)
  /\ normalize_case normalize "nfkd" text = Ok (normalize "NFKD"%string text).
Proof. repeat split; reflexivity. Qed.

(** C3. A normalize form outside [nfc], [nfd], [nfkc], [nfkd] raises
    nothing: the [switch] has no [default:] branch, and the operation
    returns the text unchanged instead of an error for the item. *)
Theorem normalize_unknown_form_is_silent
    (normalize : string -> jsstring -> jsstring) (normalizeForm : string) (text : jsstring)
    (itemIndex : nat) :
  ~ In normalizeForm ["nfc"; "nfd"; "nfkc"; "nfkd"]%string ->
  normalize_case normalize normalizeForm text = Ok text
  /\ forall message, normalize_case normalize normalizeForm text
                     <> Err (NodeOperationError message itemIndex).
Proof.
  intros Hnot. rewrite (normalize_case_default normalize normalizeForm text Hnot).
  split; [reflexivity | discriminate].
Qed.

Lemma normalize_unknown_form_is_silent_witness :
  ~ In "nfx"%string ["nfc"; "nfd"; "nfkc"; "nfkd"]%string
  /\ normalize_case (fun _ s => s) "nfx" (js "a") = Ok (js "a").
Proof.
  assert (Hnot : ~ In "nfx"%string ["nfc"; "nfd"; "nfkc"; "nfkd"]%string).
  { simpl. intros [H|[H|[H|[H|[]]]]]; discriminate H. }
  split; [exact Hnot|].
  apply (normalize_unknown_form_is_silent (fun _ s => s) "nfx" (js "a") 0%nat Hnot).
Defined.

Lemma apply_normalize_unknown_form `{IconvCodecs} `{TextPrimitives}
    (itemIndex : nat) (normalizeForm : string) (text : jsstring) :
  ~ In normalizeForm ["nfc"; "nfd"; "nfkc"; "nfkd"]%string ->
  apply itemIndex text (Normalize normalizeForm) = Ok text.
Proof. intros Hnot. simpl. by apply normalize_case_default. Qed.

(** ** Pad *)

(** C9. Pad(padStart, 5, " ") on ["ab"] yields ["   ab"], and a target
    length of -1 fails with the invalid-parameter error whatever the pad
    direction, the fill string and the text are. *)
Theorem pad_example_and_negative_target (itemIndex : nat) :
  pad_case itemIndex "padStart" (Some 5) (js " ") (js "ab") = Ok (js "   ab")
  /\ length (js "   ab") = 5%nat
  /\ forall (pad : string) (padString text : jsstring),
       exists e, pad_case itemIndex pad (Some (-1)) padString text = Err e
                 /\ e = NodeOperationError
                          "The Target Length has to be set to at least 0 or higher!" itemIndex
                 /\ kind_of e = InvalidParameterError.
Proof.
  split; [reflexivity|]. split; [reflexivity|].
  intros pad padString text. eexists. split; [reflexivity|]. split; reflexivity.
Qed.

Lemma pad_negative_target (itemIndex : nat) (pad : string) (targetLength : Z)
    (padString text : jsstring) :
  targetLength < 0 ->
  pad_case itemIndex pad (Some targetLength) padString text
    = Err (NodeOperationError "The Target Length has to be set to at least 0 or higher!"
             itemIndex).
Proof.
  intros Hneg. unfold pad_case.
  destruct (Z.ltb_spec targetLength 0); [reflexivity | lia].
Qed.

(** ** DecodeEncode *)

(** With codecs that do not read the options themselves, the two
    configured options have no effect at all on the code's result. *)
Lemma decodeEncode_ignores_configured_options
    (decodeWith encodeWith : string) (addBOM stripBOM addBOM' stripBOM' : option bool)
    (text : jsstring) :
  @decodeEncode_case internal_codecs decodeWith encodeWith addBOM stripBOM text
  = @decodeEncode_case internal_codecs decodeWith encodeWith addBOM' stripBOM' text.
Proof. reflexivity. Qed.

(** C1. The code hands [addBOM] to the decoder and [stripBOM] to the
    encoder, where neither is read: with decode=binary, encode=utf8 and
    addBOM set, ["A"] stays ["A"] although the documented behaviour prepends
    the byte-order mark; with decode=utf8, encode=binary and stripBOM
    cleared, the mark is stripped although it was asked to be kept. *)
Theorem decodeEncode_bom_options_are_swapped :
  @decodeEncode_case internal_codecs "binary" "utf8" (Some true) None (js "A")
    = Ok (js "A")
  /\ @decodeEncode_documented internal_codecs "binary" "utf8" (Some true) None (js "A")
    = Ok (BOMChar :: js "A")
  /\ @decodeEncode_case internal_codecs "utf8" "binary" None (Some false) (BOMChar :: js "A")
    = Ok (js "A")
  /\ @decodeEncode_documented internal_codecs "utf8" "binary" None (Some false)
       (BOMChar :: js "A")
    = Ok [65533%N; ch "A"].
Proof. repeat split; vm_compute; reflexivity. Qed.

(** ** buildRegexGroup *)

Lemma tail_mul_10 (n : nat) : Nat.tail_mul 10 n = (10 * n)%nat.
Proof. apply Nat.tail_mul_spec. Qed.

Lemma parse_nat_acc_digit (c : N) (rest : jsstring) (acc : nat) :
  is_digit c = true ->
  parse_nat_acc (c :: rest) acc = parse_nat_acc rest (10 * acc + digit_val c)%nat.
Proof. intros Hc. simpl. rewrite Hc. reflexivity. Qed.

Lemma js_cons (c : ascii) (s : string) : js (String c s) = N_of_ascii c :: js s.
Proof. reflexivity. Qed.

Ltac numeral_step IH :=
  simpl NilEmpty.string_of_uint; rewrite js_cons, <- app_comm_cons;
  rewrite parse_nat_acc_digit by reflexivity;
  rewrite IH; simpl Nat.of_uint_acc; rewrite tail_mul_10;
  f_equal; f_equal;
  match goal with
  | |- context [digit_val ?c] =>
      let v := eval vm_compute in (digit_val c) in change (digit_val c) with v
  end; lia.

Lemma parse_nat_acc_numeral (d : Decimal.uint) (rest : jsstring) (acc : nat) :
  starts_with_digit rest = false ->
  parse_nat_acc (js (NilEmpty.string_of_uint d) ++ rest) acc = (Nat.of_uint_acc d acc, rest).
Proof.
  intros Hrest. revert acc.
  induction d as [|d IH|d IH|d IH|d IH|d IH|d IH|d IH|d IH|d IH|d IH]; intros acc;
    try numeral_step IH.
  simpl. destruct rest as [|c rest]; [reflexivity|].
  simpl in Hrest. simpl. rewrite Hrest. reflexivity.
Qed.

Lemma to_uint_not_nil (n : nat) : Nat.to_uint n <> Decimal.Nil.
Proof.
  intros Hnil.
  assert (Hn : n = 0%nat).
  { rewrite <- (DecimalNat.Unsigned.of_to n), Hnil. reflexivity. }
  subst n. discriminate Hnil.
Qed.

Lemma numeral_head_is_digit (d : Decimal.uint) (rest : jsstring) :
  d <> Decimal.Nil ->
  exists c s, js (NilEmpty.string_of_uint d) ++ rest = c :: s /\ is_digit c = true.
Proof.
  destruct d; intros Hd; try congruence; simpl; eexists _, _; split; try reflexivity.
Qed.

Lemma number_to_js_nonneg (n : Z) :
  0 <= n -> number_to_js n = js (NilEmpty.string_of_uint (Nat.to_uint (Z.to_nat n))).
Proof.
  intros Hn. unfold number_to_js.
  assert (Hpos : match n with
                 | Zneg p => Decimal.Neg (Nat.to_uint (Pos.to_nat p))
                 | _ => Decimal.Pos (Nat.to_uint (Z.to_nat n))
                 end = Decimal.Pos (Nat.to_uint (Z.to_nat n))) by (destruct n; [reflexivity..|lia]).
  rewrite Hpos. unfold NilZero.string_of_int, NilZero.string_of_uint.
  destruct (Nat.to_uint (Z.to_nat n)) eqn:E;
    [exfalso; by apply (to_uint_not_nil (Z.to_nat n)) | reflexivity ..].
Qed.

(** Reading back a rendered count. *)
Lemma parse_digits_number (n : Z) (rest : jsstring) :
  0 <= n -> starts_with_digit rest = false ->
  parse_digits (number_to_js n ++ rest) = Some (Z.to_nat n, rest).
Proof.
  intros Hn Hrest. rewrite number_to_js_nonneg by exact Hn.
  destruct (numeral_head_is_digit (Nat.to_uint (Z.to_nat n)) rest (to_uint_not_nil _))
    as (c & s & Heq & Hc).
  unfold parse_digits. rewrite Heq, Hc, <- Heq.
  rewrite parse_nat_acc_numeral by exact Hrest.
  f_equal. f_equal.
  change (Nat.of_uint (Nat.to_uint (Z.to_nat n)) = Z.to_nat n).
  apply DecimalNat.Unsigned.of_to.
Qed.

Lemma parse_braced_exact (n : Z) :
  0 <= n ->
  parse_braced (js "{" ++ number_to_js n ++ js "}")
    = Some (Some (Z.to_nat n, Some (Z.to_nat n), [])).
Proof.
  intros Hn.
  change (js "{" ++ number_to_js n ++ js "}") with (ch "{" :: number_to_js n ++ js "}").
  unfold parse_braced. cbv beta iota.
  rewrite cu_eqb_refl. cbv beta iota.
  rewrite parse_digits_number by (done || reflexivity).
  reflexivity.
Qed.

Lemma parse_braced_at_least (n : Z) :
  0 <= n ->
  parse_braced (js "{" ++ number_to_js n ++ js ",}") = Some (Some (Z.to_nat n, None, [])).
Proof.
  intros Hn.
  change (js "{" ++ number_to_js n ++ js ",}") with (ch "{" :: number_to_js n ++ js ",}").
  unfold parse_braced. cbv beta iota.
  rewrite cu_eqb_refl. cbv beta iota.
  rewrite parse_digits_number by (done || reflexivity).
  reflexivity.
Qed.

Lemma parse_braced_between (n m : Z) :
  0 <= n -> n <= m ->
  parse_braced (js "{" ++ number_to_js n ++ js "," ++ number_to_js m ++ js "}")
    = Some (Some (Z.to_nat n, Some (Z.to_nat m), [])).
Proof.
  intros Hn Hm.
  assert (Hm0 : 0 <= m) by lia.
  change (js "{" ++ number_to_js n ++ js "," ++ number_to_js m ++ js "}")
    with (ch "{" :: number_to_js n ++ ch "," :: number_to_js m ++ js "}").
  unfold parse_braced. cbv beta iota.
  rewrite cu_eqb_refl. cbv beta iota.
  rewrite parse_digits_number by (done || reflexivity).
  cbv beta iota.
  change (cu_eqb (ch ",") (ch "}")) with false.
  rewrite cu_eqb_refl. cbv beta iota.
  rewrite (parse_digits_number m (js "}") Hm0 eq_refl).
  destruct (numeral_head_is_digit (Nat.to_uint (Z.to_nat m)) (js "}") (to_uint_not_nil _))
    as (c & s & Heq & Hc).
  rewrite (number_to_js_nonneg m Hm0), Heq.
  assert (Hbrace : cu_eqb c (ch "}") = false).
  { destruct (cu_eqb c (ch "}")) eqn:E; [|reflexivity].
    apply cu_eqb_eq in E. subst c. discriminate Hc. }
  rewrite Hbrace. cbv beta iota.
  change (js "}") with [ch "}"]. cbv beta iota. rewrite cu_eqb_refl.
  destruct (Nat.ltb_spec (Z.to_nat m) (Z.to_nat n)); [lia | reflexivity].
Qed.

Lemma parse_quantifier_braced (atom : regex) (q : jsstring) (mn : nat) (mx : option nat) :
  parse_braced q = Some (Some (mn, mx, [])) ->
  parse_quantifier atom q = Some (RRepeat atom mn mx true, []).
Proof.
  intros Hq. destruct q as [|c q]; [discriminate Hq|].
  unfold parse_quantifier.
  assert (Hc : c = ch "{").
  { unfold parse_braced in Hq. destruct (cu_eqb c (ch "{")) eqn:E; [|discriminate Hq].
    by apply cu_eqb_eq. }
  subst c. change (cu_eqb (ch "{") (ch "*")) with false.
  change (cu_eqb (ch "{") (ch "+")) with false.
  change (cu_eqb (ch "{") (ch "?")) with false. cbv iota.
  rewrite Hq. reflexivity.
Qed.

(** C4 (as the code has it). For whole counts that are not negative, in
    order and safe integers (so that the template literal renders their
    decimal numerals), [buildRegexGroup] appends to the class a quantifier
    that reads back as: zero or more when both counts are 0, exactly [max]
    when only [min] is 0, [min] or more when only [max] is 0, and [min] to
    [max] otherwise. *)
Theorem buildRegexGroup_repetition (base : jsstring) (atom : regex) (min max : Z) :
  0 <= min <= MAX_SAFE_INTEGER -> 0 <= max <= MAX_SAFE_INTEGER ->
  (max = 0 \/ min <= max) ->
  exists q,
    buildRegexGroup base min max = base ++ q
    /\ q = (if min =? 0
            then (if max =? 0 then js "*" else js "{" ++ number_to_js max ++ js "}")
            else (if max =? 0 then js "{" ++ number_to_js min ++ js ",}"
                  else js "{" ++ number_to_js min ++ js "," ++ number_to_js max ++ js "}"))
    /\ parse_quantifier atom q
       = Some (RRepeat atom (fst (repetition min max)) (snd (repetition min max)) true, []).
Proof.
  intros Hmin Hmax Horder. unfold buildRegexGroup, repetition.
  destruct (Z.eqb_spec min 0) as [->|Hmin0]; destruct (Z.eqb_spec max 0) as [->|Hmax0];
    simpl negb; cbv iota; eexists; (split; [reflexivity|]); (split; [reflexivity|]); simpl fst; simpl snd.
  - reflexivity.
  - apply parse_quantifier_braced, parse_braced_exact; lia.
  - apply parse_quantifier_braced, parse_braced_at_least; lia.
  - apply parse_quantifier_braced, parse_braced_between; lia.
Qed.

Lemma buildRegexGroup_repetition_witness :
  exists q,
    buildRegexGroup (js "\d") 0 3 = js "\d" ++ q
    /\ q = js "{3}"
    /\ parse_quantifier (RClass false [CDigit false]) q
       = Some (RRepeat (RClass false [CDigit false]) 3 (Some 3%nat) true, []).
Proof.
  apply (buildRegexGroup_repetition (js "\d") (RClass false [CDigit false]) 0 3);
    unfold MAX_SAFE_INTEGER; lia.
Defined.

(** C4 (as stated) fails: with min = 0 and max = 3 the digit class gets
    [{3}], exactly three, not [*]. *)
Lemma buildRegexGroup_min0_not_star :
  buildRegexGroup (js "\d") 0 3 = js "\d{3}"
  /\ buildRegexGroup (js "\d") 0 3 <> js "\d*".
Proof. split; [reflexivity | discriminate]. Qed.

(** ** Trim with a single space *)

Lemma drop_while_split (p : N -> bool) (s : jsstring) :
  exists l, s = l ++ drop_while p s /\ Forall (fun c => p c = true) l.
Proof.
  induction s as [|c s IH]; simpl.
  - exists []. split; [reflexivity | constructor].
  - destruct (p c) eqn:Hc.
    + destruct IH as (l & Hs & Hl). exists (c :: l). split.
      * simpl. congruence.
      * constructor; assumption.
    + exists []. split; [reflexivity | constructor].
Qed.

Lemma drop_while_head (p : N -> bool) (s : jsstring) :
  match drop_while p s with
  | c :: _ => p c = false
  | [] => True
  end.
Proof.
  induction s as [|c s IH]; simpl; [exact I|].
  destruct (p c) eqn:Hc; [exact IH | exact Hc].
Qed.

Lemma drop_while_end_split (p : N -> bool) (s : jsstring) :
  exists r, s = drop_while_end p s ++ r /\ Forall (fun c => p c = true) r.
Proof.
  unfold drop_while_end.
  destruct (drop_while_split p (rev s)) as (l & Hs & Hl).
  exists (rev l). split.
  - rewrite <- rev_app_distr, <- Hs, rev_involutive. reflexivity.
  - by apply List.Forall_rev.
Qed.

Lemma js_trimStart_trimmed (s : jsstring) : trimmed_start (js_trimStart s).
Proof. apply drop_while_head. Qed.

Lemma js_trimEnd_trimmed (s : jsstring) : trimmed_end (js_trimEnd s).
Proof.
  unfold trimmed_end, js_trimEnd, drop_while_end. rewrite rev_involutive.
  apply drop_while_head.
Qed.

Lemma trimmed_start_prefix (a b : jsstring) :
  trimmed_start (a ++ b) -> trimmed_start a.
Proof. destruct a; simpl; [intros; exact I | intros Hh; exact Hh]. Qed.

(** C7 (as the code has it). With the as-unit algorithm and a trim string
    that is exactly one space, the result is the text without the white
    space (of any kind) at the affected end or ends. *)
Theorem trim_single_space_as_unit (itemIndex : nat) (text : jsstring) :
  (exists res l r,
     trim_case itemIndex "trimBoth" true (js " ") text = Ok res
     /\ text = l ++ res ++ r /\ all_white l /\ all_white r
     /\ trimmed_start res /\ trimmed_end res)
  /\ (exists res l,
     trim_case itemIndex "trimStart" true (js " ") text = Ok res
     /\ text = l ++ res /\ all_white l /\ trimmed_start res)
  /\ (exists res r,
     trim_case itemIndex "trimEnd" true (js " ") text = Ok res
     /\ text = res ++ r /\ all_white r /\ trimmed_end res).
Proof.
  split; [|split].
  - destruct (drop_while_split isWhiteSpace text) as (l & Hl & Hwl).
    destruct (drop_while_end_split isWhiteSpace (js_trimStart text)) as (r & Hr & Hwr).
    exists (js_trim text), l, r. split; [reflexivity|].
    split; [|split; [exact Hwl|split; [exact Hwr|split]]].
    + unfold js_trim, js_trimEnd. rewrite <- Hr. exact Hl.
    + apply (trimmed_start_prefix _ r). unfold js_trim, js_trimEnd. rewrite <- Hr.
      apply js_trimStart_trimmed.
    + apply js_trimEnd_trimmed.
  - destruct (drop_while_split isWhiteSpace text) as (l & Hl & Hwl).
    exists (js_trimStart text), l. split; [reflexivity|].
    split; [exact Hl|split; [exact Hwl|apply js_trimStart_trimmed]].
  - destruct (drop_while_end_split isWhiteSpace text) as (r & Hr & Hwr).
    exists (js_trimEnd text), r. split; [reflexivity|].
    split; [exact Hr|split; [exact Hwr|apply js_trimEnd_trimmed]].
Qed.

(** C7 (as stated) fails for the per-character algorithm: lodash's [trim]
    with the characters [" "] strips literal spaces only, so a leading tab
    stays, while white-space trimming removes it. *)
Lemma trim_single_space_per_character_keeps_tab :
  trim_case 0 "trimBoth" false (js " ") (9%N :: js "X ") = Ok (9%N :: js "X")
  /\ js_trim (9%N :: js "X ") = js "X"
  /\ trim_case 0 "trimBoth" false (js " ") (9%N :: js "X ") <> Ok (js_trim (9%N :: js "X ")).
Proof. split; [reflexivity|]. split; [reflexivity|]. vm_compute. discriminate. Qed.

(** ** Regex literals *)

Lemma literal_re_parsed : new_RegExp_js (Some literal_pattern) None = Ok literal_re.
Proof. vm_compute. reflexivity. Qed.

Lemma flag_class_has (c : N) :
  class_has no_flags false (map CChar (js "gimusy")) c = is_regex_flag c.
Proof.
  unfold class_has, is_regex_flag. simpl.
  rewrite !orb_false_r.
  unfold cu_eqb. rewrite !(N.eqb_sym c). reflexivity.
Qed.


Lemma eat_cons p k pos c rest prev caps :
  eat p k (mkState pos (c :: rest) prev caps)
  = if p c then k (mkState (S pos) rest (Some c) caps) else None.
Proof. reflexivity. Qed.

Lemma eat_nil p k pos prev caps : eat p k (mkState pos [] prev caps) = None.
Proof. reflexivity. Qed.

(** One round of a [min = 0], unbounded loop over an atom without groups. *)
Lemma repeat_loop_step iter greedy fuel k pos rest prev caps :
  repeat_loop iter [] greedy (S fuel) 0 None k (mkState pos rest prev caps)
  = let st := mkState pos rest prev caps in
    let d := fun st' =>
      if Nat.eqb (m_pos st') pos then None
      else repeat_loop iter [] greedy fuel 0 None k st' in
    if greedy then
      match iter d st with Some z => Some z | None => k st end
    else
      match k st with Some z => Some z | None => iter d st end.
Proof. reflexivity. Qed.

Lemma rmatch_any fl k st :
  rmatch fl RAny k st = eat (fun x => (f_dotAll fl || negb (isLineTerminator x))%bool) k st.
Proof. reflexivity. Qed.

Lemma rmatch_class fl neg items k st :
  rmatch fl (RClass neg items) k st = eat (class_has fl neg items) k st.
Proof. reflexivity. Qed.

Lemma succ_neqb (n : nat) : Nat.eqb (S n) n = false.
Proof. apply Nat.eqb_neq. lia. Qed.

(** The greedy loop over the flags, followed by the end-of-input assertion. *)
Lemma flags_loop (start : nat) (rest : jsstring) :
  forall (fuel pos : nat) (prev : option N) (caps : list (option (nat * nat))),
  (length rest < fuel)%nat ->
  exists prev',
  repeat_loop (rmatch no_flags flag_class) [] true fuel 0 None
    (fun st' => rmatch no_flags REol Some
                  (with_caps st' (<[1%nat := Some (start, m_pos st')]> (m_caps st'))))
    (mkState pos rest prev caps)
  = if forallb is_regex_flag rest
    then Some (mkState (pos + length rest) [] prev'
                 (<[1%nat := Some (start, (pos + length rest)%nat)]> caps))
    else None.
Proof.
  induction rest as [|c rest IH]; intros fuel pos prev caps Hfuel;
    (destruct fuel as [|fuel]; [simpl in Hfuel; lia|]).
  - exists prev. simpl. rewrite Nat.add_0_r. reflexivity.
  - simpl in Hfuel.
    destruct (IH fuel (S pos) (Some c) caps ltac:(lia)) as [prev' IH'].
    exists prev'.
    rewrite repeat_loop_step. cbv zeta.
    unfold flag_class at 1. rewrite rmatch_class, eat_cons, flag_class_has. cbn [forallb].
    destruct (is_regex_flag c) eqn:Hc; cbn [andb].
    + cbn [m_pos]. rewrite succ_neqb, IH'.
      destruct (forallb is_regex_flag rest) eqn:Hall.
      * cbn [length]. replace (S pos + length rest)%nat with (pos + S (length rest))%nat by lia.
        reflexivity.
      * reflexivity.
    + reflexivity.
Qed.


Lemma literal_body_acc (acc rest : jsstring) :
  literal_body acc rest
  = option_map (fun bf => (rev acc ++ fst bf, snd bf)) (literal_body [] rest).
Proof.
  revert acc. induction rest as [|c rest IH]; intros acc; cbn [literal_body]; [reflexivity|].
  destruct (cu_eqb c (ch "/") && forallb is_regex_flag rest)%bool.
  - cbn [option_map fst snd rev]. rewrite app_nil_r. reflexivity.
  - destruct (isLineTerminator c); [reflexivity|].
    rewrite (IH (c :: acc)), (IH [c]).
    destruct (literal_body [] rest) as [[b f]|]; cbn [option_map fst snd rev]; [|reflexivity].
    rewrite <- !app_assoc. reflexivity.
Qed.

Lemma flags_group (pos : nat) (rest : jsstring) (prev : option N)
    (caps : list (option (nat * nat))) :
  exists prev',
  rmatch no_flags (RSeq (RGroup 2 (RRepeat flag_class 0 None true)) REol) Some
    (mkState pos rest prev caps)
  = if forallb is_regex_flag rest
    then Some (mkState (pos + length rest) [] prev'
                 (<[1%nat := Some (pos, (pos + length rest)%nat)]> caps))
    else None.
Proof.
  destruct (flags_loop pos rest (0 + length rest + 1) pos prev caps ltac:(lia))
    as [prev' Hloop].
  exists prev'. exact Hloop.
Qed.

(** The continuation of group 1 at a state: a slash, then flags to the end. *)
Lemma group1_k_spec pos rest prev :
  exists prev',
  group1_k (mkState pos rest prev [None; None])
  = match rest with
    | c :: rest' =>
        if (cu_eqb c (ch "/") && forallb is_regex_flag rest')%bool
        then Some (mkState (pos + 1 + length rest') [] prev'
                     [Some (1%nat, pos); Some ((pos + 1)%nat, (pos + 1 + length rest')%nat)])
        else None
    | [] => None
    end.
Proof.
  destruct rest as [|c rest']; [exists None; reflexivity|].
  destruct (flags_group (S pos) rest' (Some c) [Some (1%nat, pos); None]) as [prev' Hloop].
  exists prev'.
  change (group1_k (mkState pos (c :: rest') prev [None; None]))
    with (if cu_eqb c (ch "/")
          then rmatch no_flags (RSeq (RGroup 2 (RRepeat flag_class 0 None true)) REol) Some
                 (mkState (S pos) rest' (Some c) [Some (1%nat, pos); None])
          else None).
  destruct (cu_eqb c (ch "/")); cbn [andb]; [|reflexivity].
  rewrite Hloop.
  destruct (forallb is_regex_flag rest'); [|reflexivity].
  replace (S pos + length rest')%nat with (pos + 1 + length rest')%nat by lia.
  replace (S pos) with (pos + 1)%nat by lia.
  reflexivity.
Qed.

Lemma lazy_loop (rest : jsstring) :
  forall (fuel pos : nat) (prev : option N),
  (length rest < fuel)%nat ->
  match literal_body [] rest with
  | Some (body, fl) =>
      exists prev',
      repeat_loop (rmatch no_flags RAny) [] false fuel 0 None group1_k
        (mkState pos rest prev [None; None])
      = Some (mkState (pos + length body + 1 + length fl) [] prev'
                [Some (1%nat, (pos + length body)%nat);
                 Some ((pos + length body + 1)%nat, (pos + length body + 1 + length fl)%nat)])
  | None =>
      repeat_loop (rmatch no_flags RAny) [] false fuel 0 None group1_k
        (mkState pos rest prev [None; None]) = None
  end.
Proof.
  induction rest as [|c rest IH]; intros fuel pos prev Hfuel;
    (destruct fuel as [|fuel]; [simpl in Hfuel; lia|]).
  - reflexivity.
  - simpl in Hfuel.
    cbn [literal_body].
    rewrite repeat_loop_step. cbv zeta.
    destruct (group1_k_spec pos (c :: rest) prev) as [prev1 Hk]. rewrite Hk.
    destruct (cu_eqb c (ch "/") && forallb is_regex_flag rest)%bool eqn:Hslash.
    + exists prev1. cbn [length]. rewrite Nat.add_0_r. reflexivity.
    + rewrite rmatch_any, eat_cons. cbn [no_flags f_dotAll orb].
      destruct (isLineTerminator c); cbn [negb]; [reflexivity|].
      cbn [m_pos]. rewrite succ_neqb.
      specialize (IH fuel (S pos) (Some c) ltac:(lia)).
      rewrite (literal_body_acc [c]).
      destruct (literal_body [] rest) as [[b f]|]; cbn [option_map fst snd].
      * destruct IH as [prev' IH]. exists prev'. rewrite IH.
        cbn [rev app length].
        replace (pos + S (length b))%nat with (S pos + length b)%nat by lia.
        reflexivity.
      * exact IH.
Qed.

Lemma forallb_Forall_true (p : N -> bool) (l : jsstring) :
  forallb p l = true <-> Forall (fun c => p c = true) l.
Proof.
  induction l as [|c l IH]; simpl.
  - split; [constructor | reflexivity].
  - rewrite andb_true_iff, IH. split.
    + intros [Hc Hl]. by constructor.
    + intros Hcl. inversion Hcl; subst. by split.
Qed.

Lemma literal_body_sound (rest body fl : jsstring) :
  literal_body [] rest = Some (body, fl) ->
  rest = body ++ ch "/" :: fl
  /\ Forall (fun c => isLineTerminator c = false) body
  /\ Forall (fun c => is_regex_flag c = true) fl.
Proof.
  revert body. induction rest as [|c rest IH]; intros body; cbn [literal_body]; [discriminate|].
  destruct (cu_eqb c (ch "/") && forallb is_regex_flag rest)%bool eqn:Hslash.
  - intros [= <- <-]. apply andb_true_iff in Hslash as [Hc Hfl].
    apply cu_eqb_eq in Hc. subst c. split; [reflexivity|]. split; [constructor|].
    by apply forallb_Forall_true.
  - destruct (isLineTerminator c) eqn:Hlt; [discriminate|].
    rewrite (literal_body_acc [c]).
    destruct (literal_body [] rest) as [[b f]|] eqn:Hrest; [|discriminate].
    cbn [option_map fst snd rev app]. intros [= <- <-].
    destruct (IH b eq_refl) as (-> & Hb & Hf).
    split; [reflexivity|]. split; [constructor; assumption | exact Hf].
Qed.

Lemma flag_is_not_slash (c : N) : is_regex_flag c = true -> cu_eqb c (ch "/") = false.
Proof.
  intros Hc. destruct (cu_eqb c (ch "/")) eqn:E; [|reflexivity].
  apply cu_eqb_eq in E. subst c. discriminate Hc.
Qed.

Lemma literal_body_complete (body fl : jsstring) :
  Forall (fun c => isLineTerminator c = false) body ->
  Forall (fun c => is_regex_flag c = true) fl ->
  literal_body [] (body ++ ch "/" :: fl) = Some (body, fl).
Proof.
  intros Hbody Hfl.
  assert (Hall : forallb is_regex_flag fl = true).
  { by apply forallb_Forall_true. }
  induction Hbody as [|c body Hc Hbody IH]; cbn [app literal_body].
  - rewrite cu_eqb_refl, Hall. reflexivity.
  - assert (Hno : (cu_eqb c (ch "/") && forallb is_regex_flag (body ++ ch "/" :: fl))%bool = false).
    { destruct (cu_eqb c (ch "/")); [|reflexivity]. cbn [andb].
      rewrite forallb_app. cbn [forallb]. change (is_regex_flag (ch "/")) with false.
      cbn [andb]. apply andb_false_r. }
    rewrite Hno, Hc, (literal_body_acc [c]), IH. reflexivity.
Qed.

Lemma literal_scan_later (rest : jsstring) :
  forall (pos : nat) (c : N), scan literal_re pos (Some c) rest = None.
Proof.
  induction rest as [|x rest IH]; intros pos c; [reflexivity|].
  cbn [scan]. change (try_at literal_re pos (Some c) (x :: rest)) with (@None mstate).
  cbn [literal_re re_flags no_flags f_sticky]. apply IH.
Qed.

Lemma slice_whole (s : jsstring) : slice s 0 (length s) = s.
Proof. unfold slice. rewrite Nat.sub_0_r, drop_0. apply firstn_all. Qed.

Lemma slice_middle (a b c : jsstring) :
  slice (a ++ b ++ c) (length a) (length a + length b) = b.
Proof.
  unfold slice. rewrite drop_app_length.
  replace (length a + length b - length a)%nat with (length b) by lia.
  apply take_app_length.
Qed.

Lemma js_match_literal (regex : jsstring) :
  js_match literal_re regex
  = match literal_split regex with
    | Some (body, fl) => Some [Some regex; Some body; Some fl]
    | None => None
    end.
Proof.
  unfold js_match, regexp_exec, literal_split.
  destruct regex as [|c rest]; [reflexivity|].
  cbn [scan].
  change (try_at literal_re 0 None (c :: rest))
    with (if cu_eqb c (ch "/")
          then repeat_loop (rmatch no_flags RAny) [] false (0 + length rest + 1) 0 None group1_k
                 (mkState 1 rest (Some c) [None; None])
          else None).
  cbn [literal_re re_flags no_flags f_sticky].
  rewrite literal_scan_later.
  destruct (cu_eqb c (ch "/")) eqn:Hc; [|reflexivity].
  apply cu_eqb_eq in Hc. subst c.
  pose proof (lazy_loop rest (0 + length rest + 1) 1 (Some (ch "/")) ltac:(lia)) as Hloop.
  destruct (literal_body [] rest) as [[body fl]|] eqn:Hbody.
  - destruct Hloop as [prev' ->].
    destruct (literal_body_sound _ _ _ Hbody) as (-> & _ & _).
    cbn [m_pos m_caps mr_index mr_end mr_caps map capture_text].
    f_equal. f_equal; [|f_equal; [|f_equal]]; f_equal.
    + rewrite <- (slice_whole (ch "/" :: body ++ ch "/" :: fl)) at 2.
      f_equal. cbn [length]. rewrite length_app. cbn [length]. lia.
    + apply (slice_middle [ch "/"] body (ch "/" :: fl)).
    + replace (1 + length body + 1)%nat with (length ([ch "/"] ++ body ++ [ch "/"]))
        by (rewrite !length_app; cbn [length]; lia).
      replace (length ([ch "/"] ++ body ++ [ch "/"]) + length fl)%nat
        with (length ([ch "/"] ++ body ++ [ch "/"]) + length fl)%nat by reflexivity.
      pose proof (slice_middle ([ch "/"] ++ body ++ [ch "/"]) fl []) as Hs.
      rewrite app_nil_r in Hs. rewrite <- Hs at 3. f_equal.
      rewrite <- !app_assoc. reflexivity.
  - rewrite Hloop. reflexivity.
Qed.


Lemma replace_regex_split (extended : bool) (regex pattern text : jsstring) :
  replace_regex extended regex pattern text
  = match literal_split regex with
    | Some (body, fl) =>
        (re <- new_RegExp_js (Some body) (Some fl) ;;
         v <- replacement extended pattern ;;
         Ok (regexp_replace re text v))%result
    | None =>
        (re <- new_RegExp_js (Some regex) None ;;
         v <- replacement extended pattern ;;
         Ok (regexp_replace re text v))%result
    end.
Proof.
  unfold replace_regex. rewrite literal_re_parsed. cbn [bind].
  rewrite js_match_literal.
  destruct (literal_split regex) as [[body fl]|]; reflexivity.
Qed.

(** C5 (as the code has it). A pattern [/body/flags] whose body has no line
    terminator and whose flags are letters of [gimusy] is used as the
    RegExp [body] with [flags]; a pattern that is not of that form is used
    whole, with no flags; and Replace(regex, "/a(b)c/gi", "$1") on
    ["ABCxAbc"] yields ["Bxb"]: the second match captures the lower-case
    [b] of the text. *)
Theorem regex_literal_detection (extended : bool) (regex pattern text : jsstring) :
  (forall body fl : jsstring,
     regex = js "/" ++ body ++ js "/" ++ fl ->
     no_line_terminator body -> regex_flags fl ->
     replace_regex extended regex pattern text
     = (re <- new_RegExp_js (Some body) (Some fl) ;;
        v <- replacement extended pattern ;;
        Ok (regexp_replace re text v))%result)
  /\ ((forall body fl : jsstring,
         no_line_terminator body -> regex_flags fl ->
         regex <> js "/" ++ body ++ js "/" ++ fl) ->
      replace_regex extended regex pattern text
      = (re <- new_RegExp_js (Some regex) None ;;
         v <- replacement extended pattern ;;
         Ok (regexp_replace re text v))%result)
  /\ replace_regex false (js "/a(b)c/gi") (js "$1") (js "ABCxAbc") = Ok (js "Bxb").
Proof.
  split; [|split].
  - intros body fl -> Hbody Hfl. rewrite replace_regex_split.
    change (js "/" ++ body ++ js "/" ++ fl) with (ch "/" :: (body ++ ch "/" :: fl)).
    unfold literal_split. rewrite cu_eqb_refl.
    rewrite (literal_body_complete body fl Hbody Hfl). reflexivity.
  - intros Hnot. rewrite replace_regex_split.
    destruct (literal_split regex) as [[body fl]|] eqn:Hsplit; [|reflexivity].
    exfalso. unfold literal_split in Hsplit.
    destruct regex as [|c rest]; [discriminate|].
    destruct (cu_eqb c (ch "/")) eqn:Hc; [|discriminate].
    apply cu_eqb_eq in Hc. subst c.
    destruct (literal_body_sound _ _ _ Hsplit) as (-> & Hbody & Hfl).
    by apply (Hnot body fl Hbody Hfl).
  - vm_compute. reflexivity.
Qed.

(** C5 (as stated) fails: the example does not yield ["BxB"]. *)
Lemma regex_example_is_not_BxB :
  replace_regex false (js "/a(b)c/gi") (js "$1") (js "ABCxAbc") <> Ok (js "BxB").
Proof. vm_compute. discriminate. Qed.

(** ** As-unit trim

    [charsTrimStart], [charsTrimEnd] and [charsTrim] build a regular
    expression from the escaped trim string and replace its matches by the
    empty string. The development follows the code: the pattern is parsed,
    the matcher is run on the parsed expression, and the global replace
    loop is followed to its end. *)

(** *** The matcher on a literal *)

Lemma cu_eqb_sym a b : cu_eqb a b = cu_eqb b a.
Proof. unfold cu_eqb. apply N.eqb_sym. Qed.

Lemma rmatch_char fl c k st :
  rmatch fl (RChar c) k st
  = eat (fun x => cu_eqb (canonicalize fl x) (canonicalize fl c)) k st.
Proof. reflexivity. Qed.

Lemma rmatch_seq fl r1 r2 k st :
  rmatch fl (RSeq r1 r2) k st = rmatch fl r1 (rmatch fl r2 k) st.
Proof. reflexivity. Qed.

Lemma rmatch_group fl idx r k st :
  rmatch fl (RGroup idx r) k st
  = rmatch fl r
      (fun st' => k (with_caps st' (<[pred idx := Some (m_pos st, m_pos st')]> (m_caps st'))))
      st.
Proof. reflexivity. Qed.

Lemma last_prev_cons prev c cs : last_prev prev (c :: cs) = last_prev (Some c) cs.
Proof. reflexivity. Qed.

Lemma last_prev_some prev chars :
  chars <> [] -> exists x, last_prev prev chars = Some x.
Proof.
  destruct chars as [|c cs]; [congruence|]. intros _. rewrite last_prev_cons.
  revert c. induction cs as [|d cs IH]; intros c; [by exists c|].
  rewrite last_prev_cons. apply IH.
Qed.

Lemma is_prefix_cons x p y s : is_prefix (x :: p) (y :: s) = (cu_eqb x y && is_prefix p s)%bool.
Proof. reflexivity. Qed.

(** Without [i], a literal matches exactly when it is a prefix of the rest. *)
Lemma rmatch_lit (fl : flags) (chars : jsstring) :
  f_ignoreCase fl = false ->
  forall k pos rest prev caps,
  rmatch fl (lit chars) k (mkState pos rest prev caps)
  = if is_prefix chars rest
    then k (mkState (pos + length chars) (drop (length chars) rest) (last_prev prev chars) caps)
    else None.
Proof.
  intros Hcase.
  assert (Hone : forall c k pos rest prev caps,
    rmatch fl (RChar c) k (mkState pos rest prev caps)
    = match rest with
      | x :: rest' => if cu_eqb c x then k (mkState (S pos) rest' (Some x) caps) else None
      | [] => None
      end).
  { intros c k pos rest prev caps. rewrite rmatch_char.
    destruct rest as [|x rest']; [reflexivity|]. cbn [eat m_rest m_pos m_caps].
    unfold canonicalize. rewrite Hcase, cu_eqb_sym. reflexivity. }
  induction chars as [|c cs IH]; intros k pos rest prev caps.
  - cbn [lit rmatch is_prefix length drop last_prev fold_left]. by rewrite Nat.add_0_r.
  - destruct cs as [|c' cs'].
    + cbn [lit]. rewrite Hone. destruct rest as [|x rest']; [reflexivity|].
      cbn [is_prefix length drop]. destruct (cu_eqb c x) eqn:Hc; [|reflexivity].
      apply cu_eqb_eq in Hc. subst x. cbn [andb last_prev fold_left].
      rewrite drop_0. by replace (pos + 1)%nat with (S pos) by lia.
    + change (lit (c :: c' :: cs')) with (RSeq (RChar c) (lit (c' :: cs'))).
      rewrite rmatch_seq, Hone. destruct rest as [|x rest']; [reflexivity|].
      rewrite is_prefix_cons. destruct (cu_eqb c x) eqn:Hc; [|reflexivity].
      apply cu_eqb_eq in Hc. subst x. cbn [andb].
      rewrite IH.
      destruct (is_prefix (c' :: cs') rest'); [|reflexivity].
      rewrite (last_prev_cons prev c).
      replace (S pos + length (c' :: cs'))%nat with (pos + length (c :: c' :: cs'))%nat
        by (cbn [length]; lia).
      reflexivity.
Qed.

Lemma groups_of_lit chars : groups_of (lit chars) = [].
Proof.
  induction chars as [|c cs IH]; [reflexivity|].
  destruct cs; [reflexivity|]. change (groups_of (RSeq (RChar c) (lit (n :: cs))) = []).
  cbn [groups_of]. exact IH.
Qed.

Lemma is_prefix_app (p s : jsstring) : is_prefix p s = true <-> exists r, s = p ++ r.
Proof.
  revert s. induction p as [|x p IH]; intros s; cbn [is_prefix].
  - split; [intros _; by exists s | done].
  - destruct s as [|y s]; [split; [discriminate | intros [r Hr]; discriminate Hr]|].
    rewrite andb_true_iff, cu_eqb_eq, IH. split.
    + intros [-> [r ->]]. by exists r.
    + intros [r [= -> ->]]. split; [reflexivity | by exists r].
Qed.

Lemma is_prefix_drop (p s : jsstring) :
  is_prefix p s = true -> s = p ++ drop (length p) s.
Proof.
  intros Hp. apply is_prefix_app in Hp as [r ->]. by rewrite drop_app_length.
Qed.

(** One unfolding of the greedy, unbounded RepeatMatcher. *)
Lemma repeat_loop_greedy_step iter gs fuel mn k pos rest prev caps :
  repeat_loop iter gs true (S fuel) mn None k (mkState pos rest prev caps)
  = let st := mkState pos rest prev caps in
    let d := fun st' =>
      if (Nat.eqb mn 0 && Nat.eqb (m_pos st') pos)%bool then None
      else repeat_loop iter gs true fuel (pred mn) None k st' in
    let xr := mkState pos rest prev (clear_caps gs caps) in
    if negb (Nat.eqb mn 0) then iter d xr
    else match iter d xr with Some z => Some z | None => k st end.
Proof. reflexivity. Qed.

Lemma power_S j token : power (S j) token = token ++ power j token.
Proof. reflexivity. Qed.

Lemma power_0 token : power 0 token = [].
Proof. reflexivity. Qed.

Lemma add_neqb (pos n : nat) : (0 < n)%nat -> Nat.eqb (pos + n) pos = false.
Proof. intros Hn. apply Nat.eqb_neq. lia. Qed.

(** *** The quantified group *)

Section Token.
Variable fl : flags.
Hypothesis Hcase : f_ignoreCase fl = false.
Hypothesis Hmulti : f_multiline fl = false.
Variable token : jsstring.
Hypothesis Htoken : token <> [].

Lemma token_length : (0 < length token)%nat.
Proof. destruct token; [congruence | cbn [length]; lia]. Qed.

(** One iteration of the quantified group. *)
Lemma group_iteration g d pos rest prev caps :
  rmatch fl (RGroup g (lit token)) d (mkState pos rest prev caps)
  = if is_prefix token rest
    then d (mkState (pos + length token) (drop (length token) rest) (last_prev prev token)
              (<[pred g := Some (pos, (pos + length token)%nat)]> caps))
    else None.
Proof.
  rewrite rmatch_group, (rmatch_lit fl token Hcase).
  destruct (is_prefix token rest); reflexivity.
Qed.

(** The greedy loop when whatever follows accepts every state. *)
Lemma token_loop_start g gs (fuel : nat) :
  forall mn pos rest prev caps,
  (length rest < fuel)%nat -> (mn <= 1)%nat ->
  (mn = 1%nat -> is_prefix token rest = false ->
     repeat_loop (rmatch fl (RGroup g (lit token))) gs true fuel mn None Some
       (mkState pos rest prev caps) = None)
  /\ (mn = 0%nat \/ is_prefix token rest = true ->
      exists j r prev' caps',
        rest = power j token ++ r /\ is_prefix token r = false /\ (mn <= j)%nat
        /\ (j = 0%nat -> prev' = prev)
        /\ ((1 <= j)%nat -> exists x, prev' = Some x)
        /\ repeat_loop (rmatch fl (RGroup g (lit token))) gs true fuel mn None Some
             (mkState pos rest prev caps)
           = Some (mkState (pos + length rest - length r) r prev' caps')).
Proof.
  induction fuel as [|fuel IH]; intros mn pos rest prev caps Hfuel Hmn; [lia|].
  rewrite repeat_loop_greedy_step. cbv zeta. rewrite group_iteration.
  destruct (is_prefix token rest) eqn:Hprefix.
  - pose proof (is_prefix_drop _ _ Hprefix) as Hrest.
    pose proof token_length as Htl.
    assert (Hlen : length rest = (length token + length (drop (length token) rest))%nat).
    { rewrite Hrest at 1. by rewrite length_app. }
    cbn [m_pos]. rewrite (add_neqb pos (length token) Htl), andb_false_r.
    destruct (IH (pred mn) (pos + length token)%nat (drop (length token) rest)
                (last_prev prev token)
                (<[pred g := Some (pos, (pos + length token)%nat)]> (clear_caps gs caps))
                ltac:(lia) ltac:(lia)) as [_ Hsome].
    destruct (Hsome ltac:(left; lia))
      as (j & r & prev' & caps' & Hr & Hnp & _ & Hj0 & Hj1 & Hloop).
    rewrite Hloop.
    split; [intros _ Hfalse; discriminate Hfalse|].
    intros _. exists (S j), r, prev', caps'.
    split; [rewrite power_S, <- app_assoc, <- Hr; exact Hrest|].
    split; [exact Hnp|]. split; [lia|]. split; [lia|]. split.
    + intros _. destruct j as [|j].
      * rewrite (Hj0 eq_refl). by apply last_prev_some.
      * apply Hj1. lia.
    + assert (Hr_len : (length r <= length (drop (length token) rest))%nat).
      { rewrite Hr, length_app. lia. }
      destruct (negb (mn =? 0)%nat); do 2 f_equal; lia.
  - split.
    + intros -> _. reflexivity.
    + intros [-> | Hcontra]; [|discriminate Hcontra].
      exists 0%nat, rest, prev, caps.
      split; [reflexivity|]. split; [exact Hprefix|]. split; [lia|].
      split; [reflexivity|]. split; [lia|].
      cbn [Nat.eqb negb]. do 2 f_equal. lia.
Qed.

(** The greedy loop followed by the end-of-input assertion. *)
Lemma token_loop_end g gs (fuel : nat) :
  forall mn pos rest prev caps,
  (length rest < fuel)%nat -> (mn <= 1)%nat ->
  (forall j, (mn <= j)%nat -> rest = power j token ->
     exists prev' caps',
       repeat_loop (rmatch fl (RGroup g (lit token))) gs true fuel mn None
         (rmatch fl REol Some) (mkState pos rest prev caps)
       = Some (mkState (pos + length rest) [] prev' caps'))
  /\ ((forall j, (mn <= j)%nat -> rest <> power j token) ->
      repeat_loop (rmatch fl (RGroup g (lit token))) gs true fuel mn None
        (rmatch fl REol Some) (mkState pos rest prev caps) = None).
Proof.
  induction fuel as [|fuel IH]; intros mn pos rest prev caps Hfuel Hmn; [lia|].
  rewrite repeat_loop_greedy_step. cbv zeta. rewrite group_iteration.
  assert (Heol : forall p (r : jsstring) pv cs,
            rmatch fl REol Some (mkState p r pv cs)
            = match r with [] => Some (mkState p r pv cs) | _ :: _ => None end).
  { intros p r pv cs. destruct r; [reflexivity|]. cbn [rmatch m_rest]. by rewrite Hmulti. }
  destruct (is_prefix token rest) eqn:Hprefix.
  - pose proof (is_prefix_drop _ _ Hprefix) as Hrest.
    pose proof token_length as Htl.
    assert (Hlen : length rest = (length token + length (drop (length token) rest))%nat).
    { rewrite Hrest at 1. by rewrite length_app. }
    cbn [m_pos]. rewrite (add_neqb pos (length token) Htl), andb_false_r.
    destruct (IH (pred mn) (pos + length token)%nat (drop (length token) rest)
                (last_prev prev token)
                (<[pred g := Some (pos, (pos + length token)%nat)]> (clear_caps gs caps))
                ltac:(lia) ltac:(lia)) as [Hyes Hno].
    split.
    + intros j Hj Hpow. destruct j as [|j].
      { rewrite power_0 in Hpow. rewrite Hpow in Hlen. cbn [length] in Hlen. lia. }
      rewrite power_S in Hpow.
      assert (Htail : drop (length token) rest = power j token).
      { rewrite Hpow. by rewrite drop_app_length. }
      destruct (Hyes j ltac:(lia) Htail) as (prev' & caps' & Hloop).
      exists prev', caps'. rewrite Hloop.
      replace (pos + length token + length (drop (length token) rest))%nat
        with (pos + length rest)%nat by lia.
      by destruct (negb (mn =? 0)%nat).
    + intros Hnone. rewrite Hno.
      * rewrite Heol. destruct rest as [|x rest']; [|by destruct (negb (mn =? 0)%nat)].
        cbn [length] in Hlen. lia.
      * intros j _ Hpow. apply (Hnone (S j)); [lia|].
        rewrite power_S, <- Hpow. exact Hrest.
  - split.
    + intros j Hj Hpow. destruct j as [|j].
      * assert (mn = 0%nat) as -> by lia. rewrite power_0 in Hpow. subst rest.
        exists prev, caps. cbn [Nat.eqb negb]. rewrite Heol. do 2 f_equal. cbn [length]. lia.
      * exfalso. rewrite power_S in Hpow.
        assert (is_prefix token rest = true) by (apply is_prefix_app; eauto).
        congruence.
    + intros Hnone. destruct mn as [|mn]; cbn [Nat.eqb negb]; [|reflexivity].
      rewrite Heol. destruct rest as [|x rest']; [|reflexivity].
      exfalso. by apply (Hnone 0%nat).
Qed.
End Token.

(** *** Scanning and the global replace loop *)

Section Scan.
Variable token : jsstring.
Hypothesis Htoken : token <> [].

Lemma power_nonempty j : power (S j) token <> [].
Proof. rewrite power_S. destruct token; [congruence | discriminate]. Qed.

(** Whether a string is a non-empty run of whole tokens can be decided. *)
Lemma power_dec (rest : jsstring) :
  (exists j, rest = power (S j) token) \/ (forall j, rest <> power (S j) token).
Proof.
  remember (length rest) as n eqn:Hn. revert rest Hn.
  induction n as [n IH] using lt_wf_ind. intros rest Hn.
  destruct (is_prefix token rest) eqn:Hprefix.
  - pose proof (is_prefix_drop _ _ Hprefix) as Hrest.
    pose proof (token_length token Htoken) as Htl.
    remember (drop (length token) rest) as rest' eqn:Hd. clear Hd Hprefix.
    subst rest. destruct rest' as [|x rest''].
    + left. exists 0%nat. rewrite power_S, power_0. reflexivity.
    + assert (Hlt : (length (x :: rest'') < n)%nat) by (subst n; rewrite length_app; lia).
      destruct (IH (length (x :: rest'')) Hlt (x :: rest'') eq_refl) as [[j Hj]|Hno].
      * left. exists (S j). rewrite (power_S (S j)), Hj. reflexivity.
      * right. intros j Hj. rewrite power_S in Hj. apply app_inv_head in Hj.
        destruct j as [|j]; [discriminate Hj|]. by apply (Hno j).
  - right. intros j Hj. rewrite power_S in Hj.
    assert (is_prefix token rest = true) by (apply is_prefix_app; eauto). congruence.
Qed.


Lemma scan_unfold re pos prev rest :
  scan re pos prev rest
  = match try_at re pos prev rest with
    | Some st' => Some (pos, st')
    | None =>
        if f_sticky (re_flags re) then None
        else match rest with
             | c :: rest' => scan re (S pos) (Some c) rest'
             | [] => None
             end
    end.
Proof. destruct rest; reflexivity. Qed.

(** [scan] finds the leftmost position from which a run of whole tokens
    reaches the end of the text, and fails when there is none. *)
Lemma scan_end_spec (re : RegExp) (ok : option N -> jsstring -> Prop) :
  end_like token re ok -> (forall c rest, ok (Some c) rest) ->
  forall rest pos prev, ok prev rest ->
  match scan re pos prev rest with
  | Some (i, st') =>
      exists a j,
        rest = a ++ power (S j) token
        /\ i = (pos + length a)%nat
        /\ m_pos st' = (pos + length rest)%nat /\ m_rest st' = []
        /\ forall a' j', rest = a' ++ power (S j') token -> (length a <= length a')%nat
  | None => forall a' j', rest <> a' ++ power (S j') token
  end.
Proof.
  intros (Hsticky & _ & _ & Htry) Hok.
  induction rest as [|c rest IH]; intros pos prev Hprev.
  - rewrite scan_unfold.
    destruct (Htry pos prev [] Hprev) as [_ Hnone].
    rewrite Hnone, Hsticky.
    + intros a' j' Heq. symmetry in Heq. apply app_eq_nil in Heq as [_ Heq].
      by apply power_nonempty in Heq.
    + intros j Heq. symmetry in Heq. by apply power_nonempty in Heq.
  - rewrite scan_unfold.
    destruct (Htry pos prev (c :: rest) Hprev) as [Hsome Hnone].
    destruct (power_dec (c :: rest)) as [[j Hj]|Hno].
    + destruct (Hsome j Hj) as (prev' & caps' & ->).
      exists [], j. cbn [app length m_pos m_rest].
      split; [exact Hj|]. split; [lia|]. split; [reflexivity|]. split; [reflexivity|].
      intros; lia.
    + rewrite (Hnone Hno), Hsticky.
      specialize (IH (S pos) (Some c) (Hok c rest)).
      destruct (scan re (S pos) (Some c) rest) as [[i st']|].
      * destruct IH as (a & j & Hrest & Hi & Hpos & Hrest' & Hleft).
        exists (c :: a), j. cbn [app length].
        split; [by rewrite Hrest|]. split; [lia|]. split; [lia|]. split; [exact Hrest'|].
        intros a' j' Heq. destruct a' as [|c' a'].
        { exfalso. by apply (Hno j'). }
        injection Heq as <- Heq. cbn [length]. apply Hleft in Heq. lia.
      * intros a' j' Heq. destruct a' as [|c' a'].
        { by apply (Hno j'). }
        injection Heq as <- Heq. by apply (IH a' j').
Qed.

Lemma is_suffix_app (p s : jsstring) : is_suffix p s = true <-> exists a, s = a ++ p.
Proof.
  unfold is_suffix. rewrite is_prefix_app. split.
  - intros [r Hr]. exists (rev r).
    rewrite <- (rev_involutive s), Hr, rev_app_distr, rev_involutive. reflexivity.
  - intros [a ->]. exists (rev a). by rewrite rev_app_distr.
Qed.

(** What precedes the leftmost trailing run does not end with a token. *)
Lemma leftmost_not_suffix (rest a : jsstring) (j : nat) :
  rest = a ++ power (S j) token ->
  (forall a' j', rest = a' ++ power (S j') token -> (length a <= length a')%nat) ->
  is_suffix token a = false.
Proof.
  intros Hrest Hleft. destruct (is_suffix token a) eqn:Hs; [|reflexivity].
  apply is_suffix_app in Hs as [a0 ->].
  assert (Hlen : (length (a0 ++ token) <= length a0)%nat).
  { apply (Hleft a0 (S j)). rewrite Hrest, (power_S (S j)), <- app_assoc. reflexivity. }
  rewrite length_app in Hlen. pose proof (token_length token Htoken). lia.
Qed.

Lemma no_power_not_suffix (rest : jsstring) :
  (forall a' j', rest <> a' ++ power (S j') token) -> is_suffix token rest = false.
Proof.
  intros Hno. destruct (is_suffix token rest) eqn:Hs; [|reflexivity].
  apply is_suffix_app in Hs as [a0 ->]. exfalso. apply (Hno a0 0%nat).
  rewrite power_S, power_0, app_nil_r. reflexivity.
Qed.

Lemma replace_loop_unfold fuel re s repl emitted pos prev rest :
  replace_loop (S fuel) re s repl emitted pos prev rest
  = match scan re pos prev rest with
    | None => drop emitted s
    | Some (i, st') =>
        let e := m_pos st' in
        let out := slice s emitted i ++ repl (mkMatch i e (m_caps st')) in
        if f_global (re_flags re) then
          if Nat.eqb e i then
            match m_rest st' with
            | [] => out ++ drop e s
            | c :: rest' => out ++ replace_loop fuel re s repl e (S e) (Some c) rest'
            end
          else out ++ replace_loop fuel re s repl e e (m_prev st') (m_rest st')
        else out ++ drop e s
    end.
Proof. reflexivity. Qed.

Lemma get_substitution_nil s m : get_substitution s m [] = [].
Proof. reflexivity. Qed.

Lemma replace_loop_no_match re fuel s repl emitted pos prev rest :
  scan re pos prev rest = None ->
  replace_loop fuel re s repl emitted pos prev rest = drop emitted s.
Proof.
  intros Hscan. destruct fuel as [|fuel]; [reflexivity|].
  by rewrite replace_loop_unfold, Hscan.
Qed.

Lemma replace_loop_at_end re fuel s repl pos prev :
  f_sticky (re_flags re) = false ->
  (forall pos prev, try_at re pos prev [] = None) ->
  replace_loop fuel re s repl (length s) pos prev [] = [].
Proof.
  intros Hsticky Hempty. destruct fuel as [|fuel]; cbn [replace_loop].
  - apply drop_all.
  - rewrite scan_unfold, Hempty, Hsticky. apply drop_all.
Qed.

(** From a state [ok], the global replace loop removes the longest trailing
    run of tokens and copies everything before it. *)
Lemma replace_end_phase (re : RegExp) (ok : option N -> jsstring -> Prop) :
  end_like token re ok -> (forall c rest, ok (Some c) rest) ->
  forall fuel s pre rest emitted prev,
  ok prev rest -> s = pre ++ rest -> (emitted <= length pre)%nat ->
  exists a k,
    rest = a ++ power k token
    /\ is_suffix token a = false
    /\ replace_loop (S fuel) re s (fun m => get_substitution s m []) emitted (length pre)
         prev rest
       = drop emitted pre ++ a.
Proof.
  intros Hend Hok fuel s pre rest emitted prev Hprev Hs Hemitted.
  pose proof (scan_end_spec re ok Hend Hok rest (length pre) prev Hprev) as Hscan.
  destruct Hend as (Hsticky & Hglobal & Hempty & _).
  rewrite replace_loop_unfold.
  destruct (scan re (length pre) prev rest) as [[i st']|].
  - destruct Hscan as (a & j & Hrest & Hi & Hpos & Hrest' & Hleft).
    exists a, (S j). split; [exact Hrest|].
    split; [by eapply leftmost_not_suffix|].
    cbv zeta. rewrite Hglobal.
    assert (Hlen : length rest = (length a + length (power (S j) token))%nat)
      by (rewrite Hrest at 1; by rewrite length_app).
    assert (Hpow : (0 < length (power (S j) token))%nat).
    { pose proof (power_nonempty j). destruct (power (S j) token); [congruence|cbn [length]; lia]. }
    replace (m_pos st' =? i)%nat with false by (symmetry; apply Nat.eqb_neq; lia).
    rewrite Hrest', Hpos.
    replace (length pre + length rest)%nat with (length s) by (rewrite Hs, length_app; lia).
    rewrite replace_loop_at_end by assumption.
    cbn [get_substitution]. rewrite !app_nil_r.
    unfold slice. rewrite Hs, Hrest, drop_app_le by exact Hemitted.
    rewrite app_assoc. apply take_app_length'.
    rewrite length_app, length_drop. lia.
  - exists rest, 0%nat. split; [by rewrite power_0, app_nil_r|].
    split; [by apply no_power_not_suffix|].
    rewrite Hs. by apply drop_app_le.
Qed.




Lemma try_at_start pos rest :
  try_at (re_start token) pos None rest
  = repeat_loop (rmatch global_flags (RGroup 1 (lit token))) (groups_of (RGroup 1 (lit token)))
      true (1 + length rest + 1) 1 None Some (mkState pos rest None [None]).
Proof. reflexivity. Qed.

Lemma try_at_start_later pos c rest : try_at (re_start token) pos (Some c) rest = None.
Proof. reflexivity. Qed.

Lemma try_at_end pos prev rest :
  try_at (re_end token) pos prev rest
  = repeat_loop (rmatch global_flags (RGroup 1 (lit token))) (groups_of (RGroup 1 (lit token)))
      true (1 + length rest + 1) 1 None (rmatch global_flags REol Some)
      (mkState pos rest prev [None]).
Proof. reflexivity. Qed.

Lemma try_at_both pos prev rest :
  try_at (re_both token) pos prev rest
  = match
      match prev with
      | None =>
          repeat_loop (rmatch global_flags (RGroup 1 (lit token)))
            (groups_of (RGroup 1 (lit token))) true (1 + length rest + 1) 1 None Some
            (mkState pos rest prev [None; None])
      | Some _ => None
      end
    with
    | Some z => Some z
    | None =>
        repeat_loop (rmatch global_flags (RGroup 2 (lit token)))
          (groups_of (RGroup 2 (lit token))) true (1 + length rest + 1) 1 None
          (rmatch global_flags REol Some) (mkState pos rest prev [None; None])
    end.
Proof. destruct prev; reflexivity. Qed.

(** [(token)+$] at one position: a match iff the rest is a run of tokens. *)
Lemma loop_end_spec g caps pos prev rest :
  (forall j, rest = power (S j) token ->
     exists prev' caps',
       repeat_loop (rmatch global_flags (RGroup g (lit token)))
         (groups_of (RGroup g (lit token))) true (1 + length rest + 1) 1 None
         (rmatch global_flags REol Some) (mkState pos rest prev caps)
       = Some (mkState (pos + length rest) [] prev' caps'))
  /\ ((forall j, rest <> power (S j) token) ->
      repeat_loop (rmatch global_flags (RGroup g (lit token)))
        (groups_of (RGroup g (lit token))) true (1 + length rest + 1) 1 None
        (rmatch global_flags REol Some) (mkState pos rest prev caps) = None).
Proof.
  destruct (token_loop_end global_flags eq_refl eq_refl token Htoken g
              (groups_of (RGroup g (lit token))) (1 + length rest + 1) 1 pos rest prev caps
              ltac:(lia) ltac:(lia)) as [Hyes Hno].
  split.
  - intros j Hj. apply (Hyes (S j)); [lia | exact Hj].
  - intros Hnone. apply Hno. intros j Hj. destruct j as [|j]; [lia|]. apply Hnone.
Qed.

(** [(token)+] fails where the rest does not start with the token. *)
Lemma loop_start_none g caps pos prev rest :
  is_prefix token rest = false ->
  repeat_loop (rmatch global_flags (RGroup g (lit token)))
    (groups_of (RGroup g (lit token))) true (1 + length rest + 1) 1 None Some
    (mkState pos rest prev caps) = None.
Proof.
  intros Hprefix.
  by apply (token_loop_start global_flags eq_refl token Htoken g
              (groups_of (RGroup g (lit token))) (1 + length rest + 1) 1 pos rest prev caps
              ltac:(lia) ltac:(lia)).
Qed.

Lemma power_has_prefix j : is_prefix token (power (S j) token) = true.
Proof. rewrite power_S. apply is_prefix_app. eauto. Qed.

Lemma re_end_like : end_like token (re_end token) (fun _ _ => True).
Proof.
  split; [reflexivity|]. split; [reflexivity|]. split.
  - intros pos prev. rewrite try_at_end. apply loop_end_spec.
    intros j Hj. symmetry in Hj. by apply power_nonempty in Hj.
  - intros pos prev rest _. rewrite try_at_end. apply loop_end_spec.
Qed.

Lemma re_both_like :
  end_like token (re_both token) (fun prev rest => prev <> None \/ is_prefix token rest = false).
Proof.
  split; [reflexivity|]. split; [reflexivity|]. split.
  - intros pos prev. rewrite try_at_both.
    assert (Hp : is_prefix token [] = false) by (destruct token; [congruence | reflexivity]).
    rewrite (loop_start_none 1 _ pos prev [] Hp).
    destruct prev; apply loop_end_spec;
      intros j Hj; symmetry in Hj; by apply power_nonempty in Hj.
  - intros pos prev rest Hok. rewrite try_at_both.
    assert (Hfirst : match prev with
                     | None =>
                         repeat_loop (rmatch global_flags (RGroup 1 (lit token)))
                           (groups_of (RGroup 1 (lit token))) true (1 + length rest + 1) 1
                           None Some (mkState pos rest prev [None; None])
                     | Some _ => None
                     end = None).
    { destruct prev as [c|]; [reflexivity|]. destruct Hok as [Hok|Hok]; [congruence|].
      by apply loop_start_none. }
    rewrite Hfirst. apply loop_end_spec.
Qed.

Lemma scan_start_later rest : forall pos c, scan (re_start token) pos (Some c) rest = None.
Proof.
  induction rest as [|x rest IH]; intros pos c; rewrite scan_unfold, try_at_start_later;
    [reflexivity | apply IH].
Qed.

(** [str.replace(/^(token)+/g, '')] *)
Lemma replace_start (text : jsstring) :
  exists j r,
    text = power j token ++ r /\ is_prefix token r = false
    /\ regexp_replace (re_start token) text [] = r.
Proof.
  unfold regexp_replace, regexp_replace_with.
  rewrite replace_loop_unfold, scan_unfold, try_at_start.
  destruct (token_loop_start global_flags eq_refl token Htoken 1
              (groups_of (RGroup 1 (lit token))) (1 + length text + 1) 1 0 text None [None]
              ltac:(lia) ltac:(lia)) as [Hnone Hsome].
  destruct (is_prefix token text) eqn:Hprefix.
  - destruct (Hsome ltac:(by right))
      as (j & r & prev' & caps' & Htext & Hnp & Hj & _ & Hprev & Hloop).
    rewrite Hloop. exists j, r. split; [exact Htext|]. split; [exact Hnp|].
    destruct (Hprev Hj) as [x ->].
    cbv zeta. cbn [re_start re_flags global_flags f_global m_pos m_caps m_rest m_prev].
    assert (Hlen : length text = (length (power j token) + length r)%nat)
      by (rewrite Htext at 1; by rewrite length_app).
    assert (Hpow : (0 < length (power j token))%nat).
    { destruct j as [|j]; [lia|]. pose proof (power_nonempty j).
      destruct (power (S j) token); [congruence|cbn [length]; lia]. }
    replace (0 + length text - length r =? 0)%nat with false
      by (symmetry; apply Nat.eqb_neq; lia).
    cbn [get_substitution]. unfold slice. cbn [Nat.sub take app].
    assert (Hdrop : drop (0 + length text - length r) text = r).
    { rewrite Htext at 2. apply drop_app_length'. lia. }
    rewrite replace_loop_no_match by apply scan_start_later. exact Hdrop.
  - rewrite (Hnone eq_refl eq_refl).
    cbn [re_start re_flags global_flags f_sticky].
    exists 0%nat, text. split; [reflexivity|]. split; [exact Hprefix|].
    destruct text as [|c rest]; [reflexivity|]. by rewrite scan_start_later.
Qed.

(** [str.replace(/(token)+$/g, '')] *)
Lemma replace_end (text : jsstring) :
  exists res k,
    text = res ++ power k token /\ is_suffix token res = false
    /\ regexp_replace (re_end token) text [] = res.
Proof.
  unfold regexp_replace, regexp_replace_with.
  destruct (replace_end_phase (re_end token) _ re_end_like ltac:(done) (length text) text [] text
              0%nat None I eq_refl ltac:(cbn [length]; lia)) as (a & k & Htext & Hsuffix & Hloop).
  exists a, k. split; [exact Htext|]. split; [exact Hsuffix|]. exact Hloop.
Qed.

(** [str.replace(/^(token)+|(token)+$/g, '')] *)
Lemma replace_both (text : jsstring) :
  exists j r k res,
    text = power j token ++ r /\ is_prefix token r = false
    /\ r = res ++ power k token /\ is_suffix token res = false
    /\ regexp_replace (re_both token) text [] = res.
Proof.
  assert (Hok : forall (c : N) (rest : jsstring),
            Some c <> None \/ is_prefix token rest = false) by (intros; by left).
  unfold regexp_replace, regexp_replace_with.
  destruct (is_prefix token text) eqn:Hprefix.
  - rewrite replace_loop_unfold, scan_unfold, try_at_both.
    destruct (token_loop_start global_flags eq_refl token Htoken 1
                (groups_of (RGroup 1 (lit token))) (1 + length text + 1) 1 0 text None
                [None; None] ltac:(lia) ltac:(lia)) as [_ Hsome].
    destruct (Hsome ltac:(by right))
      as (j & r & prev' & caps' & Htext & Hnp & Hj & _ & Hprev & Hloop).
    rewrite Hloop. destruct (Hprev Hj) as [x ->].
    cbv zeta. cbn [re_both re_flags global_flags f_global m_pos m_caps m_rest m_prev].
    assert (Hlen : length text = (length (power j token) + length r)%nat)
      by (rewrite Htext at 1; by rewrite length_app).
    assert (Hpow : (0 < length (power j token))%nat).
    { destruct j as [|j]; [lia|]. pose proof (power_nonempty j).
      destruct (power (S j) token); [congruence|cbn [length]; lia]. }
    replace (0 + length text - length r)%nat with (length (power j token)) by lia.
    replace (length (power j token) =? 0)%nat with false by (symmetry; apply Nat.eqb_neq; lia).
    cbv beta. rewrite get_substitution_nil. unfold slice. cbn [Nat.sub take app].
    destruct (length text) as [|fuel] eqn:Hfuel; [lia|].
    destruct (replace_end_phase (re_both token) _ re_both_like Hok fuel text (power j token) r
                (length (power j token)) (Some x) (Hok x r) Htext (le_n _))
      as (a & k & Hr & Hsuffix & Hphase).
    change (mkRegExp (RAlt (RSeq RBol (RRepeat (RGroup 1 (lit token)) 1 None true))
                       (RSeq (RRepeat (RGroup 2 (lit token)) 1 None true) REol)) 2
              global_flags) with (re_both token).
    rewrite Hphase, drop_all. exists j, r, k, a. by repeat split.
  - destruct (replace_end_phase (re_both token) _ re_both_like Hok (length text) text [] text
                0%nat None (or_intror Hprefix) eq_refl (le_n _))
      as (a & k & Htext & Hsuffix & Hphase).
    cbn [length drop app] in Hphase.
    exists 0%nat, text, k, a. rewrite Hphase. by repeat split.
Qed.
End Scan.

(** *** The parser on the three patterns *)

Lemma escapeRegExp_cons c cs : escapeRegExp (c :: cs) = esc c ++ escapeRegExp cs.
Proof. reflexivity. Qed.

Lemma parse_quantifier_none atom rest :
  no_quantifier rest = true -> parse_quantifier atom rest = Some (atom, rest).
Proof.
  destruct rest as [|x rest]; [reflexivity|]. cbn [no_quantifier].
  intros H. apply negb_true_iff in H.
  apply orb_false_iff in H as [H Hbrace]. apply orb_false_iff in H as [H Hq].
  apply orb_false_iff in H as [Hstar Hplus].
  unfold parse_quantifier. rewrite Hstar, Hplus, Hq.
  unfold parse_braced. rewrite Hbrace. reflexivity.
Qed.

Lemma not_special c x : reRegExpChar c = false -> reRegExpChar x = true -> cu_eqb c x = false.
Proof.
  intros Hc Hx. destruct (cu_eqb c x) eqn:E; [|reflexivity].
  apply cu_eqb_eq in E. subst. congruence.
Qed.

Ltac plain_char H :=
  repeat match goal with
  | |- context [cu_eqb ?c ?x] =>
      lazymatch type of H with
      | reRegExpChar c = false => rewrite (not_special c x H eq_refl)
      end
  end.

Lemma parse_term_bol f p n : parse_term (S f) (ch "^" :: p) n = Some (RBol, p, n).
Proof. reflexivity. Qed.

Lemma parse_term_eol f p n : parse_term (S f) (ch "$" :: p) n = Some (REol, p, n).
Proof. reflexivity. Qed.

Lemma parse_term_plain f c p n :
  reRegExpChar c = false ->
  parse_term (S f) (c :: p) n
  = match parse_quantifier (RChar c) p with
    | Some (t, q') => Some (t, q', n)
    | None => None
    end.
Proof.
  intros H. cbn [parse_term]. plain_char H. cbn [orb]. reflexivity.
Qed.

Lemma special_cases c :
  reRegExpChar c = true ->
  In c (map N_of_ascii ["\"; "^"; "$"; "."; "*"; "+"; "?"; "("; ")"; "["; "]"; "{"; "}"; "|"]%char).
Proof.
  unfold reRegExpChar. intros H. apply existsb_exists in H as (x & Hx & E).
  apply cu_eqb_eq in E. by subst.
Qed.

Lemma parse_term_escaped f c p n :
  reRegExpChar c = true ->
  parse_term (S f) (ch "\" :: c :: p) n
  = match parse_quantifier (RChar c) p with
    | Some (t, q') => Some (t, q', n)
    | None => None
    end.
Proof.
  intros H. apply special_cases in H. cbn [map In] in H.
  repeat (destruct H as [<-|H]; [reflexivity|]). destruct H.
Qed.

(** A capturing group: the disjunction, the closing parenthesis and the
    quantifier after it. *)
Lemma parse_term_group f q p n :
  cu_eqb q (ch "?") = false ->
  parse_term (S f) (ch "(" :: q :: p) n
  = match parse_disjunction f (q :: p) (S n) with
    | Some (r, e :: p4, n') =>
        if cu_eqb e (ch ")") then
          match parse_quantifier (RGroup (S n) r) p4 with
          | Some (t, q') => Some (t, q', n')
          | None => None
          end
        else None
    | _ => None
    end.
Proof.
  intros Hq. cbn [parse_term].
  change (cu_eqb (ch "(") (ch "^")) with false. change (cu_eqb (ch "(") (ch "$")) with false.
  change (cu_eqb (ch "(") (ch "(")) with true. cbv iota. rewrite Hq.
  destruct (parse_disjunction f (q :: p) (S n)) as [[[r [|e p4]] n']|]; reflexivity.
Qed.

Lemma parse_alternative_nil f n : parse_alternative (S f) [] n = Some (REmpty, [], n).
Proof. reflexivity. Qed.

Lemma parse_alternative_end f p n :
  alternative_end p = true -> parse_alternative (S f) p n = Some (REmpty, p, n).
Proof.
  destruct p as [|c p]; [reflexivity|]. cbn [alternative_end parse_alternative].
  intros ->. reflexivity.
Qed.

Lemma parse_alternative_step f c p n :
  (cu_eqb c (ch "|") || cu_eqb c (ch ")"))%bool = false ->
  parse_alternative (S f) (c :: p) n
  = match parse_term f (c :: p) n with
    | None => None
    | Some (t, p1, n1) =>
        match parse_alternative f p1 n1 with
        | Some (REmpty, p2, n2) => Some (t, p2, n2)
        | Some (r, p2, n2) => Some (RSeq t r, p2, n2)
        | None => None
        end
    end.
Proof. intros H. cbn [parse_alternative]. rewrite H. reflexivity. Qed.

Lemma parse_disjunction_step f p n :
  parse_disjunction (S f) p n
  = match parse_alternative f p n with
    | None => None
    | Some (a, p1, n1) =>
        match p1 with
        | c :: p2 =>
            if cu_eqb c (ch "|") then
              match parse_disjunction f p2 n1 with
              | Some (d, p3, n3) => Some (RAlt a d, p3, n3)
              | None => None
              end
            else Some (a, p1, n1)
        | [] => Some (a, p1, n1)
        end
    end.
Proof. reflexivity. Qed.


Lemma lit_cons c c' cs : lit (c :: c' :: cs) = RSeq (RChar c) (lit (c' :: cs)).
Proof. reflexivity. Qed.

Lemma esc_head c rest :
  exists x t, esc c ++ rest = x :: t
    /\ (cu_eqb x (ch "|") || cu_eqb x (ch ")"))%bool = false
    /\ cu_eqb x (ch "?") = false
    /\ no_quantifier (x :: t) = true.
Proof.
  unfold esc. destruct (reRegExpChar c) eqn:Hc.
  - exists (ch "\"), (c :: rest). repeat split.
  - exists c, rest. split; [reflexivity|].
    cbn [no_quantifier]. plain_char Hc. repeat split.
Qed.

(** An escaped non-empty literal starts with a code unit that is neither a
    quantifier nor the end of an alternative. *)
Lemma escaped_head chars rest :
  chars <> [] ->
  exists x t, escapeRegExp chars ++ rest = x :: t
    /\ (cu_eqb x (ch "|") || cu_eqb x (ch ")"))%bool = false
    /\ cu_eqb x (ch "?") = false
    /\ no_quantifier (x :: t) = true.
Proof.
  destruct chars as [|c cs]; [congruence|]. intros _.
  rewrite escapeRegExp_cons, <- app_assoc. apply esc_head.
Qed.

Lemma alternative_end_no_quantifier rest :
  alternative_end rest = true -> no_quantifier rest = true.
Proof.
  destruct rest as [|x rest]; [reflexivity|]. cbn [alternative_end no_quantifier].
  intros H. apply orb_true_iff in H as [H|H]; apply cu_eqb_eq in H; subst x; reflexivity.
Qed.

Lemma parse_term_esc f c rest n :
  no_quantifier rest = true ->
  parse_term (S f) (esc c ++ rest) n = Some (RChar c, rest, n).
Proof.
  intros Hrest. unfold esc. destruct (reRegExpChar c) eqn:Hc; cbn [app].
  - rewrite (parse_term_escaped f c rest n Hc), parse_quantifier_none by exact Hrest.
    reflexivity.
  - rewrite (parse_term_plain f c rest n Hc), parse_quantifier_none by exact Hrest.
    reflexivity.
Qed.

(** An escaped literal is parsed as the sequence of its code units. *)
Lemma parse_alternative_literal (chars : jsstring) :
  forall fuel rest n,
  (length chars < fuel)%nat -> alternative_end rest = true ->
  parse_alternative fuel (escapeRegExp chars ++ rest) n = Some (lit chars, rest, n).
Proof.
  induction chars as [|c cs IH]; intros fuel rest n Hfuel Hrest;
    (destruct fuel as [|fuel]; [cbn [length] in Hfuel; lia|]).
  - cbn [escapeRegExp flat_map app lit]. by apply parse_alternative_end.
  - cbn [length] in Hfuel. destruct fuel as [|fuel]; [lia|].
    rewrite escapeRegExp_cons, <- app_assoc.
    destruct (esc_head c (escapeRegExp cs ++ rest)) as (x & t & Hxt & Hx & _ & _).
    rewrite Hxt, (parse_alternative_step _ x t n Hx), <- Hxt.
    assert (Hnq : no_quantifier (escapeRegExp cs ++ rest) = true).
    { destruct cs as [|c' cs'].
      - cbn [escapeRegExp flat_map app]. by apply alternative_end_no_quantifier.
      - destruct (escaped_head (c' :: cs') rest ltac:(discriminate)) as (y & u & -> & _ & _ & Hy).
        exact Hy. }
    rewrite (parse_term_esc fuel c _ n Hnq).
    rewrite (IH (S fuel) rest n ltac:(lia) Hrest).
    destruct cs as [|c' cs']; [reflexivity|].
    rewrite (lit_cons c c' cs').
    destruct (lit (c' :: cs')) eqn:Hlit; try reflexivity.
    destruct cs'; discriminate Hlit.
Qed.


Lemma parse_quantifier_plus atom rest :
  lazy_free rest = true ->
  parse_quantifier atom (ch "+" :: rest) = Some (RRepeat atom 1 None true, rest).
Proof.
  intros Hrest. destruct rest as [|x rest]; [reflexivity|].
  cbn [lazy_free] in Hrest. apply negb_true_iff in Hrest.
  unfold parse_quantifier.
  change (cu_eqb (ch "+") (ch "*")) with false. change (cu_eqb (ch "+") (ch "+")) with true.
  cbv iota. by rewrite Hrest.
Qed.

(** The group [(token)+] around an escaped literal. *)
Lemma parse_term_token_group (chars : jsstring) :
  chars <> [] ->
  forall fuel rest n,
  (length chars + 3 <= fuel)%nat -> lazy_free rest = true ->
  parse_term fuel (ch "(" :: escapeRegExp chars ++ ch ")" :: ch "+" :: rest) n
  = Some (RRepeat (RGroup (S n) (lit chars)) 1 None true, rest, S n).
Proof.
  intros Hchars fuel rest n Hfuel Hrest.
  destruct fuel as [|[|fuel]]; [lia | lia |].
  destruct (escaped_head chars (ch ")" :: ch "+" :: rest) Hchars) as (x & t & Hxt & _ & Hx & _).
  rewrite Hxt, (parse_term_group _ x t n Hx), <- Hxt.
  rewrite parse_disjunction_step.
  rewrite (parse_alternative_literal chars fuel (ch ")" :: ch "+" :: rest) (S n))
    by (lia || reflexivity).
  change (cu_eqb (ch ")") (ch "|")) with false. cbv iota.
  change (cu_eqb (ch ")") (ch ")")) with true. cbv iota.
  by rewrite parse_quantifier_plus.
Qed.

(** [(token)+$], [^(token)+] and [^(token)+|(token)+$] with enough fuel. *)
Lemma parse_disjunction_end (chars : jsstring) :
  chars <> [] ->
  forall fuel n,
  (length chars + 5 <= fuel)%nat ->
  parse_disjunction fuel (ch "(" :: escapeRegExp chars ++ js ")+$") n
  = Some (RSeq (RRepeat (RGroup (S n) (lit chars)) 1 None true) REol, [], S n).
Proof.
  intros Hchars fuel n Hfuel.
  destruct fuel as [|[|[|[|fuel]]]]; [lia..|].
  rewrite parse_disjunction_step.
  rewrite parse_alternative_step by reflexivity.
  change (js ")+$") with (ch ")" :: ch "+" :: [ch "$"]).
  rewrite (parse_term_token_group chars Hchars) by (lia || reflexivity).
  rewrite parse_alternative_step by reflexivity.
  rewrite parse_term_eol, parse_alternative_nil. reflexivity.
Qed.

Lemma parse_disjunction_start (chars : jsstring) :
  chars <> [] ->
  forall fuel,
  (length chars + 6 <= fuel)%nat ->
  parse_disjunction fuel (js "^(" ++ escapeRegExp chars ++ js ")+") 0
  = Some (RSeq RBol (RRepeat (RGroup 1 (lit chars)) 1 None true), [], 1%nat).
Proof.
  intros Hchars fuel Hfuel.
  destruct fuel as [|[|[|[|fuel]]]]; [lia..|].
  change (js "^(" ++ escapeRegExp chars ++ js ")+")
    with (ch "^" :: ch "(" :: escapeRegExp chars ++ ch ")" :: ch "+" :: []).
  rewrite parse_disjunction_step.
  rewrite parse_alternative_step by reflexivity.
  rewrite parse_term_bol.
  rewrite parse_alternative_step by reflexivity.
  rewrite (parse_term_token_group chars Hchars) by (lia || reflexivity).
  rewrite parse_alternative_nil. reflexivity.
Qed.

Lemma parse_disjunction_both (chars : jsstring) :
  chars <> [] ->
  forall fuel,
  (length chars + 7 <= fuel)%nat ->
  parse_disjunction fuel
    (js "^(" ++ escapeRegExp chars ++ js ")+|(" ++ escapeRegExp chars ++ js ")+$") 0
  = Some (RAlt (RSeq RBol (RRepeat (RGroup 1 (lit chars)) 1 None true))
               (RSeq (RRepeat (RGroup 2 (lit chars)) 1 None true) REol), [], 2%nat).
Proof.
  intros Hchars fuel Hfuel.
  destruct fuel as [|[|[|[|fuel]]]]; [lia..|].
  change (js "^(" ++ escapeRegExp chars ++ js ")+|(" ++ escapeRegExp chars ++ js ")+$")
    with (ch "^" :: ch "(" :: escapeRegExp chars ++ ch ")" :: ch "+"
          :: (ch "|" :: ch "(" :: escapeRegExp chars ++ js ")+$")).
  rewrite parse_disjunction_step.
  rewrite parse_alternative_step by reflexivity.
  rewrite parse_term_bol.
  rewrite parse_alternative_step by reflexivity.
  rewrite (parse_term_token_group chars Hchars) by (lia || reflexivity).
  rewrite parse_alternative_end by reflexivity.
  change (cu_eqb (ch "|") (ch "|")) with true. cbv iota.
  rewrite (parse_disjunction_end chars Hchars) by lia. reflexivity.
Qed.

Lemma length_escapeRegExp chars : (length chars <= length (escapeRegExp chars))%nat.
Proof.
  induction chars as [|c cs IH]; [reflexivity|].
  rewrite escapeRegExp_cons, length_app. unfold esc.
  destruct (reRegExpChar c); cbn [length]; lia.
Qed.

(** [new RegExp] on the three patterns: the fuel of [parse_pattern] is enough. *)
Lemma new_RegExp_start chars :
  chars <> [] ->
  new_RegExp (js "^(" ++ escapeRegExp chars ++ js ")+") (js "g") = Some (re_start chars).
Proof.
  intros Hchars. unfold new_RegExp.
  change (parse_flags (js "g")) with (Some global_flags). cbv iota.
  cbn [global_flags f_unicode]. unfold parse_pattern.
  rewrite (parse_disjunction_start chars Hchars); [reflexivity|].
  pose proof (length_escapeRegExp chars). rewrite !length_app.
  change (length (js "^(")) with 2%nat. change (length (js ")+")) with 2%nat. lia.
Qed.

Lemma new_RegExp_end chars :
  chars <> [] ->
  new_RegExp (js "(" ++ escapeRegExp chars ++ js ")+$") (js "g") = Some (re_end chars).
Proof.
  intros Hchars. unfold new_RegExp.
  change (parse_flags (js "g")) with (Some global_flags). cbv iota.
  cbn [global_flags f_unicode]. unfold parse_pattern.
  change (js "(" ++ escapeRegExp chars ++ js ")+$")
    with (ch "(" :: escapeRegExp chars ++ js ")+$").
  rewrite (parse_disjunction_end chars Hchars); [reflexivity|].
  pose proof (length_escapeRegExp chars). cbn [length]. rewrite !length_app.
  change (length (js ")+$")) with 3%nat. lia.
Qed.

Lemma new_RegExp_both chars :
  chars <> [] ->
  new_RegExp (js "^(" ++ escapeRegExp chars ++ js ")+|(" ++ escapeRegExp chars ++ js ")+$")
    (js "g") = Some (re_both chars).
Proof.
  intros Hchars. unfold new_RegExp.
  change (parse_flags (js "g")) with (Some global_flags). cbv iota.
  cbn [global_flags f_unicode]. unfold parse_pattern.
  rewrite (parse_disjunction_both chars Hchars); [reflexivity|].
  pose proof (length_escapeRegExp chars). rewrite !length_app.
  change (length (js "^(")) with 2%nat. change (length (js ")+|(")) with 4%nat.
  change (length (js ")+$")) with 3%nat. lia.
Qed.

(** *** The three trim functions *)

(** The fast path is not taken. *)
Lemma not_single_space token : token <> js " " -> js_eqb token (js " ") = false.
Proof.
  intros Hne. destruct (js_eqb token (js " ")) eqn:E; [|reflexivity].
  by apply js_eqb_eq in E.
Qed.

Lemma charsTrimStart_token token text :
  token <> [] -> token <> js " " ->
  charsTrimStart text token = Ok (regexp_replace (re_start token) text []).
Proof.
  intros Hne Hsp. unfold charsTrimStart, with_RegExp.
  by rewrite (not_single_space token Hsp), (new_RegExp_start token Hne).
Qed.

Lemma charsTrimEnd_token token text :
  token <> [] -> token <> js " " ->
  charsTrimEnd text token = Ok (regexp_replace (re_end token) text []).
Proof.
  intros Hne Hsp. unfold charsTrimEnd, with_RegExp.
  by rewrite (not_single_space token Hsp), (new_RegExp_end token Hne).
Qed.

Lemma charsTrim_token token text :
  token <> [] -> token <> js " " ->
  charsTrim text token = Ok (regexp_replace (re_both token) text []).
Proof.
  intros Hne Hsp. unfold charsTrim, with_RegExp.
  by rewrite (not_single_space token Hsp), (new_RegExp_both token Hne).
Qed.

(** C8. As-unit trim strips the whole trim string, as one token, as often as
    it is repeated at the affected end: for a trim string that is neither
    empty nor a single space, [trimStart] returns the text without its
    longest leading run of tokens, [trimEnd] the text without its longest
    trailing run, and [trimBoth] removes the leading run first and then the
    trailing run of what is left. On ["ababXab"], as-unit ["ab"] gives
    ["X"], per-character ["ab"] gives ["X"] too, and as-unit ["ba"] leaves
    the text unchanged. *)
Theorem trim_as_unit_strips_whole_tokens (itemIndex : nat) :
  (forall token text : jsstring, token <> [] -> token <> js " " ->
     (exists j r, text = power j token ++ r /\ is_prefix token r = false
        /\ trim_case itemIndex "trimStart" true token text = Ok r)
     /\ (exists res k, text = res ++ power k token /\ is_suffix token res = false
        /\ trim_case itemIndex "trimEnd" true token text = Ok res)
     /\ (exists j r k res, text = power j token ++ r /\ is_prefix token r = false
        /\ r = res ++ power k token /\ is_suffix token res = false
        /\ trim_case itemIndex "trimBoth" true token text = Ok res))
  /\ trim_case itemIndex "trimBoth" true (js "ab") (js "ababXab") = Ok (js "X")
  /\ trim_case itemIndex "trimBoth" false (js "ab") (js "ababXab") = Ok (js "X")
  /\ trim_case itemIndex "trimBoth" true (js "ba") (js "ababXab") = Ok (js "ababXab").
Proof.
  split; [|repeat split; vm_compute; reflexivity].
  intros token text Hne Hsp. split; [|split].
  - destruct (replace_start token Hne text) as (j & r & Htext & Hr & Hres).
    exists j, r. split; [exact Htext|]. split; [exact Hr|].
    change (charsTrimStart text token = Ok r).
    by rewrite charsTrimStart_token, Hres.
  - destruct (replace_end token Hne text) as (res & k & Htext & Hr & Hres).
    exists res, k. split; [exact Htext|]. split; [exact Hr|].
    change (charsTrimEnd text token = Ok res).
    by rewrite charsTrimEnd_token, Hres.
  - destruct (replace_both token Hne text) as (j & r & k & res & Htext & Hr & Hrr & Hs & Hres).
    exists j, r, k, res. split; [exact Htext|]. split; [exact Hr|].
    split; [exact Hrr|]. split; [exact Hs|].
    change (charsTrim text token = Ok res).
    by rewrite charsTrim_token, Hres.
Qed.

Lemma trim_as_unit_strips_whole_tokens_witness :
  js "ab" <> [] /\ js "ab" <> js " "
  /\ exists j r k res, js "ababXab" = power j (js "ab") ++ r
       /\ is_prefix (js "ab") r = false
       /\ r = res ++ power k (js "ab") /\ is_suffix (js "ab") res = false
       /\ trim_case 0 "trimBoth" true (js "ab") (js "ababXab") = Ok res.
Proof.
  split; [discriminate|]. split; [discriminate|].
  apply (proj1 (trim_as_unit_strips_whole_tokens 0) (js "ab") (js "ababXab")); discriminate.
Defined.

(** ** The input items are not mutated *)

Lemma length_assign h l k v : length (assign h l k v) = length h.
Proof. unfold assign. apply length_insert. Qed.

Lemma take_assign n h l k v : (n <= l)%nat -> take n (assign h l k v) = take n h.
Proof. intros Hl. unfold assign. by apply take_insert_ge. Qed.

Lemma obj_of_assign_other h l l' k v : l <> l' -> obj_of (assign h l k v) l' = obj_of h l'.
Proof. intros Hne. unfold obj_of, assign. by rewrite list_lookup_insert_ne. Qed.

Lemma obj_of_assign_same h l k v :
  (l < length h)%nat -> obj_of (assign h l k v) l = obj_set (obj_of h l) k v.
Proof.
  intros Hl. unfold obj_of at 1, assign.
  by rewrite list_lookup_insert_eq.
Qed.

Lemma obj_of_app h o l : (l < length h)%nat -> obj_of (h ++ [o]) l = obj_of h l.
Proof. intros Hl. unfold obj_of. by rewrite lookup_app_l. Qed.

Lemma obj_of_new h o : obj_of (h ++ [o]) (length h) = o.
Proof. unfold obj_of. by rewrite list_lookup_middle. Qed.

(** What is read after a write is the value written or what was there. *)
Lemma obj_get_set_inv o k v key x :
  obj_get (obj_set o k v) key = x -> v = x \/ obj_get o key = x.
Proof.
  induction o as [|[k' y] o IH]; simpl.
  - destruct (js_eqb k key); [by left | by right].
  - destruct (js_eqb k' k) eqn:Hk; simpl.
    + destruct (js_eqb k' key); [by left | by right].
    + destruct (js_eqb k' key); [by right | exact IH].
Qed.

Lemma owned_assign n0 J h l k v :
  owned n0 J h -> J l -> root_in J v -> owned n0 J (assign h l k v).
Proof.
  intros (Hdom & Hcl & Hnf) Hl Hv. split; [|split].
  - intros x Hx. rewrite length_assign. by apply Hdom.
  - intros x key x' Hx Hget.
    destruct (decide (l = x)) as [->|Hne].
    + rewrite obj_of_assign_same in Hget by (apply Hdom in Hx; lia).
      apply obj_get_set_inv in Hget as [->|Hget]; [exact Hv | by eapply Hcl].
    + rewrite obj_of_assign_other in Hget by exact Hne. by eapply Hcl.
  - intros x key f Hx Hget.
    destruct (decide (l = x)) as [->|Hne].
    + rewrite obj_of_assign_same in Hget by (apply Hdom in Hx; lia).
      apply obj_get_set_inv in Hget as [->|Hget]; [exact Hv | by eapply Hnf].
    + rewrite obj_of_assign_other in Hget by exact Hne. by eapply Hnf.
Qed.

Lemma owned_assign_other n0 J h l k v :
  owned n0 J h -> ~ J l -> owned n0 J (assign h l k v).
Proof.
  intros (Hdom & Hcl & Hnf) Hl. split; [|split].
  - intros x Hx. rewrite length_assign. by apply Hdom.
  - intros x key x' Hx Hget.
    rewrite obj_of_assign_other in Hget by (intros ->; contradiction). by eapply Hcl.
  - intros x key f Hx Hget.
    rewrite obj_of_assign_other in Hget by (intros ->; contradiction). by eapply Hnf.
Qed.

Lemma owned_alloc n0 J h o :
  owned n0 J h -> owned n0 J (h ++ [o]).
Proof.
  intros (Hdom & Hcl & Hnf). split; [|split].
  - intros x Hx. rewrite length_app. simpl. apply Hdom in Hx. lia.
  - intros x key x' Hx Hget. rewrite obj_of_app in Hget by (apply Hdom in Hx; lia).
    by eapply Hcl.
  - intros x key f Hx Hget. rewrite obj_of_app in Hget by (apply Hdom in Hx; lia).
    by eapply Hnf.
Qed.

Lemma owned_alloc_empty n0 J h :
  (n0 <= length h)%nat -> owned n0 J h ->
  owned n0 (fun l => J l \/ l = length h) (h ++ [[]]).
Proof.
  intros Hn (Hdom & Hcl & Hnf). split; [|split].
  - intros x [Hx| ->]; rewrite length_app; simpl; [apply Hdom in Hx|]; lia.
  - intros x key x' [Hx| ->] Hget.
    + rewrite obj_of_app in Hget by (apply Hdom in Hx; lia). left. by eapply Hcl.
    + rewrite obj_of_new in Hget. discriminate Hget.
  - intros x key f [Hx| ->] Hget.
    + rewrite obj_of_app in Hget by (apply Hdom in Hx; lia). by eapply Hnf.
    + rewrite obj_of_new in Hget. discriminate Hget.
Qed.

Section Frame.
Context `{PathSyntax}.

Lemma baseSet_loop_frame (n0 : nat) (path : list jsstring) :
  forall (h : store) (nested : nat) (v : value) (J : nat -> Prop),
  (n0 <= length h)%nat -> owned n0 J h -> J nested -> root_in J v ->
  exists J',
    owned n0 J' (baseSet_loop h nested path v)
    /\ (forall l, J l -> J' l)
    /\ (forall l, J' l -> J l \/ (length h <= l)%nat)
    /\ take n0 (baseSet_loop h nested path v) = take n0 h
    /\ (length h <= length (baseSet_loop h nested path v))%nat.
Proof.
  induction path as [|key rest IH]; intros h nested v J Hn Hown Hnested Hv.
  - exists J. simpl. split; [exact Hown|]. split; [auto|]. split; [auto|]. split; [reflexivity|lia].
  - cbn [baseSet_loop]. destruct (unsafe_key key).
    { exists J. split; [exact Hown|]. split; [auto|]. split; [auto|]. split; [reflexivity|lia]. }
    destruct rest as [|key' rest'].
    + exists J. split; [by apply owned_assign|]. split; [auto|]. split; [auto|].
      split; [apply take_assign; destruct Hown as [Hdom _]; apply Hdom in Hnested; lia|].
      rewrite length_assign. lia.
    + assert (Hnb : (n0 <= nested < length h)%nat) by (destruct Hown as [Hdom _]; by apply Hdom).
      destruct (obj_get (obj_of h nested) key) as [| | | | |l'|f] eqn:Hget.
      7: { destruct Hown as (_ & _ & Hnf). by destruct (Hnf nested key f Hnested). }
      6: {
        assert (Hl' : J l') by (destruct Hown as (_ & Hcl & _); by eapply Hcl).
        destruct (IH (assign h nested key (VObject l')) l' v J) as (J' & Hown' & Hsub & Hnew & Htake & Hlen).
        - rewrite length_assign. lia.
        - by apply owned_assign.
        - exact Hl'.
        - exact Hv.
        - exists J'. split; [exact Hown'|]. split; [exact Hsub|].
          split; [intros l Hl; rewrite length_assign in Hnew; by apply Hnew|].
          split; [rewrite Htake; apply take_assign; lia|].
          rewrite length_assign in Hlen. exact Hlen. }
      all: unfold alloc; cbv beta iota;
        destruct (IH (assign (h ++ [[]]) nested key (VObject (length h))) (length h) v
                    (fun l => J l \/ l = length h)) as (J' & Hown' & Hsub & Hnew & Htake & Hlen);
        [ rewrite length_assign, length_app; cbn [length]; lia
        | apply owned_assign; [by apply owned_alloc_empty | by left | simpl; by right]
        | by right
        | destruct v; simpl; auto
        | exists J'; split; [exact Hown'|]; split; [intros l Hl; apply Hsub; by left|];
          split; [intros l Hl; apply Hnew in Hl as [[Hl| ->]|Hl];
                   [by left | right; lia
                   | right; rewrite length_assign, length_app in Hl; cbn [length] in Hl; lia]|];
          split; [rewrite Htake, take_assign by lia; by apply take_app_le|];
          rewrite length_assign, length_app in Hlen; cbn [length] in Hlen; lia ].
Qed.


Lemma set_frame (h0 : store) (lb : nat) (root : value) (path : jsstring) (text : jsstring) :
  forall h, item_inv h0 lb root h -> item_inv h0 lb root (set h root path (VString text)).
Proof.
  intros h (Htake & Hlb & J & Hown & HnJ & Hroot).
  destruct root as [| | | | |r|f];
    try (split; [exact Htake|]; split; [exact Hlb|]; exists J;
         split; [exact Hown|]; split; [exact HnJ|exact I]).
  2: destruct Hroot.
  cbn [set root_in] in *.
  destruct (baseSet_loop_frame (length h0) (castPath h path (VObject r)) h r (VString text) J)
    as (J' & Hown' & Hsub & Hnew & Htake' & Hlen); [lia | exact Hown | exact Hroot | exact I |].
  split; [by rewrite Htake'|]. split; [lia|].
  exists J'. split; [exact Hown'|]. split; [|by apply Hsub].
  intros HJ'. apply Hnew in HJ' as [HJ|Hge]; [contradiction | lia].
Qed.

End Frame.


Lemma take_prefix {A : Type} (n0 n1 : nat) (a b : list A) :
  (n0 <= n1)%nat -> take n1 a = take n1 b -> take n0 a = take n0 b.
Proof.
  intros Hn Hab. replace n0 with (Nat.min n0 n1) by lia.
  by rewrite <- !take_take, Hab.
Qed.

Lemma plain_not_function n v : plain_value n v = true -> as_function v = None.
Proof. by destruct v. Qed.

Lemma plain_data_props h l :
  plain_data h = true ->
  Forall (fun kv : jsstring * value => plain_value (length h) (snd kv) = true) (obj_of h l).
Proof.
  unfold plain_data, obj_of. intros Hplain.
  destruct (h !! l) as [o|] eqn:Hl; cbn [default]; [|constructor].
  apply List.Forall_forall. intros kv Hkv.
  assert (Ho : In o h) by (apply list_elem_of_In; by eapply list_elem_of_lookup_2).
  apply (proj1 (forallb_forall _ _) Hplain) in Ho.
  by apply (proj1 (forallb_forall _ _) Ho).
Qed.

Lemma plain_data_get h l key :
  plain_data h = true -> plain_value (length h) (obj_get (obj_of h l) key) = true.
Proof.
  intros Hplain. pose proof (plain_data_props h l Hplain) as Hall.
  induction Hall as [|[k v] o Hv Hall IH]; [reflexivity|].
  cbn [obj_get]. destruct (js_eqb k key); [exact Hv | exact IH].
Qed.

Lemma fresh_closed_none h : fresh_closed (length h) h.
Proof. split; intros l key x Hl; lia. Qed.

Lemma fresh_closed_assign n1 h l k v :
  fresh_closed n1 h -> (n1 <= l < length h)%nat ->
  (forall c, v = VObject c -> (n1 <= c < length h)%nat) -> (forall f, v <> VFunction f) ->
  fresh_closed n1 (assign h l k v).
Proof.
  intros [Hcl Hnf] Hl Hv Hvf. split.
  - intros x key x' Hx Hget. rewrite length_assign in *.
    destruct (decide (l = x)) as [->|Hne].
    + rewrite obj_of_assign_same in Hget by lia.
      apply obj_get_set_inv in Hget as [->|Hget]; [by apply Hv | by eapply Hcl].
    + rewrite obj_of_assign_other in Hget by exact Hne. by eapply Hcl.
  - intros x key f Hx Hget. rewrite length_assign in *.
    destruct (decide (l = x)) as [->|Hne].
    + rewrite obj_of_assign_same in Hget by lia.
      apply obj_get_set_inv in Hget as [->|Hget]; [by destruct (Hvf f) | by eapply Hnf].
    + rewrite obj_of_assign_other in Hget by exact Hne. by eapply Hnf.
Qed.

Lemma fresh_closed_alloc n1 h : (n1 <= length h)%nat ->
  fresh_closed n1 h -> fresh_closed n1 (h ++ [[]]).
Proof.
  intros Hn [Hcl Hnf]. split.
  - intros x key x' Hx Hget. rewrite length_app in *. cbn [length] in *.
    destruct (decide (x = length h)) as [->|Hne].
    + rewrite obj_of_new in Hget. discriminate Hget.
    + rewrite obj_of_app in Hget by lia.
      assert ((n1 <= x' < length h)%nat) by (eapply Hcl; [|exact Hget]; lia). lia.
  - intros x key f Hx Hget. rewrite length_app in *. cbn [length] in *.
    destruct (decide (x = length h)) as [->|Hne].
    + rewrite obj_of_new in Hget. discriminate Hget.
    + rewrite obj_of_app in Hget by lia. eapply Hnf; [|exact Hget]. lia.
Qed.

(** *** [deepCopy] on plain data

    [h0] is the store the run started from; the store of the moment, [h],
    extends it. *)
Section CopyFrame.
Context `{Functions}.
Variable h0 : store.
Hypothesis Hplain : plain_data h0 = true.

Lemma prefix_obj (h : store) (l : nat) :
  take (length h0) h = h0 -> (l < length h0)%nat -> obj_of h l = obj_of h0 l.
Proof.
  intros Htake Hl. unfold obj_of.
  rewrite <- (lookup_take_lt h (length h0) l) by exact Hl. by rewrite Htake.
Qed.

Lemma copy_props_spec (n1 : nat)
    (rec : value -> list (nat * nat) -> store -> result (value * list (nat * nat) * store))
    (clone : nat) (ps : list (jsstring * value)) :
  (length h0 <= n1)%nat ->
  (forall v hash h v' hash' h',
     plain_value (length h0) v = true ->
     (n1 <= length h)%nat -> take (length h0) h = h0 ->
     fresh_closed n1 h -> hash_ok n1 hash h ->
     rec v hash h = Ok (v', hash', h') -> copy_post n1 h v' hash' h') ->
  Forall (fun kv : jsstring * value => plain_value (length h0) (snd kv) = true) ps ->
  forall hash h hash' h',
    (n1 <= clone < length h)%nat -> take (length h0) h = h0 ->
    fresh_closed n1 h -> hash_ok n1 hash h ->
    copy_props rec clone ps hash h = Ok (hash', h') ->
    (length h <= length h')%nat /\ take n1 h' = take n1 h
    /\ fresh_closed n1 h' /\ hash_ok n1 hash' h'.
Proof.
  intros Hn Hrec Hps.
  induction Hps as [|[i v] ps Hv Hps IH]; intros hash h hash' h' Hclone Htake Hcl Hhash Hrun.
  - simpl in Hrun. injection Hrun as <- <-.
    split; [lia|]. split; [reflexivity|]. split; assumption.
  - cbn [copy_props] in Hrun. cbn [snd] in Hv.
    destruct (rec v hash h) as [[[v1 hash1] h1]|e] eqn:Hrv; cbn [bind] in Hrun; [|discriminate].
    assert (Hlen : (n1 <= length h)%nat) by lia.
    destruct (Hrec _ _ _ _ _ _ Hv Hlen Htake Hcl Hhash Hrv)
      as (Hlen1 & Htake1 & Hcl1 & Hhash1 & Hv1 & Hvf1).
    destruct (IH hash1 (assign h1 clone i v1) hash' h') as (Hlen2 & Htake2 & Hcl2 & Hhash2).
    + rewrite length_assign. lia.
    + rewrite take_assign by lia.
      transitivity (take (length h0) h); [by apply (take_prefix _ n1) | exact Htake].
    + apply fresh_closed_assign; [exact Hcl1 | lia | exact Hv1 | exact Hvf1].
    + intros a c Hac. rewrite length_assign. by eapply Hhash1.
    + exact Hrun.
    + rewrite length_assign in Hlen2. split; [lia|].
      split; [rewrite Htake2, take_assign by lia; exact Htake1|]. split; assumption.
Qed.

Lemma deepCopy_spec (n1 : nat) (fuel : nat) :
  (length h0 <= n1)%nat ->
  forall source hash h v hash' h',
    plain_value (length h0) source = true ->
    (n1 <= length h)%nat -> take (length h0) h = h0 ->
    fresh_closed n1 h -> hash_ok n1 hash h ->
    deepCopy fuel source hash h = Ok (v, hash', h') ->
    (forall l, source = VObject l -> exists c, v = VObject c) /\
    copy_post n1 h v hash' h'.
Proof.
  intros Hn0.
  assert (Hsame : forall (source : value) hash h,
    fresh_closed n1 h -> hash_ok n1 hash h ->
    (forall l, source <> VObject l) -> (forall f, source <> VFunction f) ->
    (forall l, source = VObject l -> exists c : nat, source = VObject c) /\
    copy_post n1 h source hash h).
  { intros source hash h Hcl Hhash Hno Hnf. split; [intros l ->; by destruct (Hno l)|].
    split; [lia|]. split; [reflexivity|]. split; [assumption|]. split; [assumption|].
    split; [intros c ->; by destruct (Hno c) | exact Hnf]. }
  assert (Hhit : forall l c hash h,
    fresh_closed n1 h -> hash_ok n1 hash h -> hash_get hash l = Some c ->
    (forall l', VObject l = VObject l' -> exists c' : nat, VObject c = VObject c') /\
    copy_post n1 h (VObject c) hash h).
  { intros l c hash h Hcl Hhash Hget. split; [eauto|].
    split; [lia|]. split; [reflexivity|]. split; [assumption|]. split; [assumption|].
    split; [intros c' [= <-]; by eapply Hhash | discriminate]. }
  induction fuel as [|fuel IH]; intros source hash h v hash' h' Hsrc Hn Htake Hcl Hhash Hrun;
    (destruct source as [| | | | |l|f]; [| | | | | |discriminate Hsrc];
     cbn [deepCopy] in Hrun;
     try (injection Hrun as <- <- <-; by apply Hsame));
    cbn [plain_value] in Hsrc; apply Nat.ltb_lt in Hsrc;
    cbn [prop] in Hrun; rewrite (prefix_obj h l Htake Hsrc) in Hrun;
    rewrite (plain_not_function _ _ (plain_data_get h0 l (js "toJSON") Hplain)) in Hrun;
    (destruct (hash_get hash l) as [c|] eqn:Hget;
     [injection Hrun as <- <- <-; by eapply Hhit|]); [discriminate Hrun|].
  unfold alloc in Hrun. cbv beta iota in Hrun.
  destruct (copy_props (deepCopy fuel) (length h) (obj_of h0 l) ((l, length h) :: hash)
              (h ++ [[]])) as [[hash1 h1]|e] eqn:Hprops; cbn [bind] in Hrun; [|discriminate].
  injection Hrun as <- <- <-. split; [eauto|].
  assert (Hrec : forall v hash h v' hash' h',
             plain_value (length h0) v = true ->
             (n1 <= length h)%nat -> take (length h0) h = h0 ->
             fresh_closed n1 h -> hash_ok n1 hash h ->
             deepCopy fuel v hash h = Ok (v', hash', h') -> copy_post n1 h v' hash' h')
    by (intros; by eapply IH).
  assert (Hclone : (n1 <= length h < length (h ++ [[]]))%nat)
    by (rewrite length_app; cbn [length]; lia).
  assert (Htake0 : take (length h0) (h ++ [[]]) = h0)
    by (rewrite take_app_le by lia; exact Htake).
  assert (Hhash0 : hash_ok n1 ((l, length h) :: hash) (h ++ [[]])).
  { intros a c Hac. rewrite length_app. cbn [length]. cbn [hash_get] in Hac.
    destruct (Nat.eqb l a); [injection Hac as <-; lia|].
    apply Hhash in Hac. lia. }
  destruct (copy_props_spec n1 (deepCopy fuel) (length h) (obj_of h0 l) Hn0 Hrec
              (plain_data_props h0 l Hplain) _ _ _ _
              Hclone Htake0 (fresh_closed_alloc n1 h Hn Hcl) Hhash0 Hprops)
    as (Hlen & Htake1 & Hcl1 & Hhash1).
  rewrite length_app in Hlen. cbn [length] in Hlen.
  split; [lia|]. split; [rewrite Htake1; by apply take_app_le|].
  split; [exact Hcl1|]. split; [exact Hhash1|].
  split; [intros c [= <-]; lia | discriminate].
Qed.

(** *** [deepCopy] returns on plain data

    Every object is cloned once: the sources recorded in [hash] are
    distinct objects of [h0], so a recursion as deep as there are objects
    in [h0] finds nothing left to clone. *)

Lemma hash_get_None (hash : list (nat * nat)) (l : nat) :
  hash_get hash l = None -> ~ In l (map fst hash).
Proof.
  induction hash as [|[a b] hash IH]; cbn [hash_get map fst]; [tauto|].
  destruct (Nat.eqb_spec a l); [discriminate|]. intros Hget [Heq|Hin]; [lia | by apply IH].
Qed.

Lemma hash_wf_length (hash : list (nat * nat)) :
  hash_wf (length h0) hash -> (length hash <= length h0)%nat.
Proof.
  intros [Hnd Hlt].
  transitivity (length (seq 0 (length h0))); [|by rewrite length_seq].
  rewrite <- (length_map fst hash).
  apply submseteq_length, NoDup_submseteq; [exact Hnd|].
  intros a Ha. apply list_elem_of_In, in_seq. apply list_elem_of_In in Ha.
  pose proof (proj1 (List.Forall_forall _ _) Hlt a Ha). cbn beta in *. lia.
Qed.

Lemma copy_props_returns (n1 k : nat)
    (rec : value -> list (nat * nat) -> store -> result (value * list (nat * nat) * store))
    (clone : nat) (ps : list (jsstring * value)) :
  (length h0 <= n1)%nat ->
  (forall v hash h,
     plain_value (length h0) v = true ->
     (n1 <= length h)%nat -> take (length h0) h = h0 ->
     fresh_closed n1 h -> hash_ok n1 hash h ->
     hash_wf (length h0) hash -> (k <= length hash)%nat ->
     exists v' hash' h',
       rec v hash h = Ok (v', hash', h')
       /\ copy_post n1 h v' hash' h'
       /\ hash_wf (length h0) hash' /\ (length hash <= length hash')%nat) ->
  Forall (fun kv : jsstring * value => plain_value (length h0) (snd kv) = true) ps ->
  forall hash h,
    (n1 <= clone < length h)%nat -> take (length h0) h = h0 ->
    fresh_closed n1 h -> hash_ok n1 hash h ->
    hash_wf (length h0) hash -> (k <= length hash)%nat ->
    exists hash' h',
      copy_props rec clone ps hash h = Ok (hash', h')
      /\ hash_wf (length h0) hash' /\ (length hash <= length hash')%nat.
Proof.
  intros Hn Hrec Hps.
  induction Hps as [|[i v] ps Hv Hps IH]; intros hash h Hclone Htake Hcl Hhash Hwf Hk.
  - exists hash, h. split; [reflexivity|]. split; [exact Hwf | lia].
  - cbn [copy_props]. cbn [snd] in Hv.
    destruct (Hrec v hash h Hv ltac:(lia) Htake Hcl Hhash Hwf Hk)
      as (v1 & hash1 & h1 & -> & (Hlen1 & Htake1 & Hcl1 & Hhash1 & Hv1 & Hvf1) & Hwf1 & Hk1).
    cbn [bind].
    destruct (IH hash1 (assign h1 clone i v1)) as (hash' & h' & Hrun & Hwf' & Hk').
    + rewrite length_assign. lia.
    + rewrite take_assign by lia.
      transitivity (take (length h0) h); [by apply (take_prefix _ n1) | exact Htake].
    + apply fresh_closed_assign; [exact Hcl1 | lia | exact Hv1 | exact Hvf1].
    + intros a c Hac. rewrite length_assign. by eapply Hhash1.
    + exact Hwf1.
    + lia.
    + exists hash', h'. split; [exact Hrun|]. split; [exact Hwf' | lia].
Qed.

Lemma deepCopy_returns (n1 : nat) (fuel : nat) :
  (length h0 <= n1)%nat ->
  forall source hash h,
    plain_value (length h0) source = true ->
    (n1 <= length h)%nat -> take (length h0) h = h0 ->
    fresh_closed n1 h -> hash_ok n1 hash h ->
    hash_wf (length h0) hash -> (length h0 < fuel + length hash)%nat ->
    exists v hash' h',
      deepCopy fuel source hash h = Ok (v, hash', h')
      /\ copy_post n1 h v hash' h'
      /\ hash_wf (length h0) hash' /\ (length hash <= length hash')%nat.
Proof.
  intros Hn0.
  assert (Hfull : forall source hash h,
    plain_value (length h0) source = true ->
    (n1 <= length h)%nat -> take (length h0) h = h0 ->
    fresh_closed n1 h -> hash_ok n1 hash h ->
    forall fuel' v hash' h', deepCopy fuel' source hash h = Ok (v, hash', h') ->
    hash_wf (length h0) hash' -> (length hash <= length hash')%nat ->
    exists v0 hash0 h0',
      deepCopy fuel' source hash h = Ok (v0, hash0, h0')
      /\ copy_post n1 h v0 hash0 h0'
      /\ hash_wf (length h0) hash0 /\ (length hash <= length hash0)%nat).
  { intros source hash h Hsrc Hn Htake Hcl Hhash fuel' v hash' h' Hrun Hwf' Hk'.
    exists v, hash', h'. split; [exact Hrun|].
    split; [|by split].
    by destruct (deepCopy_spec n1 fuel' Hn0 _ _ _ _ _ _ Hsrc Hn Htake Hcl Hhash Hrun). }
  induction fuel as [|fuel IH]; intros source hash h Hsrc Hn Htake Hcl Hhash Hwf Hfuel;
    (destruct source as [| | | | |l|f]; [| | | | | |discriminate Hsrc];
     try (eapply Hfull; try eassumption; [reflexivity | lia]));
    cbn [plain_value] in Hsrc; apply Nat.ltb_lt in Hsrc.
  - (* no fuel: the object is among those already cloned *)
    destruct (hash_get hash l) as [c|] eqn:Hget.
    + eapply (Hfull (VObject l)); try eassumption; [by apply Nat.ltb_lt| |lia].
      cbn [deepCopy prop]. rewrite (prefix_obj h l Htake Hsrc).
      rewrite (plain_not_function _ _ (plain_data_get h0 l (js "toJSON") Hplain)).
      by rewrite Hget.
    + exfalso. apply hash_get_None in Hget. destruct Hwf as [Hnd Hlt].
      assert (Hwf' : hash_wf (length h0) ((l, 0%nat) :: hash)).
      { split; cbn [map fst]; [|by constructor].
        constructor; [|exact Hnd]. intros Hin. by apply Hget, list_elem_of_In. }
      apply hash_wf_length in Hwf'. cbn [length] in Hwf'. lia.
  - destruct (hash_get hash l) as [c|] eqn:Hget.
    + eapply (Hfull (VObject l)); try eassumption; [by apply Nat.ltb_lt| |lia].
      cbn [deepCopy prop]. rewrite (prefix_obj h l Htake Hsrc).
      rewrite (plain_not_function _ _ (plain_data_get h0 l (js "toJSON") Hplain)).
      by rewrite Hget.
    + assert (Hwf1 : hash_wf (length h0) ((l, length h) :: hash)).
      { destruct Hwf as [Hnd Hlt]. apply hash_get_None in Hget.
        split; cbn [map fst]; [|by constructor].
        constructor; [|exact Hnd]. intros Hin. by apply Hget, list_elem_of_In. }
      assert (Hhash1 : hash_ok n1 ((l, length h) :: hash) (h ++ [[]])).
      { intros a c Hac. rewrite length_app. cbn [length]. cbn [hash_get] in Hac.
        destruct (Nat.eqb l a); [injection Hac as <-; lia|].
        apply Hhash in Hac. lia. }
      assert (Htake1 : take (length h0) (h ++ [[]]) = h0)
        by (rewrite take_app_le by lia; exact Htake).
      destruct (copy_props_returns n1 (S (length hash)) (deepCopy fuel) (length h)
                  (obj_of h0 l) Hn0) with (hash := (l, length h) :: hash) (h := h ++ [[]])
        as (hash' & h' & Hprops & Hwf' & Hk').
      * intros v hash2 h2 Hv Hn2 Htake2 Hcl2 Hhash2 Hwf2 Hk2.
        apply IH; try assumption. lia.
      * apply (plain_data_props h0 l Hplain).
      * rewrite length_app. cbn [length]. lia.
      * exact Htake1.
      * by apply fresh_closed_alloc.
      * exact Hhash1.
      * exact Hwf1.
      * cbn [length]. lia.
      * eapply (Hfull (VObject l)); try eassumption; [by apply Nat.ltb_lt| |cbn [length] in Hk'; lia].
        cbn [deepCopy prop]. rewrite (prefix_obj h l Htake Hsrc).
        rewrite (plain_not_function _ _ (plain_data_get h0 l (js "toJSON") Hplain)).
        rewrite Hget. unfold alloc. cbv beta iota. rewrite Hprops. reflexivity.
Qed.

End CopyFrame.

Lemma stable_ret {A} (P : store -> Prop) (a : A) : stable P (ret a).
Proof. intros h Hh. exact Hh. Qed.

Lemma stable_throw {A} (P : store -> Prop) (e : error) : stable P (@throw A e).
Proof. intros h Hh. exact Hh. Qed.

Lemma stable_lift {A} (P : store -> Prop) (r : result A) : stable P (lift r).
Proof. intros h Hh. exact Hh. Qed.

Lemma stable_read {A} (P : store -> Prop) (f : store -> A) : stable P (read f).
Proof. intros h Hh. exact Hh. Qed.

Lemma stable_mbind {A B} (P : store -> Prop) (m : M A) (f : A -> M B) :
  stable P m -> (forall a, stable P (f a)) -> stable P (mbind m f).
Proof.
  intros Hm Hf h Hh. unfold mbind. specialize (Hm h Hh).
  destruct (m h) as [h' [a|e]]; simpl in Hm; [by apply Hf | exact Hm].
Qed.

Section FramePipeline.
Context `{IconvCodecs} `{TextPrimitives} `{PathSyntax} `{BinaryHelpers} `{Functions}.

Lemma readSource_store itemIndex it newItemJson newItemBinary r h :
  fst (readSource itemIndex it newItemJson newItemBinary r h) = h.
Proof.
  destruct r as [g name dec strip | g key skip | text | other]; cbn [readSource].
  - assert (Hdecode : forall attachment,
      fst ((mbind (decode_attachment attachment dec strip) (fun text => ret (Some text))) h) = h).
    { intros attachment. unfold mbind, decode_attachment.
      destruct (_ : result jsstring); reflexivity. }
    destruct g.
    + destruct (obj_get (obj_of h newItemBinary) name); try apply Hdecode.
      destruct (match item_binary it with Some b => _ | None => _ end); first [reflexivity | apply Hdecode].
    + destruct (match item_binary it with Some b => _ | None => _ end); first [reflexivity | apply Hdecode].
  - destruct (if truthy _ then _ else _); try reflexivity; destruct skip; reflexivity.
  - reflexivity.
  - reflexivity.
Qed.

Lemma stable_readSource P itemIndex it newItemJson newItemBinary r :
  stable P (readSource itemIndex it newItemJson newItemBinary r).
Proof. intros h Hh. by rewrite readSource_store. Qed.

Lemma stable_writeDestination h0 itemIndex root lb w text :
  stable (item_inv h0 lb root) (writeDestination itemIndex root lb w text).
Proof.
  destruct w as [dest enc add fileName mimeType | key | other]; cbn [writeDestination].
  - apply stable_mbind; [apply stable_lift|].
    intros encoded h (Htake & Hlb & J & Hown & HnJ & Hroot).
    unfold alloc. cbn [fst].
    split; [rewrite take_assign by lia; rewrite take_app_le by lia; exact Htake|].
    split; [rewrite length_assign, length_app; cbn [length]; lia|].
    exists J. split; [|split; assumption].
    apply owned_assign_other; [by apply owned_alloc | exact HnJ].
  - intros h Hh. cbn [write fst]. by apply set_frame.
  - apply stable_throw.
Qed.

Lemma stable_runDataSource h0 itemIndex it root lb ms ds :
  stable (item_inv h0 lb root) (runDataSource itemIndex it root lb ms ds).
Proof.
  unfold runDataSource. apply stable_mbind; [apply stable_readSource|].
  intros [text|]; [|apply stable_ret].
  apply stable_mbind; [apply stable_lift|].
  intros text'. apply stable_writeDestination.
Qed.

Lemma stable_forEach {A} (P : store -> Prop) (f : A -> M unit) (xs : list A) :
  (forall x, stable P (f x)) -> stable P (forEach f xs).
Proof.
  intros Hf. induction xs as [|x xs IH]; cbn [forEach]; [apply stable_ret|].
  apply stable_mbind; [apply Hf | intros _; exact IH].
Qed.

Lemma Object_assign_store (target source : nat) (h : store) (n : nat) :
  (n <= target)%nat ->
  take n (fst (Object_assign target source h)) = take n h
  /\ length (fst (Object_assign target source h)) = length h.
Proof.
  intros Hn. unfold Object_assign. cbn [fst].
  generalize (obj_of h source). intros ps. revert h.
  induction ps as [|[k v] ps IH]; intros h; cbn [fold_left fst snd]; [by split|].
  destruct (IH (assign h target k v)) as [Htake Hlen].
  rewrite Htake, Hlen, take_assign, length_assign by exact Hn. by split.
Qed.

Lemma item_inv_frame h0 lb root h : item_inv h0 lb root h -> take (length h0) h = h0.
Proof. by intros [Htake _]. Qed.

Lemma processItem_frame (h0 : store) (keepOnlySet : bool)
    (groups : list textsWithManipulationsValues) (itemIndex : nat) (it : item) (h : store) :
  plain_data h0 = true -> take (length h0) h = h0 -> (item_json it < length h0)%nat ->
  take (length h) (fst (processItem keepOnlySet groups itemIndex it h)) = h.
Proof.
  intros Hplain Hprefix Hitem.
  assert (Hle : (length h0 <= length h)%nat).
  { rewrite <- Hprefix at 1. rewrite length_take. lia. }
  set (n := length h).
  assert (Htail : forall root hx,
    item_inv h (S n) root hx ->
    item_inv h (S n) root
      (fst (mbind
         (forEach (fun g =>
            forEach (runDataSource itemIndex it root (S n) (manipulations g))
              (dataSources g)) groups)
         (fun _ => mbind (read (fun h => length (obj_of h (S n))))
            (fun binaryKeys =>
               ret (mkOutput root (if Nat.eqb binaryKeys 0 then None else Some (S n))
                      itemIndex))) hx))).
  { intros root hx Hh. revert hx Hh. apply stable_mbind.
    - apply stable_forEach. intros g. apply stable_forEach. intros ds.
      apply stable_runDataSource.
    - intros _. apply stable_mbind; [apply stable_read | intros; apply stable_ret]. }
  assert (Hh2 : take n ((h ++ [[]]) ++ [[]]) = h).
  { rewrite <- app_assoc. apply take_app_length. }
  unfold processItem.
  unfold mbind at 1. unfold alloc at 1. cbv beta iota.
  unfold mbind at 1. unfold alloc at 1. cbv beta iota.
  rewrite length_app. cbn [length]. replace (length h + 1)%nat with (S n) by (unfold n; lia).
  fold n.
  unfold mbind at 1.
  destruct keepOnlySet; cbn [negb].
  - (* keepOnlySet: the output starts from the empty object *)
    cbn [ret]. apply (item_inv_frame h (S n) (VObject n)). apply Htail.
    split; [exact Hh2|]. split; [rewrite !length_app; cbn [length]; unfold n; lia|].
    exists (fun l => l = n). split; [split; [|split]|split; [lia|reflexivity]].
    + intros l ->. rewrite !length_app. cbn [length]. unfold n. lia.
    + intros l key l' -> Hget. unfold n in Hget.
      rewrite obj_of_app, obj_of_new in Hget by (rewrite length_app; cbn [length]; lia).
      discriminate Hget.
    + intros l key f -> Hget. unfold n in Hget.
      rewrite obj_of_app, obj_of_new in Hget by (rewrite length_app; cbn [length]; lia).
      discriminate Hget.
  - (* otherwise: a shallow copy of the attachments and a deep copy of json *)
    unfold mbind at 1.
    set (h2 := (h ++ [[]]) ++ [[]]) in *.
    set (assigned := match item_binary it with
                     | Some b => Object_assign (S n) b
                     | None => ret tt
                     end h2).
    assert (Hassigned : take n (fst assigned) = h /\ length (fst assigned) = S (S n)
                        /\ exists u, snd assigned = Ok u).
    { subst assigned. destruct (item_binary it) as [b|].
      - destruct (Object_assign_store (S n) b h2 n ltac:(lia)) as [Ht Hl].
        rewrite Ht, Hl. split; [exact Hh2|]. split; [|by exists tt].
        subst h2. rewrite !length_app. cbn [length]. unfold n. lia.
      - cbn [ret fst snd]. split; [exact Hh2|]. split; [|by exists tt].
        subst h2. rewrite !length_app. cbn [length]. unfold n. lia. }
    destruct assigned as [h3 r3]. cbn [fst snd] in Hassigned.
    destruct Hassigned as (Htake3 & Hlen3 & u & ->).
    destruct (deepCopy (S (length h3)) (VObject (item_json it)) [] h3)
      as [[[copy hash'] h4]|e] eqn:Hcopy; [|exact Htake3].
    assert (Hhash3 : hash_ok (length h3) [] h3) by (intros a c Hac; discriminate Hac).
    assert (Hprefix3 : take (length h0) h3 = h0).
    { transitivity (take (length h0) h); [|exact Hprefix].
      apply (take_prefix _ n); [exact Hle|]. rewrite Htake3. unfold n. by rewrite firstn_all. }
    assert (Hsrc : plain_value (length h0) (VObject (item_json it)) = true)
      by (by apply Nat.ltb_lt).
    destruct (deepCopy_spec h0 Hplain (length h3) _ ltac:(lia) _ _ _ _ _ _ Hsrc (le_n _)
                Hprefix3 (fresh_closed_none h3) Hhash3 Hcopy)
      as (_ & Hlen4 & Htake4 & [Hcl4 Hnf4] & _ & Hroot4 & Hrootf).
    apply (item_inv_frame h (S n) copy). apply Htail.
    assert (Htake04 : take n h4 = h).
    { rewrite <- Htake3. by apply (take_prefix _ (length h3)); [lia|]. }
    split; [exact Htake04|]. split; [lia|].
    exists (fun l => (length h3 <= l < length h4)%nat).
    split; [split; [|split]|split].
    + intros l Hl. lia.
    + intros l key l' Hl Hget. by eapply Hcl4.
    + intros l key f Hl Hget. by eapply Hnf4.
    + lia.
    + destruct copy; cbn [root_in]; auto. by destruct (Hrootf l).
Qed.

Lemma execute_from_frame (h0 : store) (keepOnlySet : nat -> bool)
    (groups : nat -> list textsWithManipulationsValues) (items : list item) :
  plain_data h0 = true -> Forall (fun it => (item_json it < length h0)%nat) items ->
  forall (itemIndex : nat) (h : store),
  take (length h0) h = h0 ->
  take (length h) (fst (execute_from keepOnlySet groups itemIndex items h)) = h.
Proof.
  intros Hplain Hitems.
  induction Hitems as [|it items Hit Hitems IH]; intros itemIndex h Hprefix;
    cbn [execute_from].
  - cbn [ret fst]. apply firstn_all.
  - unfold mbind at 1.
    pose proof (processItem_frame h0 (keepOnlySet itemIndex) (groups itemIndex) itemIndex it h
                  Hplain Hprefix Hit) as Hitem.
    destruct (processItem (keepOnlySet itemIndex) (groups itemIndex) itemIndex it h)
      as [h1 [out|e]]; cbn [fst] in *; [|exact Hitem].
    unfold mbind at 1.
    assert (Hlen : (length h <= length h1)%nat).
    { rewrite <- Hitem at 1. rewrite length_take. lia. }
    assert (Hle : (length h0 <= length h)%nat).
    { rewrite <- Hprefix at 1. rewrite length_take. lia. }
    assert (Hprefix1 : take (length h0) h1 = h0).
    { transitivity (take (length h0) h); [|exact Hprefix].
      apply (take_prefix _ (length h)); [exact Hle|]. by rewrite Hitem, firstn_all. }
    pose proof (IH (S itemIndex) h1 Hprefix1) as Hrest.
    assert (Hgoal : forall h2, take (length h1) h2 = h1 -> take (length h) h2 = h).
    { intros h2 Hh2. rewrite <- Hitem at 2.
      apply (take_prefix _ (length h1)); [exact Hlen|]. by rewrite Hh2, firstn_all. }
    destruct (execute_from keepOnlySet groups (S itemIndex) items h1) as [h2 [outs|e]];
      cbn [fst ret] in *; by apply Hgoal.
Qed.


End FramePipeline.



(** ** Reading manipulated data *)

Section ReadManipulated.
Context `{IconvCodecs} `{TextPrimitives} `{PathSyntax} `{BinaryHelpers}.

(** [fromFile]: an attachment already committed to the output is decoded in
    preference to the raw one. *)
Lemma fromFile_prefers_committed (itemIndex : nat) (it : item) (newItemJson : value)
    (newItemBinary : nat) (name : jsstring) (dec : string) (strip : option bool)
    (h : store) :
  obj_get (obj_of h newItemBinary) name <> VUndefined ->
  readSource itemIndex it newItemJson newItemBinary (FromFile true name dec strip) h
  = mbind (decode_attachment (obj_get (obj_of h newItemBinary) name) dec strip)
      (fun text => ret (Some text)) h.
Proof.
  intros Hdef. cbn [readSource].
  destruct (obj_get (obj_of h newItemBinary) name); [congruence | reflexivity..].
Qed.

(** [fromFile]: without a committed attachment the raw one is used, and a
    miss in both places skips the source. *)
Lemma fromFile_falls_back_to_raw (itemIndex : nat) (it : item) (newItemJson : value)
    (newItemBinary : nat) (name : jsstring) (dec : string) (strip : option bool)
    (h : store) :
  obj_get (obj_of h newItemBinary) name = VUndefined ->
  readSource itemIndex it newItemJson newItemBinary (FromFile true name dec strip) h
  = readSource itemIndex it newItemJson newItemBinary (FromFile false name dec strip) h.
Proof. intros Hundef. cbn [readSource]. rewrite Hundef. reflexivity. Qed.

(** [fromJSON]: a committed text that is not empty is preferred. *)
Lemma fromJSON_prefers_committed_text (itemIndex : nat) (it : item) (newItemJson : value)
    (newItemBinary : nat) (key : jsstring) (skip : bool) (h : store) (c : N) (s : jsstring) :
  get h newItemJson key = VString (c :: s) ->
  readSource itemIndex it newItemJson newItemBinary (FromJSON true key skip) h
  = (h, Ok (Some (c :: s))).
Proof. intros Hget. cbn [readSource]. rewrite Hget. reflexivity. Qed.

(** [fromJSON]: a committed value that is falsy (absent, but also the empty
    string, [0], [false] and [null]) gives way to the raw value. *)
Lemma fromJSON_falsy_committed_reads_raw (itemIndex : nat) (it : item) (newItemJson : value)
    (newItemBinary : nat) (key : jsstring) (skip : bool) (h : store) :
  truthy (get h newItemJson key) = false ->
  readSource itemIndex it newItemJson newItemBinary (FromJSON true key skip) h
  = readSource itemIndex it newItemJson newItemBinary (FromJSON false key skip) h.
Proof. intros Hfalsy. cbn [readSource]. rewrite Hfalsy. reflexivity. Qed.

End ReadManipulated.

(** C6. A committed empty string is not preferred over the raw value. The
    item is [{data: "raw"}]; a first source commits the text [""] to [data],
    a second source reads [data] in read-manipulated mode and writes it to
    [out]. The output has [data = ""] but [out = "raw"]: the [||] of the
    [fromJSON] branch treats the committed empty string as missing. *)
Theorem read_manipulated_skips_committed_empty_string
    `{TextPrimitives} `{BinaryHelpers} `{Functions} :
  let h0 : store := [[(js "data", VString (js "raw"))]] in
  let groups :=
    [ mkGroup [mkDataSource (FromText []) (ToJSON (js "data"))] [];
      mkGroup [mkDataSource (FromJSON true (js "data") true) (ToJSON (js "out"))] [] ] in
  let run :=
    @processItem internal_codecs _ dotted_paths _ _ false groups 0 (mkItem 0 None) h0 in
  exists out,
    snd run = Ok out
    /\ @get dotted_paths (fst run) (out_json out) (js "data") = VString []
    /\ @get dotted_paths (fst run) (out_json out) (js "out") = VString (js "raw").
Proof.
  cbv zeta. eexists. split; [vm_compute; reflexivity|].
  split; vm_compute; reflexivity.
Qed.

(** ** End to end *)

(** The example of the specification: the item [{data: "  Hello  "}], one
    source [fromJSON data -> toJSON out] with a trim of both ends; the
    input keeps its value and the output gains [out]. *)
Example end_to_end_trim `{TextPrimitives} `{BinaryHelpers} `{Functions} :
  let h0 : store := [[(js "data", VString (js "  Hello  "))]] in
  let groups :=
    [ mkGroup [mkDataSource (FromJSON false (js "data") true) (ToJSON (js "out"))]
        [Trim "trimBoth" true (js " ")] ] in
  let run :=
    @processItem internal_codecs _ dotted_paths _ _ false groups 0 (mkItem 0 None) h0 in
  exists out,
    snd run = Ok out
    /\ @get dotted_paths (fst run) (out_json out) (js "data") = VString (js "  Hello  ")
    /\ @get dotted_paths (fst run) (out_json out) (js "out") = VString (js "Hello")
    /\ @get dotted_paths (fst run) (VObject 0) (js "data") = VString (js "  Hello  ").
Proof.
  cbv zeta. eexists. split; [vm_compute; reflexivity|].
  repeat split; vm_compute; reflexivity.
Qed.

(** * Further properties

    Properties of the helpers and of [execute] beyond the statements above:
    edge cases, round trips, idempotence, and how failures are reported. *)

(** ** Pad, Substring, Repeat, chains and title case *)

(** *** Pad *)

Lemma length_cycle_take (fill : jsstring) :
  fill <> [] -> forall n cur, length (cycle_take n fill cur) = n.
Proof.
  intros Hfill. induction n as [|n IH]; intros cur; [reflexivity|].
  cbn [cycle_take]. destruct cur as [|c cur'].
  - destruct fill as [|c fill']; [congruence|]. cbn [length]. by rewrite IH.
  - cbn [length]. by rewrite IH.
Qed.

Lemma lookup_cycle_take (fill : jsstring) :
  fill <> [] -> forall n cur i c,
  cycle_take n fill cur !! i = Some c ->
  if (i <? length cur)%nat then cur !! i = Some c
  else fill !! ((i - length cur) mod length fill)%nat = Some c.
Proof.
  intros Hfill. induction n as [|n IH]; intros cur i c Hi; [discriminate|].
  cbn [cycle_take] in Hi. destruct cur as [|d cur'].
  - destruct fill as [|d fill'] eqn:Efill; [congruence|]. rewrite <- Efill in *.
    assert (Hlen : length fill = S (length fill')) by (by rewrite Efill).
    destruct i as [|i].
    + cbn in Hi. injection Hi as <-. cbn [length Nat.ltb Nat.leb Nat.sub].
      rewrite Nat.mod_small by lia. by rewrite Efill.
    + cbn [lookup list_lookup] in Hi. change (cycle_take n fill fill' !! i = Some c) in Hi.
      apply IH in Hi. cbn [length Nat.ltb Nat.leb]. rewrite Nat.sub_0_r.
      destruct (Nat.ltb_spec i (length fill')).
      * rewrite Nat.mod_small by lia. by rewrite Efill.
      * replace (S i) with ((i - length fill') + 1 * length fill)%nat by lia.
        by rewrite Nat.Div0.mod_add.
  - destruct i as [|i].
    + cbn in Hi. injection Hi as <-. reflexivity.
    + cbn [lookup list_lookup] in Hi. change (cycle_take n fill cur' !! i = Some c) in Hi.
      apply IH in Hi. cbn [length].
      change (S i <? S (length cur'))%nat with (i <? length cur')%nat.
      destruct (i <? length cur')%nat; [exact Hi|]. exact Hi.
Qed.

(** The padding of a successful Pad: what [pad_filler] adds. *)
Lemma pad_filler_spec (text fill filler : jsstring) (t : Z) :
  pad_filler text t fill = Some filler ->
  fill <> []
  /\ (length filler + length text)%nat = Z.to_nat t
  /\ forall i c, filler !! i = Some c -> fill !! (i mod length fill)%nat = Some c.
Proof.
  unfold pad_filler. destruct (Z.leb_spec (Z.max t 0) (Z.of_nat (length text))); [discriminate|].
  destruct fill as [|f fill'] eqn:Efill; [discriminate|]. rewrite <- Efill.
  assert (Hfill : fill <> []) by (by rewrite Efill).
  intros [= <-]. split; [exact Hfill|]. split.
  - rewrite (length_cycle_take fill Hfill). lia.
  - intros i c Hi. apply (lookup_cycle_take fill Hfill) in Hi.
    cbn [length Nat.ltb Nat.leb] in Hi. by rewrite Nat.sub_0_r in Hi.
Qed.

Lemma pad_filler_none (text fill : jsstring) (t : Z) :
  pad_filler text t fill = None -> fill = [] \/ t <= Z.of_nat (length text).
Proof.
  unfold pad_filler. destruct (Z.leb_spec (Z.max t 0) (Z.of_nat (length text))); [lia|].
  destruct fill; [by left | discriminate].
Qed.

(** X1. A successful Pad never shortens the text: the result is the text
    with a filler before it (padStart) or after it (padEnd); its length is
    the larger of the text's length and the target length, or the text's
    length when the pad string is empty; the filler repeats the pad string
    from its first code unit. *)
Theorem pad_fills_up_to_target (itemIndex : nat) (pad : string) (targetLength : Z)
    (padString text r : jsstring) :
  pad_case itemIndex pad (Some targetLength) padString text = Ok r ->
  0 <= targetLength
  /\ exists filler,
       ((pad = "padStart"%string /\ r = filler ++ text)
        \/ (pad = "padEnd"%string /\ r = text ++ filler))
       /\ length r = match padString with
                     | [] => length text
                     | _ => Nat.max (length text) (Z.to_nat targetLength)
                     end
       /\ forall i c, filler !! i = Some c ->
            padString !! (i mod length padString)%nat = Some c.
Proof.
  unfold pad_case. destruct (Z.ltb_spec targetLength 0) as [|Hpos]; [discriminate|].
  intros Hr. split; [exact Hpos|].
  assert (Hcases : (pad = "padStart"%string /\ r = js_padStart text targetLength padString)
                   \/ (pad = "padEnd"%string /\ r = js_padEnd text targetLength padString)).
  { destruct (String.eqb_spec pad "padStart"); [left; split; congruence|].
    destruct (String.eqb_spec pad "padEnd"); [right; split; congruence|]. discriminate. }
  unfold js_padStart, js_padEnd in Hcases.
  destruct (pad_filler text targetLength padString) as [filler|] eqn:Hfiller.
  - destruct (pad_filler_spec _ _ _ _ Hfiller) as (Hfill & Hlen & Hcycle).
    exists filler. split; [tauto|]. split; [|exact Hcycle].
    assert (Hr' : length r = (length filler + length text)%nat).
    { destruct Hcases as [[_ ->]|[_ ->]]; rewrite length_app; lia. }
    destruct padString; [congruence|]. lia.
  - exists []. split; [rewrite app_nil_r; tauto|]. split; [|intros i c; discriminate].
    assert (Hr' : r = text) by (destruct Hcases as [[_ ->]|[_ ->]]; reflexivity).
    subst r. destruct (pad_filler_none _ _ _ Hfiller) as [->|Hle]; [reflexivity|].
    destruct padString; [reflexivity|]. lia.
Qed.

Lemma pad_fills_up_to_target_witness :
  pad_case 0 "padStart" (Some 5) (js "ab") (js "x") = Ok (js "ababx")
  /\ exists filler,
       (("padStart"%string = "padStart"%string /\ js "ababx" = filler ++ js "x")
        \/ ("padStart"%string = "padEnd"%string /\ js "ababx" = js "x" ++ filler))
       /\ length (js "ababx") = Nat.max (length (js "x")) (Z.to_nat 5)
       /\ forall i c, filler !! i = Some c ->
            js "ab" !! (i mod length (js "ab"))%nat = Some c.
Proof.
  split; [reflexivity|].
  apply (pad_fills_up_to_target 0 "padStart" 5 (js "ab") (js "x") (js "ababx")). reflexivity.
Defined.

(** *** Substring *)

Lemma js_substring_contiguous (s : jsstring) (start : Z) (end_ : option Z) :
  exists a b, s = a ++ js_substring s start end_ ++ b.
Proof.
  unfold js_substring. cbv zeta.
  match goal with
  | |- context [take ?n (drop ?from s)] =>
      exists (take from s), (drop n (drop from s));
      by rewrite (take_drop n), (take_drop from)
  end.
Qed.

(** X3. Whatever the positions, a successful Substring returns a contiguous
    part of the text. *)
Theorem substring_result_is_contiguous (itemIndex : nat) (startPosition : Z) (end_ : string)
    (endPosition : Z) (endLength : option Z) (text r : jsstring) :
  substring_case itemIndex startPosition end_ endPosition endLength text = Ok r ->
  exists a b, text = a ++ r ++ b.
Proof.
  unfold substring_case.
  destruct (String.eqb end_ "complete"); [intros [= <-]; apply js_substring_contiguous|].
  destruct (String.eqb end_ "position"); [intros [= <-]; apply js_substring_contiguous|].
  destruct (String.eqb end_ "length"); [|discriminate].
  destruct endLength as [endLength|]; [|discriminate].
  destruct (endLength <? 0); [discriminate|].
  destruct (startPosition <? 0); intros [= <-]; apply js_substring_contiguous.
Qed.

Lemma substring_result_is_contiguous_witness :
  substring_case 0 2 "length" 0 (Some 3) (js "HelloWorld") = Ok (js "llo")
  /\ exists a b, js "HelloWorld" = a ++ js "llo" ++ b.
Proof.
  split; [reflexivity|].
  apply (substring_result_is_contiguous 0 2 "length" 0 (Some 3)). reflexivity.
Defined.

Lemma js_substring_ordered (s : jsstring) (a b : Z) :
  0 <= a <= b ->
  js_substring s a (Some b) = take (Z.to_nat (b - a)) (drop (Z.to_nat a) s).
Proof.
  intros Hab. unfold js_substring, clamp. cbv zeta.
  destruct (Z.le_gt_cases (Z.of_nat (length s)) a) as [Hlong|Hshort].
  - rewrite !drop_ge by lia. by rewrite !take_nil.
  - replace (Z.min (Z.min (Z.max a 0) (Z.of_nat (length s)))
                   (Z.min (Z.max b 0) (Z.of_nat (length s)))) with a by lia.
    destruct (Z.le_gt_cases b (Z.of_nat (length s))).
    + f_equal. lia.
    + rewrite !take_ge; [reflexivity | rewrite length_drop; lia | rewrite length_drop; lia].
Qed.

(** X4. In [length] mode with a start that is not negative the result is the
    [endLength] code units from [startPosition] on, fewer where the text
    ends before. *)
Theorem substring_length_counts_from_start (itemIndex : nat) (startPosition endPosition
    endLength : Z) (text : jsstring) :
  0 <= startPosition -> 0 <= endLength ->
  substring_case itemIndex startPosition "length" endPosition (Some endLength) text
  = Ok (take (Z.to_nat endLength) (drop (Z.to_nat startPosition) text)).
Proof.
  intros Hstart Hlen. unfold substring_case. cbn [String.eqb Ascii.eqb Bool.eqb].
  destruct (Z.ltb_spec endLength 0); [lia|].
  destruct (Z.ltb_spec startPosition 0); [lia|].
  rewrite js_substring_ordered by lia. do 2 f_equal. lia.
Qed.

Lemma substring_length_counts_from_start_witness :
  0 <= 2 /\ 0 <= 3
  /\ substring_case 0 2 "length" 0 (Some 3) (js "HelloWorld")
     = Ok (take (Z.to_nat 3) (drop (Z.to_nat 2) (js "HelloWorld"))).
Proof.
  split; [lia|]. split; [lia|].
  apply (substring_length_counts_from_start 0 2 0 3 (js "HelloWorld")); lia.
Defined.

(** X5. In [position] mode the two positions are interchangeable: an end
    before the start gives the same part as the positions in order; in
    order and not negative they delimit [start, end); both at or below
    zero give the empty text. *)
Theorem substring_position_swaps_bounds (itemIndex : nat) (a b : Z)
    (endLength : option Z) (text : jsstring) :
  substring_case itemIndex a "position" b endLength text
  = substring_case itemIndex b "position" a endLength text
  /\ (0 <= a <= b ->
      substring_case itemIndex a "position" b endLength text
      = Ok (take (Z.to_nat (b - a)) (drop (Z.to_nat a) text)))
  /\ (a <= 0 -> b <= 0 -> substring_case itemIndex a "position" b endLength text = Ok []).
Proof.
  unfold substring_case. cbn [String.eqb Ascii.eqb Bool.eqb]. split; [|split].
  - unfold js_substring. cbv zeta. by rewrite Z.min_comm, Z.max_comm.
  - intros Hab. by rewrite js_substring_ordered.
  - intros Ha Hb. unfold js_substring, clamp. cbv zeta.
    replace (Z.to_nat _) with 0%nat by lia. reflexivity.
Qed.

Lemma substring_position_swaps_bounds_witness :
  0 <= 2 <= 5
  /\ substring_case 0 5 "position" 2 None (js "HelloWorld") = Ok (js "llo").
Proof.
  split; [lia|].
  rewrite (proj1 (substring_position_swaps_bounds 0 5 2 None (js "HelloWorld"))).
  apply (proj1 (proj2 (substring_position_swaps_bounds 0 2 5 None (js "HelloWorld")))). lia.
Defined.

(** *** Repeat *)

Lemma power_add (n m : nat) (s : jsstring) : power (n + m) s = power n s ++ power m s.
Proof.
  induction n as [|n IH]; [reflexivity|].
  change (S n + m)%nat with (S (n + m)). by rewrite !power_S, IH, app_assoc.
Qed.

Lemma power_mul (n m : nat) (s : jsstring) : power m (power n s) = power (n * m) s.
Proof.
  induction m as [|m IH].
  - by rewrite Nat.mul_0_r.
  - rewrite power_S, IH, <- power_add. f_equal. lia.
Qed.

Lemma length_power (n : nat) (s : jsstring) : length (power n s) = (n * length s)%nat.
Proof.
  induction n as [|n IH]; [reflexivity|]. rewrite power_S, length_app, IH. lia.
Qed.

(** X6. As long as the first result fits the platform's string limit,
    Repeat [a] times and then [b] times is Repeat [a * b] times: both give
    the same text, or both the [RangeError] of a result past the limit;
    and the first Repeat makes the length [a] times as large. *)
Theorem repeat_twice_multiplies (limit : Z) (itemIndex : nat) (a b : Z) (text : jsstring) :
  0 <= a -> 0 <= b -> Z.of_nat (length text) * a <= limit ->
  (r <- repeat_case limit itemIndex (Some a) text ;; repeat_case limit itemIndex (Some b) r)
  = repeat_case limit itemIndex (Some (a * b)) text
  /\ exists r, repeat_case limit itemIndex (Some a) text = Ok r
       /\ length r = (Z.to_nat a * length text)%nat.
Proof.
  intros Ha Hb Hfits. unfold repeat_case, js_repeat.
  destruct (Z.ltb_spec a 0); [lia|]. destruct (Z.ltb_spec b 0); [lia|].
  destruct (Z.ltb_spec (a * b) 0); [lia|].
  destruct (Z.leb_spec (Z.of_nat (length text) * a) limit); [|lia]. cbn [bind].
  repeat match goal with
         | |- context [concat (replicate ?n ?s)] =>
             change (concat (replicate n s)) with (power n s)
         end.
  split; [|eexists; split; [reflexivity | apply length_power]].
  rewrite length_power.
  replace (Z.of_nat (Z.to_nat a * length text) * b)
    with (Z.of_nat (length text) * (a * b)) by (rewrite Nat2Z.inj_mul, Z2Nat.id by lia; ring).
  destruct (Z.leb_spec (Z.of_nat (length text) * (a * b)) limit); [|reflexivity].
  rewrite power_mul. do 2 f_equal. lia.
Qed.

Lemma repeat_twice_multiplies_witness :
  (r <- repeat_case 536870888 0 (Some 2) (js "ab") ;; repeat_case 536870888 0 (Some 3) r)
  = repeat_case 536870888 0 (Some (2 * 3)) (js "ab")
  /\ repeat_case 536870888 0 (Some (2 * 3)) (js "ab") = Ok (js "abababababab").
Proof.
  split; [|reflexivity].
  apply (repeat_twice_multiplies 536870888 0 2 3 (js "ab")); cbn; lia.
Defined.

(** *** The chain of manipulations *)

(** X7. The chain of manipulations can be cut anywhere: running
    [ms1 ++ ms2] is running [ms1] and then [ms2] on its result, and a
    failure in [ms1] is the failure of the whole chain. *)
Theorem applyAll_app `{IconvCodecs} `{TextPrimitives} (itemIndex : nat)
    (ms1 ms2 : list manipulation) (text : jsstring) :
  applyAll itemIndex text (ms1 ++ ms2)
  = (text' <- applyAll itemIndex text ms1 ;; applyAll itemIndex text' ms2).
Proof.
  revert text. induction ms1 as [|m ms1 IH]; intros text; [reflexivity|].
  cbn [app applyAll]. destruct (apply itemIndex text m); [apply IH | reflexivity].
Qed.

(** *** Title case *)

Lemma split_on_segments (sep : N) (s : jsstring) :
  forall cur seg,
  forallb (fun c => negb (cu_eqb c sep)) cur = true ->
  In seg (split_on sep cur s) -> forallb (fun c => negb (cu_eqb c sep)) seg = true.
Proof.
  induction s as [|c s IH]; intros cur seg Hcur; cbn [split_on].
  - intros [<-|[]]. apply forallb_forall. intros x Hx. apply in_rev in Hx.
    by apply (proj1 (forallb_forall _ _) Hcur).
  - destruct (cu_eqb c sep) eqn:Hc.
    + intros [<-|Hin]; [|by apply (IH [])].
      apply forallb_forall. intros x Hx. apply in_rev in Hx.
      by apply (proj1 (forallb_forall _ _) Hcur).
    + apply IH. cbn [forallb]. by rewrite Hc, Hcur.
Qed.

Lemma split_on_cons (sep : N) (s : jsstring) :
  forall cur, exists p rest, split_on sep cur s = p :: rest.
Proof.
  induction s as [|c s IH]; intros cur; cbn [split_on]; [by eexists _, _|].
  destruct (cu_eqb c sep); [by eexists _, _ | apply IH].
Qed.

Lemma join_split_on (sep : N) (s : jsstring) :
  forall cur, join [sep] (split_on sep cur s) = rev cur ++ s.
Proof.
  induction s as [|c s IH]; intros cur; cbn [split_on].
  - cbn [join]. by rewrite app_nil_r.
  - destruct (cu_eqb c sep) eqn:Hc.
    + apply cu_eqb_eq in Hc. subst c.
      destruct (split_on_cons sep s []) as (p & rest & Hsplit).
      specialize (IH []). rewrite Hsplit in *. cbn [join]. cbn [join] in IH.
      rewrite IH. reflexivity.
    + rewrite IH. cbn [rev]. by rewrite <- app_assoc.
Qed.

(** X8. Title case splits the text at every single space, capitalizes each
    piece and puts the same spaces back: the pieces joined by a space are
    the text, and no piece contains a space. *)
Theorem titlecase_capitalizes_each_word `{IconvCodecs} `{TextPrimitives}
    (itemIndex : nat) (language text : jsstring) :
  exists words,
    join (js " ") words = text
    /\ (forall w, In w words -> forallb (fun c => negb (cu_eqb c (ch " "))) w = true)
    /\ letterCase itemIndex "titlecase" language text
       = Ok (join (js " ") (map capitalize words)).
Proof.
  exists (split_on (ch " ") [] text). split; [apply (join_split_on (ch " "))|].
  split; [|reflexivity].
  intros w. by apply split_on_segments.
Qed.

(** *** Padding twice *)

Lemma pad_filler_done (text fill filler : jsstring) (t : Z) (r : jsstring) :
  pad_filler text t fill = Some filler -> length r = (length filler + length text)%nat ->
  pad_filler r t fill = None.
Proof.
  intros Hfiller Hr. destruct (pad_filler_spec _ _ _ _ Hfiller) as (_ & Hlen & _).
  unfold pad_filler in *.
  destruct (Z.leb_spec (Z.max t 0) (Z.of_nat (length text))); [discriminate|].
  destruct (Z.leb_spec (Z.max t 0) (Z.of_nat (length r))); [reflexivity | lia].
Qed.

(** X2. Padding is idempotent: the same Pad applied to its own result changes
    nothing. *)
Theorem pad_twice_is_pad_once (itemIndex : nat) (pad : string) (targetLength : option Z)
    (padString text r : jsstring) :
  pad_case itemIndex pad targetLength padString text = Ok r ->
  pad_case itemIndex pad targetLength padString r = Ok r.
Proof.
  unfold pad_case. destruct targetLength as [t|]; [|discriminate].
  destruct (t <? 0); [discriminate|].
  unfold js_padStart, js_padEnd.
  destruct (pad_filler text t padString) as [filler|] eqn:Hfiller.
  - destruct (String.eqb pad "padStart").
    + intros [= <-]. by rewrite (pad_filler_done text padString filler t)
        by (exact Hfiller || by rewrite length_app).
    + destruct (String.eqb pad "padEnd"); [|discriminate].
      intros [= <-]. by rewrite (pad_filler_done text padString filler t)
        by (exact Hfiller || (rewrite length_app; lia)).
  - destruct (String.eqb pad "padStart"); [intros [= <-]; by rewrite Hfiller|].
    destruct (String.eqb pad "padEnd"); [intros [= <-]; by rewrite Hfiller | discriminate].
Qed.

Lemma pad_twice_is_pad_once_witness :
  pad_case 0 "padEnd" (Some 4%Z) (js "ab") (js "x") = Ok (js "xaba")
  /\ pad_case 0 "padEnd" (Some 4%Z) (js "ab") (js "xaba") = Ok (js "xaba").
Proof.
  split; [reflexivity|].
  apply (pad_twice_is_pad_once 0 "padEnd" (Some 4%Z) (js "ab") (js "x")). reflexivity.
Defined.

(** ** Trim *)

(** *** Per-character trim *)

Lemma charsStartIndex_le s chars : (charsStartIndex s chars <= length s)%nat.
Proof.
  induction s as [|c s IH]; [reflexivity|]. cbn [charsStartIndex length].
  destruct (baseIndexOf chars c); lia.
Qed.

Lemma charsStartIndex_listed s chars c :
  In c (take (charsStartIndex s chars) s) -> baseIndexOf chars c = true.
Proof.
  induction s as [|d s IH]; [intros []|]. cbn [charsStartIndex].
  destruct (baseIndexOf chars d) eqn:Hd; [|intros []].
  cbn [take]. intros [<-|Hin]; [exact Hd | by apply IH].
Qed.

Lemma charsStartIndex_stops s chars c rest :
  drop (charsStartIndex s chars) s = c :: rest -> baseIndexOf chars c = false.
Proof.
  induction s as [|d s IH]; [discriminate|]. cbn [charsStartIndex].
  destruct (baseIndexOf chars d) eqn:Hd.
  - cbn [drop]. apply IH.
  - cbn [drop]. by intros [= <- _].
Qed.

Lemma charsStartIndex_app x y chars :
  (charsStartIndex x chars < length x)%nat ->
  charsStartIndex (x ++ y) chars = charsStartIndex x chars.
Proof.
  induction x as [|c x IH]; cbn [charsStartIndex length app]; [lia|].
  destruct (baseIndexOf chars c); [|reflexivity]. intros Hlt. f_equal. apply IH. lia.
Qed.

Lemma charsStartIndex_unlisted s chars c :
  In c s -> baseIndexOf chars c = false -> (charsStartIndex s chars < length s)%nat.
Proof.
  induction s as [|d s IH]; [intros []|]. cbn [charsStartIndex length].
  intros [->|Hin] Hc.
  - rewrite Hc. lia.
  - destruct (baseIndexOf chars d); [|lia]. specialize (IH Hin Hc). lia.
Qed.

Lemma baseIndexOf_In chars c : baseIndexOf chars c = true <-> In c chars.
Proof.
  unfold baseIndexOf. rewrite existsb_exists. split.
  - intros (x & Hx & Heq). apply cu_eqb_eq in Heq. by subst.
  - intros Hin. exists c. split; [exact Hin | apply cu_eqb_refl].
Qed.

(** What is left after dropping the trailing listed symbols. *)
Lemma charsEndIndex_spec (m chars : jsstring) :
  let e := charsEndIndex_succ m chars in
  (forall c, In c (drop e m) -> In c chars)
  /\ (forall c r', take e m = r' ++ [c] -> ~ In c chars)
  /\ (e <= length m)%nat
  /\ (forall c, In c m -> ~ In c chars -> (0 < e)%nat).
Proof.
  cbv zeta. unfold charsEndIndex_succ.
  pose proof (charsStartIndex_le (rev m) chars) as Hle. rewrite length_rev in Hle.
  set (t := charsStartIndex (rev m) chars) in *.
  split; [|split; [|split]].
  - intros c Hin. apply baseIndexOf_In. apply (charsStartIndex_listed (rev m)). fold t.
    rewrite firstn_rev. by apply in_rev in Hin.
  - intros c r' Hr' Hin. apply baseIndexOf_In in Hin.
    assert (Hrev : drop t (rev m) = c :: rev r').
    { rewrite skipn_rev, Hr', rev_app_distr. reflexivity. }
    apply charsStartIndex_stops in Hrev. congruence.
  - lia.
  - intros c Hin Hc.
    assert (t < length (rev m))%nat; [|rewrite length_rev in *; lia].
    apply (charsStartIndex_unlisted _ _ c); [by apply in_rev in Hin|].
    destruct (baseIndexOf chars c) eqn:E; [|reflexivity].
    by apply baseIndexOf_In in E.
Qed.

Lemma lodash_trim_with_Ok bounds (text chars : jsstring) :
  hasUnicode text = false -> hasUnicode chars = false ->
  text <> [] -> chars <> [] ->
  lodash_trim_with bounds text chars
  = Ok (let '(start, end_) := bounds text chars in slice text start end_).
Proof.
  intros Ht Hc Hne Hne'. unfold lodash_trim_with, stringToArray.
  destruct text; [congruence|]. destruct chars; [congruence|].
  rewrite Ht, Hc. cbn [bind]. by destruct (bounds _ _).
Qed.

Lemma lodash_trim_with_trivial bounds (text chars : jsstring) :
  text = [] \/ chars = [] -> lodash_trim_with bounds text chars = Ok text.
Proof.
  unfold lodash_trim_with. intros [->| ->]; [reflexivity|]. by destruct text.
Qed.

Lemma lodash_trimStart_parts (text chars : jsstring) :
  hasUnicode text = false -> hasUnicode chars = false ->
  exists a r, lodash_trimStart text chars = Ok r /\ text = a ++ r
    /\ (forall c, In c a -> In c chars)
    /\ (forall c r', r = c :: r' -> ~ In c chars).
Proof.
  intros Ht Hc.
  destruct (decide (text = [] \/ chars = [])) as [Htriv|Hnon].
  - exists [], text. unfold lodash_trimStart. rewrite lodash_trim_with_trivial by exact Htriv.
    split; [reflexivity|]. split; [reflexivity|]. split; [intros c Hin; destruct Hin|].
    intros c r' -> Hin. destruct Htriv as [? | ->]; [discriminate | destruct Hin].
  - unfold lodash_trimStart. rewrite lodash_trim_with_Ok by tauto.
    set (n := charsStartIndex text chars).
    exists (take n text), (drop n text). split.
    + f_equal. unfold slice. apply take_ge. rewrite length_drop. lia.
    + split; [by rewrite take_drop|]. split.
      * intros c Hin. apply baseIndexOf_In. by apply (charsStartIndex_listed text).
      * intros c r' Hr Hin. apply charsStartIndex_stops in Hr. apply baseIndexOf_In in Hin.
        congruence.
Qed.

Lemma lodash_trimEnd_parts (text chars : jsstring) :
  hasUnicode text = false -> hasUnicode chars = false ->
  exists r b, lodash_trimEnd text chars = Ok r /\ text = r ++ b
    /\ (forall c, In c b -> In c chars)
    /\ (forall c r', r = r' ++ [c] -> ~ In c chars).
Proof.
  intros Ht Hc.
  destruct (decide (text = [] \/ chars = [])) as [Htriv|Hnon].
  - exists text, []. unfold lodash_trimEnd. rewrite lodash_trim_with_trivial by exact Htriv.
    split; [reflexivity|]. split; [by rewrite app_nil_r|]. split; [intros c Hin; destruct Hin|].
    intros c r' -> Hin. destruct Htriv as [Hnil | ->]; [by destruct r' | destruct Hin].
  - unfold lodash_trimEnd. rewrite lodash_trim_with_Ok by tauto.
    destruct (charsEndIndex_spec text chars) as (Hb & Hr & Hle & _).
    set (e := charsEndIndex_succ text chars) in *.
    exists (take e text), (drop e text). split.
    + f_equal. unfold slice. by rewrite Nat.sub_0_r.
    + split; [by rewrite take_drop|]. split; [exact Hb | exact Hr].
Qed.

Lemma lodash_trim_parts (text chars : jsstring) :
  hasUnicode text = false -> hasUnicode chars = false ->
  exists a r b, lodash_trim text chars = Ok r /\ text = a ++ r ++ b
    /\ (forall c, In c a -> In c chars)
    /\ (forall c, In c b -> In c chars)
    /\ (forall c r', r = c :: r' -> ~ In c chars)
    /\ (forall c r', r = r' ++ [c] -> ~ In c chars)
    /\ (r = [] -> b = []).
Proof.
  intros Ht Hc.
  destruct (decide (text = [] \/ chars = [])) as [Htriv|Hnon].
  - exists [], text, []. unfold lodash_trim. rewrite lodash_trim_with_trivial by exact Htriv.
    split; [reflexivity|]. split; [by rewrite app_nil_r|].
    split; [intros c Hin; destruct Hin|]. split; [intros c Hin; destruct Hin|].
    split; [|split; [|done]].
    + intros c r' -> Hin. destruct Htriv as [? | ->]; [discriminate | destruct Hin].
    + intros c r' -> Hin. destruct Htriv as [Hnil | ->]; [by destruct r' | destruct Hin].
  - unfold lodash_trim. rewrite lodash_trim_with_Ok by tauto.
    destruct (charsEndIndex_spec text chars) as (Hb & Hr & Hle & Hpos).
    set (e := charsEndIndex_succ text chars) in *.
    set (n := charsStartIndex text chars).
    pose proof (charsStartIndex_le text chars) as Hn. fold n in Hn.
    assert (Ha : forall c, In c (take n text) -> In c chars).
    { intros c Hin. apply baseIndexOf_In. by apply (charsStartIndex_listed text). }
    destruct (Nat.le_gt_cases e n) as [Hen|Hne].
    + (* everything is listed *)
      assert (Hall : forall c, In c text -> In c chars).
      { intros c Hin. destruct (in_dec N.eq_dec c chars) as [|Hout]; [done|]. exfalso.
        pose proof (Hpos c Hin Hout) as He.
        destruct (take e text) as [|x l] eqn:Htake using rev_ind.
        - apply (f_equal length) in Htake. rewrite length_take in Htake.
          cbn [length] in Htake. lia.
        - apply (Hr x l eq_refl). apply Ha.
          replace (take n text) with (take e text ++ drop e (take n text)).
          + rewrite Htake. apply in_or_app. left. apply in_or_app. right. by left.
          + rewrite <- (take_drop e (take n text)) at 2. f_equal.
            rewrite take_take. f_equal. lia. }
      exists text, [], []. split.
      * f_equal. unfold slice. replace (e - n)%nat with 0%nat by lia. reflexivity.
      * split; [by rewrite app_nil_r|]. split; [exact Hall|]. split; [intros c Hin; destruct Hin|].
        split; [discriminate|]. split; [intros c r'; by destruct r'|done].
    + exists (take n text), (take (e - n) (drop n text)), (drop e text).
      split; [reflexivity|].
      assert (Hsplit : take e text = take n text ++ take (e - n) (drop n text)).
      { rewrite <- (take_drop n (take e text)). f_equal.
        - rewrite take_take. f_equal. lia.
        - by rewrite skipn_firstn_comm. }
      split.
      { rewrite app_assoc, <- Hsplit. by rewrite take_drop. }
      split; [exact Ha|]. split; [exact Hb|]. split; [|split].
      * intros c r' Hhead Hin.
        destruct (drop n text) as [|x rest] eqn:Hdrop.
        { rewrite take_nil in Hhead. discriminate. }
        destruct (e - n)%nat eqn:Hd; [lia|]. cbn [take] in Hhead. injection Hhead as -> _.
        apply charsStartIndex_stops in Hdrop. apply baseIndexOf_In in Hin. congruence.
      * intros c r' Hlast. apply (Hr c (take n text ++ r')).
        by rewrite Hsplit, Hlast, app_assoc.
      * intros Hnil. apply (f_equal length) in Hnil.
        rewrite length_take, length_drop in Hnil. cbn [length] in Hnil. lia.
Qed.

(** X9. On a text and a trim string that lodash splits into code units
    (neither holds a surrogate, a combining mark, a variation selector or a
    zero-width joiner), per-character trim returns, and it removes, at the
    affected end or ends, the longest run of code units that occur in the
    trim string: what is removed is made of listed code units only, and
    what is left neither starts (trimBoth, trimStart) nor ends (trimBoth,
    trimEnd) with a listed code unit. *)
Theorem per_character_trim_strips_listed_units (itemIndex : nat) (mode : string)
    (chars text : jsstring) :
  In mode ["trimBoth"; "trimStart"; "trimEnd"]%string ->
  hasUnicode text = false -> hasUnicode chars = false ->
  exists r a b,
    trim_case itemIndex mode false chars text = Ok r
    /\ text = a ++ r ++ b
    /\ (forall c, In c a -> In c chars) /\ (forall c, In c b -> In c chars)
    /\ (mode = "trimEnd"%string -> a = []) /\ (mode = "trimStart"%string -> b = [])
    /\ (mode <> "trimEnd"%string -> forall c r', r = c :: r' -> ~ In c chars)
    /\ (mode <> "trimStart"%string -> forall c r', r = r' ++ [c] -> ~ In c chars).
Proof.
  intros Hmode Ht Hc. unfold trim_case.
  destruct Hmode as [<-|[<-|[<-|[]]]]; cbn [String.eqb Ascii.eqb Bool.eqb].
  - destruct (lodash_trim_parts text chars Ht Hc)
      as (a & r & b & Hr & Htext & Ha & Hb & Hhead & Hlast & _).
    exists r, a, b. split; [exact Hr|]. split; [exact Htext|]. split; [exact Ha|].
    split; [exact Hb|]. split; [discriminate|]. split; [discriminate|].
    split; intros _; assumption.
  - destruct (lodash_trimStart_parts text chars Ht Hc) as (a & r & Hr & Htext & Ha & Hhead).
    exists r, a, []. split; [exact Hr|]. split; [by rewrite app_nil_r|]. split; [exact Ha|].
    split; [intros c Hin; destruct Hin|]. split; [discriminate|]. split; [done|].
    split; [intros _; exact Hhead | congruence].
  - destruct (lodash_trimEnd_parts text chars Ht Hc) as (r & b & Hr & Htext & Hb & Hlast).
    exists r, [], b. split; [exact Hr|]. split; [exact Htext|].
    split; [intros c Hin; destruct Hin|].
    split; [exact Hb|]. split; [done|]. split; [discriminate|].
    split; [congruence | intros _; exact Hlast].
Qed.

Lemma per_character_trim_strips_listed_units_witness :
  exists r a b,
    trim_case 0 "trimBoth" false (js "ab") (js "ababXab") = Ok r
    /\ js "ababXab" = a ++ r ++ b
    /\ (forall c, In c a -> In c (js "ab")) /\ (forall c, In c b -> In c (js "ab")).
Proof.
  destruct (per_character_trim_strips_listed_units 0 "trimBoth" (js "ab") (js "ababXab"))
    as (r & a & b & Hr & Htext & Ha & Hb & _);
    [cbn; tauto | reflexivity | reflexivity |].
  exists r, a, b. split; [exact Hr|]. split; [exact Htext|]. split; [exact Ha | exact Hb].
Defined.

(** *** As-unit trim with an empty trim string *)

Lemma rmatch_empty_group g d st :
  rmatch global_flags (RGroup g REmpty) d st
  = d (with_caps st (<[pred g := Some (m_pos st, m_pos st)]> (m_caps st))).
Proof. reflexivity. Qed.

(** [()+]: the one mandatory iteration matches the empty string, a second
    empty iteration is rejected. *)
Lemma empty_group_loop g k pos rest prev caps :
  repeat_loop (rmatch global_flags (RGroup g REmpty)) [g] true (1 + length rest + 1) 1 None k
    (mkState pos rest prev caps)
  = k (mkState pos rest prev (<[pred g := Some (pos, pos)]> (<[pred g := None]> caps))).
Proof.
  replace (1 + length rest + 1)%nat with (S (S (length rest))) by lia.
  rewrite repeat_loop_greedy_step. cbv zeta.
  change (negb (Nat.eqb 1 0)) with true. cbv iota.
  rewrite rmatch_empty_group. unfold with_caps. cbn [m_pos m_caps m_rest m_prev].
  change (Nat.eqb 1 0) with false. cbn [andb pred].
  rewrite repeat_loop_greedy_step. cbv zeta.
  change (negb (Nat.eqb 0 0)) with false. cbv iota.
  rewrite rmatch_empty_group. unfold with_caps. cbn [m_pos m_caps m_rest m_prev].
  rewrite !Nat.eqb_refl. reflexivity.
Qed.

Lemma try_at_start_empty pos rest :
  try_at (re_start []) pos None rest = Some (mkState pos rest None [Some (pos, pos)]).
Proof.
  change (try_at (re_start []) pos None rest)
    with (repeat_loop (rmatch global_flags (RGroup 1 REmpty)) [1%nat] true
            (1 + length rest + 1) 1 None Some (mkState pos rest None [None])).
  by rewrite empty_group_loop.
Qed.

Lemma try_at_end_empty pos prev rest :
  try_at (re_end []) pos prev rest
  = match rest with
    | [] => Some (mkState pos [] prev [Some (pos, pos)])
    | _ :: _ => None
    end.
Proof.
  change (try_at (re_end []) pos prev rest)
    with (repeat_loop (rmatch global_flags (RGroup 1 REmpty)) [1%nat] true
            (1 + length rest + 1) 1 None (rmatch global_flags REol Some)
            (mkState pos rest prev [None])).
  rewrite empty_group_loop. by destruct rest.
Qed.

Lemma try_at_both_empty pos prev rest :
  try_at (re_both []) pos prev rest
  = match prev with
    | None => Some (mkState pos rest None [Some (pos, pos); None])
    | Some _ =>
        match rest with
        | [] => Some (mkState pos [] prev [None; Some (pos, pos)])
        | _ :: _ => None
        end
    end.
Proof.
  destruct prev as [c|].
  - change (try_at (re_both []) pos (Some c) rest)
      with (repeat_loop (rmatch global_flags (RGroup 2 REmpty)) [2%nat] true
              (1 + length rest + 1) 1 None (rmatch global_flags REol Some)
              (mkState pos rest (Some c) [None; None])).
    rewrite empty_group_loop. by destruct rest.
  - change (try_at (re_both []) pos None rest)
      with (match repeat_loop (rmatch global_flags (RGroup 1 REmpty)) [1%nat] true
                    (1 + length rest + 1) 1 None Some (mkState pos rest None [None; None]) with
            | Some z => Some z
            | None => rmatch global_flags
                        (RSeq (RRepeat (RGroup 2 REmpty) 1 None true) REol) Some
                        (mkState pos rest None [None; None])
            end).
    by rewrite empty_group_loop.
Qed.

(** Only the end of the text is matched by [()+$]. *)
Lemma scan_to_end (re : RegExp) (caps : nat -> list (option (nat * nat))) :
  f_sticky (re_flags re) = false ->
  (forall pos c rest,
     try_at re pos (Some c) rest
     = match rest with
       | [] => Some (mkState pos [] (Some c) (caps pos))
       | _ :: _ => None
       end) ->
  forall rest pos c,
  exists prev', scan re pos (Some c) rest
    = Some ((pos + length rest)%nat, mkState (pos + length rest) [] prev' (caps (pos + length rest)%nat)).
Proof.
  intros Hsticky Htry. induction rest as [|x rest IH]; intros pos c.
  - exists (Some c). rewrite scan_unfold, Htry. cbn [length]. by rewrite Nat.add_0_r.
  - destruct (IH (S pos) x) as [prev' Hscan]. exists prev'.
    rewrite scan_unfold, Htry, Hsticky, Hscan. cbn [length]. by rewrite Nat.add_succ_r.
Qed.

Lemma replace_loop_to_end (re : RegExp) (caps : nat -> list (option (nat * nat))) :
  f_sticky (re_flags re) = false -> f_global (re_flags re) = true ->
  (forall pos c rest,
     try_at re pos (Some c) rest
     = match rest with
       | [] => Some (mkState pos [] (Some c) (caps pos))
       | _ :: _ => None
       end) ->
  forall fuel s pos c rest emitted,
  (pos + length rest)%nat = length s ->
  replace_loop (S fuel) re s (fun m => get_substitution s m []) emitted pos (Some c) rest
  = drop emitted s.
Proof.
  intros Hsticky Hglobal Htry fuel s pos c rest emitted Hlen.
  destruct (scan_to_end re caps Hsticky Htry rest pos c) as [prev' Hscan].
  rewrite replace_loop_unfold, Hscan. cbv zeta. cbn [m_pos m_rest m_caps].
  rewrite Hglobal, Nat.eqb_refl, get_substitution_nil, app_nil_r, Hlen.
  unfold slice. rewrite drop_all, app_nil_r. apply take_ge. rewrite length_drop. lia.
Qed.

Lemma replace_start_empty text : regexp_replace (re_start []) text [] = text.
Proof.
  unfold regexp_replace, regexp_replace_with.
  rewrite replace_loop_unfold, scan_unfold, try_at_start_empty. cbv zeta.
  cbn [m_pos m_rest m_caps re_start re_flags global_flags f_global Nat.eqb].
  rewrite get_substitution_nil. destruct text as [|c rest]; [reflexivity|].
  rewrite replace_loop_no_match by apply scan_start_later. reflexivity.
Qed.

Lemma replace_end_empty text : regexp_replace (re_end []) text [] = text.
Proof.
  unfold regexp_replace, regexp_replace_with.
  destruct text as [|c rest]; [reflexivity|].
  rewrite replace_loop_unfold, scan_unfold, try_at_end_empty.
  cbn [re_end re_flags global_flags f_sticky].
  destruct (scan_to_end (re_end []) (fun p => [Some (p, p)]) eq_refl
              (fun pos c rest => try_at_end_empty pos (Some c) rest) rest 1 c) as [prev' ->].
  cbv zeta. cbn [m_pos m_rest m_caps f_global]. rewrite Nat.eqb_refl, get_substitution_nil.
  change (1 + length rest)%nat with (length (c :: rest)).
  by rewrite slice_whole, drop_all, !app_nil_r.
Qed.

Lemma replace_both_empty text : regexp_replace (re_both []) text [] = text.
Proof.
  unfold regexp_replace, regexp_replace_with.
  rewrite replace_loop_unfold, scan_unfold, try_at_both_empty. cbv zeta.
  cbn [m_pos m_rest m_caps re_both re_flags global_flags f_global Nat.eqb].
  rewrite get_substitution_nil. destruct text as [|c rest]; [reflexivity|].
  cbn [length].
  rewrite (replace_loop_to_end (re_both []) (fun p => [None; Some (p, p)]) eq_refl eq_refl
             (fun pos c rest => try_at_both_empty pos (Some c) rest)) by reflexivity.
  reflexivity.
Qed.

Lemma charsTrim_empty text :
  charsTrimStart text [] = Ok text /\ charsTrimEnd text [] = Ok text
  /\ charsTrim text [] = Ok text.
Proof.
  unfold charsTrimStart, charsTrimEnd, charsTrim, with_RegExp.
  change (escapeRegExp []) with (@nil N). cbn [js_eqb].
  change (new_RegExp (js "^(" ++ [] ++ js ")+") (js "g")) with (Some (re_start [])).
  change (new_RegExp (js "(" ++ [] ++ js ")+$") (js "g")) with (Some (re_end [])).
  change (new_RegExp (js "^(" ++ [] ++ js ")+|(" ++ [] ++ js ")+$") (js "g"))
    with (Some (re_both [])).
  cbv beta iota.
  by rewrite replace_start_empty, replace_end_empty, replace_both_empty.
Qed.

(** X10. With an empty trim string every Trim, as a unit or per character,
    returns the text unchanged. *)
Theorem trim_with_empty_string_keeps_text (itemIndex : nat) (trimStringUnit : bool)
    (text : jsstring) :
  trim_case itemIndex "trimBoth" trimStringUnit [] text = Ok text
  /\ trim_case itemIndex "trimStart" trimStringUnit [] text = Ok text
  /\ trim_case itemIndex "trimEnd" trimStringUnit [] text = Ok text.
Proof.
  destruct (charsTrim_empty text) as (Hstart & Hend & Hboth).
  unfold trim_case. cbn [String.eqb Ascii.eqb Bool.eqb].
  destruct trimStringUnit; [by rewrite Hstart, Hend, Hboth|].
  unfold lodash_trim, lodash_trimStart, lodash_trimEnd.
  by rewrite !lodash_trim_with_trivial by (by right).
Qed.

(** *** Runs of whole tokens are unique *)

Lemma power_prefix_unique (token : jsstring) :
  token <> [] ->
  forall j j' r r',
  power j token ++ r = power j' token ++ r' ->
  is_prefix token r = false -> is_prefix token r' = false ->
  j = j' /\ r = r'.
Proof.
  intros Htoken. induction j as [|j IH]; intros j' r r' Heq Hr Hr'.
  - destruct j' as [|j']; [by rewrite !power_0 in Heq|].
    rewrite power_0, power_S, <- app_assoc in Heq. cbn [app] in Heq.
    assert (is_prefix token r = true) by (apply is_prefix_app; eauto). congruence.
  - destruct j' as [|j'].
    + rewrite power_0, power_S, <- app_assoc in Heq. cbn [app] in Heq.
      assert (is_prefix token r' = true) by (apply is_prefix_app; eauto). congruence.
    + rewrite !power_S, <- !app_assoc in Heq. apply app_inv_head in Heq.
      destruct (IH j' r r' Heq Hr Hr') as [-> ->]. done.
Qed.

Lemma power_snoc (j : nat) (token : jsstring) :
  power j token ++ token = token ++ power j token.
Proof.
  induction j as [|j IH]; [by rewrite power_0, app_nil_r|].
  by rewrite power_S, <- app_assoc, IH.
Qed.

Lemma rev_power (j : nat) (token : jsstring) : rev (power j token) = power j (rev token).
Proof.
  induction j as [|j IH]; [reflexivity|].
  by rewrite !power_S, rev_app_distr, IH, power_snoc.
Qed.

Lemma power_suffix_unique (token : jsstring) :
  token <> [] ->
  forall k k' res res',
  res ++ power k token = res' ++ power k' token ->
  is_suffix token res = false -> is_suffix token res' = false ->
  k = k' /\ res = res'.
Proof.
  intros Htoken k k' res res' Heq Hres Hres'.
  apply (f_equal (@rev N)) in Heq. rewrite !rev_app_distr, !rev_power in Heq.
  assert (Hrev : rev token <> []).
  { intros Hnil. apply Htoken. by rewrite <- (rev_involutive token), Hnil. }
  destruct (power_prefix_unique (rev token) Hrev k k' (rev res) (rev res') Heq Hres Hres')
    as [-> Hr].
  split; [reflexivity|]. by rewrite <- (rev_involutive res), Hr, rev_involutive.
Qed.

(** *** Trimming twice *)

Lemma drop_while_fixed (p : N -> bool) (s : jsstring) :
  match s with c :: _ => p c = false | [] => True end -> drop_while p s = s.
Proof. destruct s as [|c s]; [done|]. cbn [drop_while]. by intros ->. Qed.

Lemma js_trimStart_fixed s : trimmed_start s -> js_trimStart s = s.
Proof. apply drop_while_fixed. Qed.

Lemma js_trimEnd_fixed s : trimmed_end s -> js_trimEnd s = s.
Proof.
  intros Hs. unfold js_trimEnd, drop_while_end.
  rewrite (drop_while_fixed isWhiteSpace (rev s)) by exact Hs. apply rev_involutive.
Qed.

Lemma js_trim_fixed s : js_trim (js_trim s) = js_trim s.
Proof.
  assert (Hend : trimmed_end (js_trim s)) by apply js_trimEnd_trimmed.
  assert (Hstart : trimmed_start (js_trim s)).
  { destruct (drop_while_end_split isWhiteSpace (js_trimStart s)) as (r & Hr & _).
    apply (trimmed_start_prefix _ r). unfold js_trim, js_trimEnd. rewrite <- Hr.
    apply js_trimStart_trimmed. }
  unfold js_trim at 1. rewrite (js_trimStart_fixed _ Hstart). by apply js_trimEnd_fixed.
Qed.

Lemma trim_as_unit_idempotent (itemIndex : nat) (mode : string)
    (token text r : jsstring) :
  trim_case itemIndex mode true token text = Ok r ->
  trim_case itemIndex mode true token r = Ok r.
Proof.
  unfold trim_case. intros Hr.
  destruct (decide (token = [])) as [->|Hne].
  { destruct (charsTrim_empty text) as (Hs & He & Hb).
    destruct (charsTrim_empty r) as (Hs' & He' & Hb').
    destruct (String.eqb mode "trimBoth"); [congruence|].
    destruct (String.eqb mode "trimStart"); [congruence|].
    destruct (String.eqb mode "trimEnd"); [congruence | discriminate]. }
  destruct (decide (token = js " ")) as [->|Hsp].
  { unfold charsTrim, charsTrimStart, charsTrimEnd in *. cbn [js_eqb cu_eqb] in *.
    change (N.eqb 32 32 && true)%bool with true in *. cbv iota in *.
    destruct (String.eqb mode "trimBoth"); [injection Hr as <-; by rewrite js_trim_fixed|].
    destruct (String.eqb mode "trimStart").
    { injection Hr as <-. by rewrite js_trimStart_fixed by apply js_trimStart_trimmed. }
    destruct (String.eqb mode "trimEnd"); [|discriminate].
    injection Hr as <-. by rewrite js_trimEnd_fixed by apply js_trimEnd_trimmed. }
  rewrite !charsTrim_token, !charsTrimStart_token, !charsTrimEnd_token in * by assumption.
  destruct (String.eqb mode "trimBoth").
  { injection Hr as Hr. f_equal.
    destruct (replace_both token Hne text) as (j & r0 & k & res & _ & Hr0 & Hres & Hsuf & Hrun).
    assert (res = r) as -> by congruence. clear Hr Hrun.
    assert (Hpre : is_prefix token r = false).
    { destruct (is_prefix token r) eqn:E; [|reflexivity].
      apply is_prefix_app in E as [x ->].
      assert (is_prefix token r0 = true); [|congruence].
      apply is_prefix_app. exists (x ++ power k token). by rewrite Hres, <- app_assoc. }
    destruct (replace_both token Hne r) as (j2 & r2 & k2 & res2 & H1 & H2 & H3 & H4 & ->).
    destruct (power_prefix_unique token Hne 0 j2 r r2 H1 Hpre H2) as [<- <-].
    destruct (power_suffix_unique token Hne 0 k2 r res2) as [_ ->];
      [by rewrite power_0, app_nil_r | exact Hsuf | exact H4 | reflexivity]. }
  destruct (String.eqb mode "trimStart").
  { injection Hr as Hr. f_equal.
    destruct (replace_start token Hne text) as (j & r0 & _ & Hr0 & Hrun).
    assert (r0 = r) as -> by congruence.
    destruct (replace_start token Hne r) as (j2 & r2 & H1 & H2 & ->).
    by destruct (power_prefix_unique token Hne 0 j2 r r2 H1 Hr0 H2) as [_ <-]. }
  destruct (String.eqb mode "trimEnd"); [|discriminate].
  injection Hr as Hr. f_equal.
  destruct (replace_end token Hne text) as (res & k & _ & Hsuf & Hrun).
  assert (res = r) as -> by congruence.
  destruct (replace_end token Hne r) as (res2 & k2 & H1 & H2 & ->).
  destruct (power_suffix_unique token Hne 0 k2 r res2) as [_ ->];
    [by rewrite power_0, app_nil_r | exact Hsuf | exact H2 | reflexivity].
Qed.

(** *** A trim string of one code unit *)

Lemma all_one_unit (c : N) (a : jsstring) :
  (forall x, In x a -> In x [c]) -> a = power (length a) [c].
Proof.
  induction a as [|x a IH]; [reflexivity|]. intros Hall. cbn [length].
  rewrite power_S. cbn [app].
  destruct (Hall x (or_introl eq_refl)) as [<-|[]]. f_equal.
  apply IH. intros y Hy. apply Hall. by right.
Qed.

Lemma head_not_unit (c : N) (r : jsstring) :
  (forall x r', r = x :: r' -> ~ In x [c]) -> is_prefix [c] r = false.
Proof.
  destruct r as [|x r']; [reflexivity|]. intros Hhead. cbn [is_prefix].
  destruct (cu_eqb c x) eqn:E; [|reflexivity].
  apply cu_eqb_eq in E. subst x. exfalso. apply (Hhead c r' eq_refl). by left.
Qed.

Lemma last_not_unit (c : N) (r : jsstring) :
  (forall x r', r = r' ++ [x] -> ~ In x [c]) -> is_suffix [c] r = false.
Proof.
  intros Hlast. unfold is_suffix. apply head_not_unit. intros x r' Hrev.
  apply (Hlast x (rev r')). by rewrite <- (rev_involutive r), Hrev.
Qed.

(** X12. For a trim string of one code unit other than the space, the
    as-unit and the per-character algorithm give the same result (on texts
    that lodash splits into code units). *)
Theorem trim_algorithms_agree_on_one_unit (itemIndex : nat) (mode : string) (c : N)
    (text : jsstring) :
  c <> 32%N -> hasUnicode [c] = false -> hasUnicode text = false ->
  trim_case itemIndex mode true [c] text = trim_case itemIndex mode false [c] text.
Proof.
  intros Hc Hunit Htext. unfold trim_case.
  assert (Hne : [c] <> []) by discriminate.
  assert (Hsp : [c] <> js " ") by (intros [= ->]; by apply Hc).
  rewrite charsTrim_token, charsTrimStart_token, charsTrimEnd_token by assumption.
  destruct (String.eqb mode "trimBoth").
  { destruct (lodash_trim_parts text [c] Htext Hunit)
      as (a & r & b & -> & Hparts & Ha & Hb & Hhead & Hlast & Hnil).
    f_equal.
    destruct (replace_both [c] Hne text) as (j & r0 & k & res & H1 & H2 & H3 & H4 & ->).
    assert (Hpre : is_prefix [c] (r ++ b) = false).
    { destruct r as [|x r']; [by rewrite Hnil|]. cbn [app is_prefix].
      destruct (cu_eqb c x) eqn:E; [|reflexivity].
      apply cu_eqb_eq in E. subst x. exfalso. apply (Hhead c r' eq_refl). by left. }
    rewrite (all_one_unit c a Ha) in Hparts. rewrite Hparts in H1.
    destruct (power_prefix_unique [c] Hne _ _ _ _ H1 Hpre H2) as [_ Hr0].
    rewrite H3, (all_one_unit c b Hb) in Hr0.
    by destruct (power_suffix_unique [c] Hne _ _ _ _ Hr0 (last_not_unit c r Hlast) H4)
      as [_ ->]. }
  destruct (String.eqb mode "trimStart").
  { destruct (lodash_trimStart_parts text [c] Htext Hunit) as (a & r & -> & Hparts & Ha & Hhead).
    f_equal.
    destruct (replace_start [c] Hne text) as (j & r0 & H1 & H2 & ->).
    rewrite (all_one_unit c a Ha) in Hparts. rewrite Hparts in H1.
    by destruct (power_prefix_unique [c] Hne _ _ _ _ H1 (head_not_unit c r Hhead) H2)
      as [_ ->]. }
  destruct (String.eqb mode "trimEnd"); [|reflexivity].
  destruct (lodash_trimEnd_parts text [c] Htext Hunit) as (r & b & -> & Hparts & Hb & Hlast).
  f_equal.
  destruct (replace_end [c] Hne text) as (res & k & H1 & H2 & ->).
  rewrite (all_one_unit c b Hb) in Hparts. rewrite Hparts in H1.
  by destruct (power_suffix_unique [c] Hne _ _ _ _ H1 (last_not_unit c r Hlast) H2)
    as [_ ->].
Qed.

Lemma trim_algorithms_agree_on_one_unit_witness :
  ch "x" <> 32%N /\ hasUnicode [ch "x"] = false /\ hasUnicode (js "xxaxx") = false
  /\ trim_case 0 "trimBoth" true [ch "x"] (js "xxaxx")
     = trim_case 0 "trimBoth" false [ch "x"] (js "xxaxx").
Proof.
  split; [discriminate|]. split; [reflexivity|]. split; [reflexivity|].
  apply (trim_algorithms_agree_on_one_unit 0 "trimBoth" (ch "x") (js "xxaxx"));
    [discriminate | reflexivity | reflexivity].
Defined.

(** *** Per-character trimming twice *)

Lemma hasUnicode_app a b : hasUnicode (a ++ b) = (hasUnicode a || hasUnicode b)%bool.
Proof. unfold hasUnicode. apply existsb_app. Qed.

Lemma charsStartIndex_zero (r chars : jsstring) :
  (forall c r', r = c :: r' -> ~ In c chars) -> charsStartIndex r chars = 0%nat.
Proof.
  destruct r as [|c r']; [reflexivity|]. intros Hhead. cbn [charsStartIndex].
  destruct (baseIndexOf chars c) eqn:E; [|reflexivity].
  apply baseIndexOf_In in E. by destruct (Hhead c r' eq_refl).
Qed.

Lemma charsEndIndex_full (r chars : jsstring) :
  (forall c r', r = r' ++ [c] -> ~ In c chars) -> charsEndIndex_succ r chars = length r.
Proof.
  intros Hlast. unfold charsEndIndex_succ. rewrite charsStartIndex_zero; [lia|].
  intros c r' Hrev. apply (Hlast c (rev r')).
  by rewrite <- (rev_involutive r), Hrev.
Qed.

Lemma lodash_trim_with_fixed bounds (r chars : jsstring) :
  hasUnicode r = false -> hasUnicode chars = false ->
  bounds r chars = (0%nat, length r) -> lodash_trim_with bounds r chars = Ok r.
Proof.
  intros Hr Hc Hb.
  destruct (decide (r = [] \/ chars = [])) as [Htriv|Hnon];
    [by apply lodash_trim_with_trivial|].
  rewrite lodash_trim_with_Ok by tauto. by rewrite Hb, slice_whole.
Qed.

(** As-unit trim returns for every trim string. *)
Lemma trim_as_unit_returns (itemIndex : nat) (mode : string) (token text : jsstring) :
  In mode ["trimBoth"; "trimStart"; "trimEnd"]%string ->
  exists r, trim_case itemIndex mode true token text = Ok r.
Proof.
  intros Hmode. unfold trim_case.
  assert (Hall : (exists r, charsTrim text token = Ok r)
                 /\ (exists r, charsTrimStart text token = Ok r)
                 /\ (exists r, charsTrimEnd text token = Ok r)).
  { destruct (decide (token = [])) as [->|Hne].
    { destruct (charsTrim_empty text) as (Hs & He & Hb). repeat split; eauto. }
    destruct (decide (token = js " ")) as [->|Hsp].
    { unfold charsTrim, charsTrimStart, charsTrimEnd. cbn [js_eqb cu_eqb].
      change (N.eqb 32 32 && true)%bool with true. cbv iota. repeat split; eauto. }
    rewrite charsTrim_token, charsTrimStart_token, charsTrimEnd_token by assumption.
    repeat split; eauto. }
  destruct Hall as (Hb & Hs & He).
  destruct Hmode as [<-|[<-|[<-|[]]]]; cbn [String.eqb Ascii.eqb Bool.eqb]; assumption.
Qed.

(** X11. Trim is idempotent: in every mode, as a unit for every trim string
    and per character for a text and a trim string that lodash splits into
    code units, Trim returns, and the same Trim applied to its result
    changes nothing. *)
Theorem trim_is_idempotent (itemIndex : nat) (mode : string) (trimStringUnit : bool)
    (trimString text : jsstring) :
  In mode ["trimBoth"; "trimStart"; "trimEnd"]%string ->
  (trimStringUnit = false -> hasUnicode text = false /\ hasUnicode trimString = false) ->
  exists r,
    trim_case itemIndex mode trimStringUnit trimString text = Ok r
    /\ trim_case itemIndex mode trimStringUnit trimString r = Ok r.
Proof.
  intros Hmode Hsplit. destruct trimStringUnit.
  { destruct (trim_as_unit_returns itemIndex mode trimString text Hmode) as [r Hr].
    exists r. split; [exact Hr | by apply (trim_as_unit_idempotent _ _ _ text)]. }
  destruct (Hsplit eq_refl) as [Ht Hc]. unfold trim_case.
  destruct Hmode as [<-|[<-|[<-|[]]]]; cbn [String.eqb Ascii.eqb Bool.eqb].
  - destruct (lodash_trim_parts text trimString Ht Hc)
      as (a & r & b & Hr & Htext & _ & _ & Hhead & Hlast & _).
    exists r. split; [exact Hr|].
    apply lodash_trim_with_fixed; [|exact Hc|].
    + rewrite Htext, !hasUnicode_app in Ht.
      apply orb_false_iff in Ht as [_ Ht]. by apply orb_false_iff in Ht as [Ht _].
    + by rewrite charsStartIndex_zero, charsEndIndex_full.
  - destruct (lodash_trimStart_parts text trimString Ht Hc) as (a & r & Hr & Htext & _ & Hhead).
    exists r. split; [exact Hr|].
    apply lodash_trim_with_fixed; [|exact Hc|].
    + rewrite Htext, hasUnicode_app in Ht. by apply orb_false_iff in Ht as [_ Ht].
    + by rewrite charsStartIndex_zero.
  - destruct (lodash_trimEnd_parts text trimString Ht Hc) as (r & b & Hr & Htext & _ & Hlast).
    exists r. split; [exact Hr|].
    apply lodash_trim_with_fixed; [|exact Hc|].
    + rewrite Htext, hasUnicode_app in Ht. by apply orb_false_iff in Ht as [Ht _].
    + by rewrite charsEndIndex_full.
Qed.

Lemma trim_is_idempotent_witness :
  exists r,
    trim_case 0 "trimBoth" false (js "ab") (js "ababXab") = Ok r
    /\ trim_case 0 "trimBoth" false (js "ab") r = Ok r.
Proof.
  apply (trim_is_idempotent 0 "trimBoth" false (js "ab") (js "ababXab"));
    [cbn; tauto | intros _; split; reflexivity].
Defined.

(** ** Replace and unescaping *)

Lemma get_substitution_dollar_free s m v :
  dollar_free v = true -> get_substitution s m v = v.
Proof.
  induction v as [|c v IH]; [reflexivity|]. cbn [dollar_free forallb].
  intros [Hc Hv]%andb_true_iff. cbn [get_substitution]. rewrite Hc. f_equal. by apply IH.
Qed.

Lemma new_RegExp_literal (substr : jsstring) :
  new_RegExp (escapeRegExp substr) (js "g") = Some (re_literal substr).
Proof.
  unfold new_RegExp. change (parse_flags (js "g")) with (Some global_flags). cbv iota.
  cbn [global_flags f_unicode]. unfold parse_pattern.
  pose proof (length_escapeRegExp substr) as Hlen.
  destruct (3 * length (escapeRegExp substr) + 3)%nat as [|fuel] eqn:Hfuel; [lia|].
  rewrite parse_disjunction_step.
  rewrite <- (app_nil_r (escapeRegExp substr)) at 1.
  rewrite (parse_alternative_literal substr fuel [] 0) by (lia || reflexivity).
  reflexivity.
Qed.

Lemma try_at_literal (substr : jsstring) pos prev rest :
  try_at (re_literal substr) pos prev rest
  = if is_prefix substr rest
    then Some (mkState (pos + length substr) (drop (length substr) rest)
                 (last_prev prev substr) [])
    else None.
Proof.
  unfold try_at. cbn [re_literal re_flags re_source re_groups replicate].
  by rewrite (rmatch_lit global_flags substr eq_refl).
Qed.

(** The scan of a literal is [indexOf]. *)
Lemma scan_literal (substr : jsstring) :
  forall rest pos prev,
  scan (re_literal substr) pos prev rest
  = match index_of_from substr rest pos with
    | Some i =>
        Some (i, mkState (i + length substr) (drop (i - pos + length substr) rest)
                   (last_prev (last_prev prev (take (i - pos) rest)) substr) [])
    | None => None
    end.
Proof.
  induction rest as [|c rest IH]; intros pos prev.
  - rewrite scan_unfold, try_at_literal. cbn [index_of_from].
    destruct (is_prefix substr []); [|reflexivity].
    rewrite Nat.sub_diag. reflexivity.
  - rewrite scan_unfold, try_at_literal. cbn [index_of_from].
    destruct (is_prefix substr (c :: rest)).
    + rewrite Nat.sub_diag. reflexivity.
    + cbn [re_literal re_flags global_flags f_sticky]. rewrite IH.
      destruct (index_of_from substr rest (S pos)) as [i|] eqn:Hi; [|reflexivity].
      assert (S pos <= i)%nat.
      { clear -Hi. revert pos Hi. induction rest as [|x rest IH]; intros pos; cbn [index_of_from].
        - destruct (is_prefix substr []); [intros [= <-]; lia | discriminate].
        - destruct (is_prefix substr (x :: rest)); [intros [= <-]; lia|].
          intros Hi. apply IH in Hi. lia. }
      replace (i - pos)%nat with (S (i - S pos)) by lia. reflexivity.
Qed.

Lemma index_of_from_shift (substr : jsstring) :
  forall rest pos,
  index_of_from substr rest pos = option_map (Nat.add pos) (index_of_from substr rest 0).
Proof.
  induction rest as [|c rest IH]; intros pos; cbn [index_of_from].
  - destruct (is_prefix substr []); cbn [option_map]; [by rewrite Nat.add_0_r | reflexivity].
  - destruct (is_prefix substr (c :: rest)); cbn [option_map]; [by rewrite Nat.add_0_r|].
    rewrite (IH (S pos)), (IH 1%nat).
    destruct (index_of_from substr rest 0); cbn [option_map]; [|reflexivity].
    f_equal. lia.
Qed.

Lemma js_indexOf_found (substr rest : jsstring) (i : nat) :
  js_indexOf substr rest = Some i ->
  is_prefix substr (drop i rest) = true /\ (i + length substr <= length rest)%nat.
Proof.
  unfold js_indexOf. revert i. induction rest as [|c rest IH]; intros i; cbn [index_of_from].
  - destruct (is_prefix substr []) eqn:E; [|discriminate]. intros [= <-].
    split; [exact E|]. destruct substr; [cbn; lia | discriminate].
  - destruct (is_prefix substr (c :: rest)) eqn:E.
    + intros [= <-]. split; [exact E|].
      apply is_prefix_app in E as [r ->]. rewrite length_app. lia.
    + rewrite index_of_from_shift.
      destruct (index_of_from substr rest 0) as [j|] eqn:Hj; [|discriminate].
      intros [= <-]. destruct (IH j eq_refl) as [Hp Hl]. cbn [Nat.add drop length].
      split; [exact Hp | lia].
Qed.

(** The global replace loop on a literal that is not empty. *)
Lemma replace_loop_literal (substr new s : jsstring) (repl : match_result -> jsstring) :
  substr <> [] ->
  (forall i, slice s i (i + length substr) = substr ->
     repl (mkMatch i (i + length substr) []) = new) ->
  forall n rest pre fuel1 fuel2 prev,
  s = pre ++ rest -> (length rest <= n)%nat -> (n < fuel1)%nat -> (n <= fuel2)%nat ->
  replace_loop fuel1 (re_literal substr) s repl (length pre) (length pre) prev rest
  = replace_each fuel2 substr new rest.
Proof.
  intros Hne Hrepl. induction n as [|n IH]; intros rest pre fuel1 fuel2 prev Hs Hlen Hf1 Hf2;
    (destruct fuel1 as [|fuel1]; [lia|]);
    rewrite replace_loop_unfold, scan_literal, index_of_from_shift.
  - destruct rest; [|cbn [length] in Hlen; lia].
    destruct substr as [|x substr]; [congruence|]. cbn [index_of_from is_prefix option_map].
    rewrite Hs, drop_app_length. by destruct fuel2.
  - destruct (index_of_from substr rest 0) as [i0|] eqn:Hi0; cbn [option_map].
    + destruct (js_indexOf_found substr rest i0 Hi0) as [Hp Hbound].
      assert (0 < length substr)%nat by (destruct substr; [congruence | cbn; lia]).
      destruct fuel2 as [|fuel2]; [lia|].
      cbn [replace_each]. unfold js_indexOf. rewrite Hi0. cbv zeta.
      cbn [m_pos m_rest m_prev m_caps re_literal re_flags global_flags f_global].
      destruct (Nat.eqb_spec (length pre + i0 + length substr) (length pre + i0)); [lia|].
      assert (Hmatch : slice s (length pre + i0) (length pre + i0 + length substr) = substr).
      { apply is_prefix_app in Hp as [tail Htail].
        rewrite Hs, <- (take_drop i0 rest), Htail, app_assoc.
        replace (length pre + i0)%nat with (length (pre ++ take i0 rest))
          by (rewrite length_app, length_take; lia).
        apply slice_middle. }
      rewrite (Hrepl _ Hmatch), <- app_assoc. f_equal.
      { rewrite Hs. unfold slice. rewrite drop_app_length.
        f_equal. lia. }
      f_equal.
      replace (length pre + i0 - length pre + length substr)%nat
        with (i0 + length substr)%nat by lia.
      replace (length pre + i0 + length substr)%nat
        with (length (pre ++ take (i0 + length substr) rest)).
      * apply IH.
        -- by rewrite <- app_assoc, take_drop.
        -- rewrite length_drop. lia.
        -- lia.
        -- lia.
      * rewrite length_app, length_take. lia.
    + rewrite Hs, drop_app_length.
      destruct fuel2 as [|fuel2]; [reflexivity|]. cbn [replace_each]. unfold js_indexOf.
      by rewrite Hi0.
Qed.

Lemma replaceAll_literal (text substr new : jsstring) :
  replaceAll text substr new = Ok (regexp_replace (re_literal substr) text new).
Proof. unfold replaceAll, with_RegExp. by rewrite new_RegExp_literal. Qed.




Lemma replace_each_same (substr : jsstring) :
  forall fuel s, replace_each fuel substr substr s = s.
Proof.
  induction fuel as [|fuel IH]; intros s; [reflexivity|]. cbn [replace_each].
  destruct (js_indexOf substr s) as [i|] eqn:Hi; [|reflexivity].
  destruct (js_indexOf_found substr s i Hi) as [Hp _].
  apply is_prefix_app in Hp as [tail Htail].
  rewrite IH.
  assert (Hrest : drop (i + length substr) s = tail).
  { by rewrite <- drop_drop, Htail, drop_app_length. }
  by rewrite Hrest, <- Htail, take_drop.
Qed.

(** X15. The value of [replaceAll] is a replacement template, not a literal:
    the value [$&] puts every occurrence back and so returns the text
    unchanged, and [$$] inserts a single [$]. *)
Theorem replacement_value_is_a_template (text substr : jsstring) :
  substr <> [] ->
  replaceAll text substr (js "$&") = Ok text
  /\ replaceAll text substr (js "$$")
     = Ok (replace_each (length text) substr (js "$") text).
Proof.
  intros Hne. rewrite !replaceAll_literal. split; f_equal.
  - transitivity (replace_each (length text) substr substr text);
      [|apply replace_each_same].
    unfold regexp_replace, regexp_replace_with.
    assert (Hrepl : forall i, slice text i (i + length substr) = substr ->
              get_substitution text (mkMatch i (i + length substr) []) (js "$&") = substr).
    { intros i Hi. cbn [get_substitution js map list_ascii_of_string].
      change (cu_eqb (ch "$") (ch "$")) with true.
      change (cu_eqb (ch "&") (ch "$")) with false.
      change (cu_eqb (ch "&") (ch "&")) with true. cbn [negb mr_index mr_end].
      by rewrite app_nil_r. }
    apply (replace_loop_literal substr substr text _ Hne Hrepl
             (length text) text [] (S (length text)) (length text) None);
      [reflexivity | lia | lia | lia].
  - unfold regexp_replace, regexp_replace_with.
    apply (replace_loop_literal substr (js "$") text _ Hne (fun i _ => eq_refl)
             (length text) text [] (S (length text)) (length text) None);
      [reflexivity | lia | lia | lia].
Qed.

Lemma replacement_value_is_a_template_witness :
  js "b" <> [] /\ replaceAll (js "abc") (js "b") (js "$&") = Ok (js "abc").
Proof.
  split; [discriminate|].
  apply (proj1 (replacement_value_is_a_template (js "abc") (js "b") ltac:(discriminate))).
Defined.

(** *** The empty pattern *)

Lemma try_at_empty_literal pos prev rest :
  try_at (re_literal []) pos prev rest = Some (mkState pos rest prev []).
Proof. rewrite try_at_literal. cbn [is_prefix length drop last_prev fold_left]. by rewrite Nat.add_0_r. Qed.

Lemma replace_loop_empty_literal (new s : jsstring) (repl : match_result -> jsstring) :
  (forall m, repl m = new) ->
  forall rest pre fuel emitted prev,
  s = pre ++ rest -> (length rest < fuel)%nat -> (emitted <= length pre)%nat ->
  replace_loop fuel (re_literal []) s repl emitted (length pre) prev rest
  = slice s emitted (length pre) ++ new ++ flat_map (fun c => c :: new) rest.
Proof.
  intros Hrepl. induction rest as [|c rest IH]; intros pre fuel emitted prev Hs Hfuel Hem;
    (destruct fuel as [|fuel]; [lia|]);
    rewrite replace_loop_unfold, scan_unfold, try_at_empty_literal; cbv zeta;
    cbn [m_pos m_rest m_prev m_caps re_literal re_flags global_flags f_global];
    rewrite Nat.eqb_refl, Hrepl.
  - rewrite Hs, app_nil_r, drop_all. cbn [flat_map]. by rewrite <- app_assoc.
  - cbn [length] in Hfuel.
    replace (S (length pre)) with (length (pre ++ [c])) by (rewrite length_app; cbn; lia).
    rewrite (IH (pre ++ [c]) fuel (length pre) (Some c));
      [|by rewrite <- app_assoc | lia | rewrite length_app; lia].
    cbn [flat_map]. rewrite <- !app_assoc. do 2 f_equal.
    assert (Hc : slice s (length pre) (length (pre ++ [c])) = [c]).
    { rewrite Hs, length_app. change (c :: rest) with ([c] ++ rest).
      apply slice_middle. }
    rewrite Hc. reflexivity.
Qed.

Lemma regexp_replace_empty_literal (text new : jsstring) :
  dollar_free new = true ->
  regexp_replace (re_literal []) text new = interleave new text.
Proof.
  intros Hnew. unfold regexp_replace, regexp_replace_with.
  rewrite (replace_loop_empty_literal new text _
             (fun m => get_substitution_dollar_free text m new Hnew) text [] _ 0%nat None)
    by (reflexivity || cbn [length]; lia).
  reflexivity.
Qed.



(** *** Unescaping *)

Lemma first_is_fails (fl : flags) (b : N) (r : regex) :
  f_ignoreCase fl = false -> first_is b r = true ->
  forall k st,
  match m_rest st with c :: _ => cu_eqb c b = false | [] => True end ->
  rmatch fl r k st = None.
Proof.
  intros Hcase. induction r as [| c | | | | | r1 IH1 r2 IH2 | r1 IH1 r2 IH2 | g r' IH | ];
    cbn [first_is]; try discriminate; intros Hfirst k st Hst.
  - apply cu_eqb_eq in Hfirst. subst c. cbn [rmatch]. unfold eat, canonicalize.
    rewrite Hcase. destruct (m_rest st) as [|x rest]; [reflexivity|]. by rewrite Hst.
  - rewrite rmatch_seq. by apply IH1.
  - apply andb_true_iff in Hfirst as [H1 H2]. cbn [rmatch].
    rewrite (IH1 H1 k st Hst). by apply IH2.
  - rewrite rmatch_group. by apply IH.
Qed.

Lemma scan_first_is (re : RegExp) (b : N) :
  f_ignoreCase (re_flags re) = false -> first_is b (re_source re) = true ->
  forall rest pos prev,
  forallb (fun c => negb (cu_eqb c b)) rest = true -> scan re pos prev rest = None.
Proof.
  intros Hcase Hfirst. induction rest as [|c rest IH]; intros pos prev Hrest;
    rewrite scan_unfold; unfold try_at.
  - rewrite (first_is_fails _ b _ Hcase Hfirst) by exact I. by destruct (f_sticky _).
  - cbn [forallb] in Hrest. apply andb_true_iff in Hrest as [Hc Hrest].
    apply negb_true_iff in Hc.
    rewrite (first_is_fails _ b _ Hcase Hfirst) by exact Hc.
    destruct (f_sticky _); [reflexivity|]. by apply IH.
Qed.

Lemma unescape_pattern_parsed :
  exists re, new_RegExp unescape_pattern (js "g") = Some re
    /\ first_is (ch "\") (re_source re) = true
    /\ f_ignoreCase (re_flags re) = false.
Proof.
  eexists. split; [vm_compute; reflexivity|]. split; vm_compute; reflexivity.
Qed.

(** X17. Unescaping leaves a text without backslash as it is, so the
    [extended] switch makes no difference for such a value. *)
Theorem extended_value_without_backslash_is_verbatim (extended : bool) (v : jsstring) :
  backslash_free v = true ->
  unescapeEscapedCharacters v = Ok v /\ replacement extended v = Ok v.
Proof.
  intros Hv.
  assert (Hun : unescapeEscapedCharacters v = Ok v).
  { destruct unescape_pattern_parsed as (re & Hre & Hfirst & Hcase).
    unfold unescapeEscapedCharacters, with_RegExp. rewrite Hre. f_equal.
    unfold regexp_replace_with.
    by rewrite replace_loop_no_match by (by apply (scan_first_is re (ch "\"))). }
  split; [exact Hun|]. unfold replacement. by destruct extended.
Qed.

Lemma extended_value_without_backslash_is_verbatim_witness :
  backslash_free (js "a$1 b") = true /\ replacement true (js "a$1 b") = Ok (js "a$1 b").
Proof.
  split; [reflexivity|].
  apply (proj2 (extended_value_without_backslash_is_verbatim true (js "a$1 b") eq_refl)).
Defined.

Lemma unescape_pattern_facts :
  exists re, new_RegExp unescape_pattern (js "g") = Some re
    /\ first_is (ch "\") (re_source re) = true
    /\ re_flags re = global_flags
    /\ Forall (fun x => forall pos prev rest,
         try_at re pos prev (ch "\" :: x :: rest)
         = Some (mkState (S (S pos)) rest (Some x) (escape_caps x pos)))
         (js "0'" ++ [34%N] ++ js "\nrvtbf").
Proof.
  eexists. split; [vm_compute; reflexivity|]. split; [vm_compute; reflexivity|].
  split; [vm_compute; reflexivity|].
  apply List.Forall_forall. intros x Hx. vm_compute in Hx.
  repeat (destruct Hx as [<-|Hx]; [intros pos prev rest; vm_compute; reflexivity|]).
  destruct Hx.
Qed.

Lemma escape_letter_cases (c x : N) :
  escape_letter c = Some x ->
  In x (js "0'" ++ [34%N] ++ js "\nrvtbf")
  /\ (if cu_eqb x (ch "\") then c = ch "\" else escapeCharacters [ch "\"; x] = Some [c]).
Proof.
  unfold escape_letter.
  repeat match goal with
         | |- (if cu_eqb c ?k then _ else _) = _ -> _ =>
             let E := fresh "E" in
             destruct (cu_eqb c k) eqn:E;
             [apply cu_eqb_eq in E; subst c; intros [= <-];
              split; [vm_compute; tauto | vm_compute; reflexivity]|]
         end.
  discriminate.
Qed.

Lemma escape_letter_none (c : N) : escape_letter c = None -> cu_eqb c (ch "\") = false.
Proof.
  unfold escape_letter. destruct (cu_eqb c (ch "\")) eqn:E; [|reflexivity].
  apply cu_eqb_eq in E. subst c. discriminate.
Qed.

Lemma replace_loop_skip re fuel s repl emitted pos prev c rest :
  f_sticky (re_flags re) = false -> try_at re pos prev (c :: rest) = None ->
  replace_loop (S fuel) re s repl emitted pos prev (c :: rest)
  = replace_loop (S fuel) re s repl emitted (S pos) (Some c) rest.
Proof.
  intros Hsticky Htry. rewrite !replace_loop_unfold, scan_unfold, Htry, Hsticky. reflexivity.
Qed.

Lemma slice_snoc (pre rest : jsstring) (c : N) (emitted : nat) :
  (emitted <= length pre)%nat ->
  slice (pre ++ c :: rest) emitted (S (length pre))
  = slice (pre ++ c :: rest) emitted (length pre) ++ [c].
Proof.
  intros Hem. unfold slice.
  rewrite !drop_app_le by lia.
  replace (S (length pre) - emitted)%nat with (length (drop emitted pre) + 1)%nat
    by (rewrite length_drop; lia).
  replace (length pre - emitted)%nat with (length (drop emitted pre))
    by (rewrite length_drop; lia).
  rewrite take_app_length, take_app_add. reflexivity.
Qed.

Lemma unescape_replacer_pair (s pre rest : jsstring) (c x : N) :
  s = pre ++ ch "\" :: x :: rest -> escape_letter c = Some x ->
  unescape_replacer s (mkMatch (length pre) (S (S (length pre))) (escape_caps x (length pre)))
  = [c].
Proof.
  intros Hs Hx. destruct (escape_letter_cases c x Hx) as [_ Hcase].
  unfold unescape_replacer, escape_caps. destruct (cu_eqb x (ch "\")) eqn:E.
  - apply cu_eqb_eq in E. subst x c.
    cbn [any_caps mr_caps lookup list_lookup capture_text nonempty].
    assert (Hsl : slice s (S (length pre)) (S (S (length pre))) = [ch "\"]).
    { rewrite Hs.
      change (pre ++ ch "\" :: ch "\" :: rest) with (pre ++ [ch "\"] ++ [ch "\"] ++ rest).
      rewrite (app_assoc pre).
      replace (S (length pre)) with (length (pre ++ [ch "\"]))
        by (rewrite length_app; cbn; lia).
      replace (S (length (pre ++ [ch "\"])))
        with (length (pre ++ [ch "\"]) + length [ch "\"])%nat by (cbn; lia).
      apply slice_middle. }
    rewrite Hsl. reflexivity.
  - cbn [table_caps mr_caps lookup list_lookup capture_text nonempty].
    assert (Hsl : slice s (length pre) (S (S (length pre))) = [ch "\"; x]).
    { rewrite Hs. change (pre ++ ch "\" :: x :: rest) with (pre ++ [ch "\"; x] ++ rest).
      replace (S (S (length pre))) with (length pre + length [ch "\"; x])%nat by (cbn; lia).
      apply slice_middle. }
    rewrite Hsl. cbn [nonempty default]. unfold id. rewrite Hcase. reflexivity.
Qed.

Lemma unescape_loop (re : RegExp) (s : jsstring) :
  first_is (ch "\") (re_source re) = true -> re_flags re = global_flags ->
  Forall (fun x => forall pos prev rest,
    try_at re pos prev (ch "\" :: x :: rest)
    = Some (mkState (S (S pos)) rest (Some x) (escape_caps x pos)))
    (js "0'" ++ [34%N] ++ js "\nrvtbf") ->
  forall v pre fuel emitted prev,
  s = pre ++ escape_text v -> (length (escape_text v) < fuel)%nat ->
  (emitted <= length pre)%nat ->
  replace_loop fuel re s (unescape_replacer s) emitted (length pre) prev (escape_text v)
  = slice s emitted (length pre) ++ v.
Proof.
  intros Hfirst Hflags Hpairs.
  assert (Hcase : f_ignoreCase (re_flags re) = false) by (by rewrite Hflags).
  assert (Hsticky : f_sticky (re_flags re) = false) by (by rewrite Hflags).
  assert (Hglobal : f_global (re_flags re) = true) by (by rewrite Hflags).
  induction v as [|c v IH]; intros pre fuel emitted prev Hs Hfuel Hem;
    (destruct fuel as [|fuel]; [lia|]).
  - cbn [escape_text flat_map] in *.
    rewrite replace_loop_no_match
      by (rewrite scan_unfold; unfold try_at;
          rewrite (first_is_fails _ _ _ Hcase Hfirst) by exact I; by rewrite Hsticky).
    rewrite app_nil_r in *. subst s. unfold slice. rewrite take_ge; [reflexivity|].
    rewrite length_drop. lia.
  - change (escape_text (c :: v)) with (escape_unit c ++ escape_text v) in *.
    unfold escape_unit in *. destruct (escape_letter c) as [x|] eqn:Hx.
    + cbn [app length] in *.
      destruct (escape_letter_cases c x Hx) as [Hin _].
      pose proof (proj1 (List.Forall_forall _ _) Hpairs x Hin) as Hpair.
      rewrite replace_loop_unfold, scan_unfold, Hpair. cbv zeta.
      cbn [m_pos m_rest m_prev m_caps]. rewrite Hglobal.
      destruct (Nat.eqb_spec (S (S (length pre))) (length pre)); [lia|].
      rewrite (unescape_replacer_pair s pre (escape_text v) c x Hs Hx).
      replace (S (S (length pre))) with (length (pre ++ [ch "\"; x]))
        by (rewrite length_app; cbn; lia).
      rewrite (IH (pre ++ [ch "\"; x]) fuel _ (Some x));
        [|by rewrite <- app_assoc | lia | lia].
      unfold slice at 2. rewrite Nat.sub_diag. cbn [take app].
      by rewrite <- app_assoc.
    + cbn [app length] in *.
      rewrite replace_loop_skip;
        [|exact Hsticky
         |unfold try_at;
          by rewrite (first_is_fails _ _ _ Hcase Hfirst) by (by apply escape_letter_none)].
      replace (S (length pre)) with (length (pre ++ [c])) by (rewrite length_app; cbn; lia).
      rewrite (IH (pre ++ [c]) (S fuel) emitted (Some c));
        [|by rewrite <- app_assoc | lia | rewrite length_app; lia].
      rewrite Hs, length_app. cbn [length]. rewrite Nat.add_1_r.
      rewrite slice_snoc by exact Hem. by rewrite <- app_assoc.
Qed.

(** X18. Unescaping inverts escaping: when every code unit of the table
    (NUL, the quotes, line feed, carriage return, the tabs, backspace, form
    feed) is written as its escape sequence and every backslash is doubled,
    [unescapeEscapedCharacters] returns the original text. *)
Theorem unescape_inverts_escaping (v : jsstring) :
  unescapeEscapedCharacters (escape_text v) = Ok v.
Proof.
  destruct unescape_pattern_facts as (re & Hre & Hfirst & Hflags & Hpairs).
  unfold unescapeEscapedCharacters, with_RegExp. rewrite Hre. f_equal.
  unfold regexp_replace_with.
  by rewrite (unescape_loop re _ Hfirst Hflags Hpairs v [] _ 0%nat None)
    by (reflexivity || cbn [length]; lia).
Qed.

(** ** The run over the items *)

Lemma mbind_Ok {A B : Type} (m : M A) (f : A -> M B) (h : store) (b : B) :
  snd (mbind m f h) = Ok b ->
  exists a h1, m h = (h1, Ok a) /\ snd (f a h1) = Ok b /\ fst (mbind m f h) = fst (f a h1).
Proof.
  unfold mbind. destruct (m h) as [h1 [a|e]]; [|discriminate].
  intros Hb. by exists a, h1.
Qed.

Lemma mbind_Err {A B : Type} (m : M A) (f : A -> M B) (h : store) (e : error) :
  snd (mbind m f h) = Err e ->
  (snd (m h) = Err e /\ fst (mbind m f h) = fst (m h))
  \/ exists a h1, m h = (h1, Ok a) /\ snd (f a h1) = Err e
       /\ fst (mbind m f h) = fst (f a h1).
Proof.
  unfold mbind. destruct (m h) as [h1 [a|e']]; cbn [snd fst].
  - intros He. right. by exists a, h1.
  - intros [= ->]. by left.
Qed.

Section Execute.
Context `{IconvCodecs} `{TextPrimitives} `{PathSyntax} `{BinaryHelpers} `{Functions}.

Lemma processItem_pairedItem keepOnlySet groups itemIndex it h out :
  snd (processItem keepOnlySet groups itemIndex it h) = Ok out -> pairedItem out = itemIndex.
Proof.
  unfold processItem. intros Hrun.
  apply mbind_Ok in Hrun as (emptyJson & h1 & _ & Hrun & _).
  apply mbind_Ok in Hrun as (newItemBinary & h2 & _ & Hrun & _).
  apply mbind_Ok in Hrun as (newItemJson & h3 & _ & Hrun & _).
  apply mbind_Ok in Hrun as ([] & h4 & _ & Hrun & _).
  apply mbind_Ok in Hrun as (binaryKeys & h5 & _ & Hrun & _).
  cbn [ret snd] in Hrun. by injection Hrun as <-.
Qed.

Lemma execute_from_outputs keepOnlySet groups items :
  forall start h outs,
  snd (execute_from keepOnlySet groups start items h) = Ok outs ->
  length outs = length items
  /\ forall i out, outs !! i = Some out -> pairedItem out = (start + i)%nat.
Proof.
  induction items as [|it items IH]; intros start h outs Hrun.
  - cbn [execute_from ret snd] in Hrun. injection Hrun as <-. split; [reflexivity|].
    intros i out Hi. discriminate.
  - cbn [execute_from] in Hrun.
    apply mbind_Ok in Hrun as (out0 & h1 & Hitem & Hrun & _).
    apply mbind_Ok in Hrun as (outs' & h2 & Hrest & Hrun & _).
    cbn [ret snd] in Hrun. injection Hrun as <-.
    destruct (IH (S start) h1 outs') as [Hlen Hpair]; [by rewrite Hrest|].
    split; [cbn [length]; by rewrite Hlen|].
    intros [|i] out Hi.
    + cbn in Hi. injection Hi as <-. rewrite Nat.add_0_r.
      apply (processItem_pairedItem (keepOnlySet start) (groups start) start it h).
      by rewrite Hitem.
    + cbn in Hi. rewrite (Hpair i out Hi). lia.
Qed.


Lemma execute_from_failure keepOnlySet groups items :
  forall start h e,
  snd (execute_from keepOnlySet groups start items h) = Err e ->
  exists i it outs hi,
    items !! i = Some it
    /\ execute_from keepOnlySet groups start (take i items) h = (hi, Ok outs)
    /\ snd (processItem (keepOnlySet (start + i)%nat) (groups (start + i)%nat)
              (start + i) it hi) = Err e
    /\ fst (execute_from keepOnlySet groups start items h)
       = fst (processItem (keepOnlySet (start + i)%nat) (groups (start + i)%nat)
                (start + i) it hi).
Proof.
  induction items as [|it items IH]; intros start h e Hrun; [discriminate|].
  cbn [execute_from] in Hrun.
  apply mbind_Err in Hrun as [[Hitem Hstore]|(out0 & h1 & Hitem & Hrun & Hstore)].
  - exists 0%nat, it, [], h. rewrite Nat.add_0_r. split; [reflexivity|].
    split; [reflexivity|]. split; [exact Hitem | exact Hstore].
  - apply mbind_Err in Hrun as [[Hrest Hstore']|(outs' & h2 & _ & Hrun & _)];
      [|discriminate].
    destruct (IH (S start) h1 e Hrest) as (i & it' & outs & hi & Hi & Hpre & Hfail & Hst).
    exists (S i), it', (out0 :: outs), hi.
    replace (start + S i)%nat with (S start + i)%nat by lia.
    split; [exact Hi|]. split.
    + cbn [take execute_from]. unfold mbind at 1. rewrite Hitem.
      unfold mbind at 1. rewrite Hpre. reflexivity.
    + split; [exact Hfail|]. cbn [execute_from]. rewrite Hstore, Hstore'. exact Hst.
Qed.


End Execute.

Lemma attributed_Ok {A : Type} i (a : A) : attributed i (Ok a).
Proof. intros message j. discriminate. Qed.

Lemma attributed_invalid {A : Type} i message : attributed i (@invalid A message i).
Proof. intros m j [= _ <-]. reflexivity. Qed.

Lemma attributed_foreign {A : Type} i (r : result A) : foreign r -> attributed i r.
Proof. intros Hr message j Heq. by destruct (Hr message j). Qed.

Lemma attributed_bind {A B : Type} i (r : result A) (f : A -> result B) :
  attributed i r -> (forall a, attributed i (f a)) -> attributed i (bind r f).
Proof.
  intros Hr Hf. destruct r as [a|e]; cbn [bind]; [apply Hf|].
  intros message j [= ->]. by apply (Hr message j).
Qed.

Lemma foreign_with_RegExp {A : Type} pattern fs (f : RegExp -> A) :
  foreign (with_RegExp pattern fs f).
Proof. unfold with_RegExp. intros message j. by destruct (new_RegExp pattern fs). Qed.

Lemma foreign_lodash_trim_with bounds text chars :
  foreign (lodash_trim_with bounds text chars).
Proof.
  intros message j. unfold lodash_trim_with, stringToArray.
  destruct text; [discriminate|]. destruct chars; [discriminate|].
  destruct (hasUnicode _); [discriminate|]. destruct (hasUnicode _); [discriminate|].
  cbn [bind]. by destruct (bounds _ _).
Qed.

Create HintDb attributed.

#[local] Hint Resolve attributed_Ok attributed_invalid attributed_foreign
  foreign_with_RegExp foreign_lodash_trim_with : attributed.

Ltac attributed_cases :=
  repeat match goal with
         | |- attributed _ (if ?b then _ else _) => destruct b
         | |- attributed _ (match ?x with _ => _ end) => destruct x
         | |- attributed _ (bind _ _) => apply attributed_bind; [|intros ?]
         end;
  eauto with attributed.

Lemma attributed_replacement i extended v : attributed i (replacement extended v).
Proof. unfold replacement, unescapeEscapedCharacters. attributed_cases. Qed.

Lemma attributed_trim_case i trim unit trimString text :
  attributed i (trim_case i trim unit trimString text).
Proof.
  unfold trim_case, charsTrim, charsTrimStart, charsTrimEnd,
    lodash_trim, lodash_trimStart, lodash_trimEnd.
  attributed_cases.
Qed.

Lemma attributed_pad_case i pad targetLength padString text :
  attributed i (pad_case i pad targetLength padString text).
Proof. unfold pad_case. attributed_cases. Qed.

Lemma attributed_substring_case i startPosition end_ endPosition endLength text :
  attributed i (substring_case i startPosition end_ endPosition endLength text).
Proof. unfold substring_case. attributed_cases. Qed.

Lemma attributed_repeat_case limit i times text :
  attributed i (repeat_case limit i times text).
Proof. unfold repeat_case, js_repeat. attributed_cases; intros message j; discriminate. Qed.

Lemma attributed_replace_regex i extended regex pattern text :
  attributed i (replace_regex extended regex pattern text).
Proof.
  unfold replace_regex, new_RegExp_js.
  apply attributed_bind; [auto with attributed|]. intros literal.
  destruct (js_match literal regex); [destruct (Nat.eqb _ _)|];
    (apply attributed_bind; [auto with attributed|]; intros re;
     apply attributed_bind; [apply attributed_replacement|]; intros v;
     apply attributed_Ok).
Qed.

Section Attribution.
Context `{IconvCodecs} `{TextPrimitives}.
Hypothesis Hlib : libraries_are_foreign.

Lemma attributed_iconv_decode i buf enc o : attributed i (iconv_decode buf enc o).
Proof.
  destruct Hlib as (Hc & Hd & _). unfold iconv_decode.
  apply attributed_bind; [by apply attributed_foreign|]. intros bomAware.
  apply attributed_bind; [by apply attributed_foreign|]. intros res.
  attributed_cases.
Qed.

Lemma attributed_iconv_encode i s enc o : attributed i (iconv_encode s enc o).
Proof.
  destruct Hlib as (Hc & _ & He & _). unfold iconv_encode.
  apply attributed_bind; [by apply attributed_foreign|]. intros bomAware.
  destruct (_ && _)%bool; by apply attributed_foreign.
Qed.

Lemma attributed_apply i text m : attributed i (apply i text m).
Proof.
  destruct Hlib as (_ & _ & _ & Hdu & Hduc & Heu & Heuc & Hup & Hlow).
  destruct m as [before after | dw ew ab sb | dwe ewe dm em | caseType language
                 | form | p | trim unit trimString | pad tl ps | sp e ep el | times | action];
    cbn [apply].
  - apply attributed_Ok.
  - unfold decodeEncode_case. destruct (negb _); [|apply attributed_Ok].
    apply attributed_bind; [apply attributed_iconv_decode|]. intros decoded.
    apply attributed_bind; [apply attributed_iconv_encode|]. intros encoded.
    apply attributed_Ok.
  - destruct (negb _); [|apply attributed_Ok].
    apply attributed_bind; [|intros text'];
      unfold decodeEntities, encodeEntities;
      repeat match goal with
             | |- attributed _ (if ?b then _ else _) => destruct b
             end; auto using attributed_Ok, attributed_invalid, attributed_foreign.
  - unfold letterCase.
    repeat match goal with
           | |- attributed _ (if ?b then _ else _) => destruct b
           end; auto using attributed_Ok, attributed_invalid, attributed_foreign.
  - unfold normalize_case.
    repeat match goal with
           | |- attributed _ (if ?b then _ else _) => destruct b
           end; apply attributed_Ok.
  - unfold replace.
    destruct (String.eqb (replaceMode p) "substring").
    { destruct (rp_replaceAll p);
        (apply attributed_bind; [apply attributed_replacement|]; intros v);
        [unfold replaceAll; auto with attributed | apply attributed_Ok]. }
    destruct (String.eqb (replaceMode p) "extendedSubstring").
    { destruct (rp_replaceAll p);
        (apply attributed_bind;
           [unfold unescapeEscapedCharacters; auto with attributed|]; intros sub;
         apply attributed_bind; [apply attributed_replacement|]; intros v);
        [unfold replaceAll; auto with attributed | apply attributed_Ok]. }
    destruct (String.eqb (replaceMode p) "regex"); [apply attributed_replace_regex|].
    destruct (String.eqb (replaceMode p) "predefinedRule"); [|apply attributed_invalid].
    destruct (String.eqb (predefinedRule p) "tags").
    { apply attributed_bind; [apply attributed_replacement|]. intros v. apply attributed_Ok. }
    destruct (String.eqb (predefinedRule p) "characterGroups"); [|apply attributed_invalid].
    unfold replace_characterGroups, new_RegExp_js.
    apply attributed_bind; [auto with attributed|]. intros re.
    apply attributed_bind; [apply attributed_replacement|]. intros v. apply attributed_Ok.
  - apply attributed_trim_case.
  - apply attributed_pad_case.
  - apply attributed_substring_case.
  - apply attributed_repeat_case.
  - apply attributed_invalid.
Qed.

Lemma attributed_applyAll i ms : forall text, attributed i (applyAll i text ms).
Proof.
  induction ms as [|m ms IH]; intros text; cbn [applyAll]; [apply attributed_Ok|].
  apply attributed_bind; [apply attributed_apply | exact IH].
Qed.

End Attribution.

Lemma foreign_copy_props rec clone ps :
  (forall v hash h, foreign (rec v hash h)) ->
  forall hash h, foreign (copy_props rec clone ps hash h).
Proof.
  intros Hrec. induction ps as [|[k v] ps IH]; intros hash h message j; [discriminate|].
  cbn [copy_props]. destruct (rec v hash h) as [[[v' hash'] h']|e] eqn:Hv; cbn [bind].
  - apply IH.
  - intros [= ->]. by apply (Hrec v hash h message j).
Qed.

Lemma foreign_deepCopy `{Functions} fuel : forall v hash h, foreign (deepCopy fuel v hash h).
Proof.
  induction fuel as [|fuel IH]; intros v hash h message j;
    (destruct v as [| | | | |l|f]; cbn [deepCopy]; try discriminate);
    (destruct (as_function _); [by destruct (call_function _ _ _)|]).
  - destruct (hash_get hash l); discriminate.
  - destruct (hash_get hash l); [discriminate|]. unfold alloc.
    match goal with
    | |- context [copy_props ?a ?b ?c ?d ?e] =>
        pose proof (foreign_copy_props a b c IH d e message j) as Hc;
        destruct (copy_props a b c d e) as [[hash' h']|e']; cbn [bind]; [discriminate|]
    end.
    intros [= ->]. by apply Hc.
Qed.

Section AttributionPipeline.
Context `{IconvCodecs} `{TextPrimitives} `{PathSyntax} `{BinaryHelpers} `{Functions}.
Hypothesis Hlib : libraries_are_foreign.

Lemma attributed_mbind {A B : Type} i (m : M A) (f : A -> M B) :
  (forall h, attributed i (snd (m h))) -> (forall a h, attributed i (snd (f a h))) ->
  forall h, attributed i (snd (mbind m f h)).
Proof.
  intros Hm Hf h. unfold mbind. specialize (Hm h).
  destruct (m h) as [h1 [a|e]]; [apply Hf|].
  intros message j [= ->]. by apply (Hm message j).
Qed.

Lemma attributed_decode_attachment i attachment dec strip h :
  attributed i (snd (decode_attachment attachment dec strip h)).
Proof.
  unfold decode_attachment, attachment_bytes. cbn [snd].
  apply attributed_bind; [|intros buf; by apply attributed_iconv_decode].
  destruct (prop h attachment (js "data")); (apply attributed_Ok || (intros m j; discriminate)).
Qed.

Lemma attributed_readSource i it newItemJson newItemBinary r h :
  attributed i (snd (readSource i it newItemJson newItemBinary r h)).
Proof.
  destruct r as [g name dec strip | g key skip | text | other]; cbn [readSource].
  - assert (Hdecode : forall attachment,
      attributed i (snd ((mbind (decode_attachment attachment dec strip)
                            (fun text => ret (Some text))) h))).
    { intros attachment. apply attributed_mbind.
      - intros h'. apply attributed_decode_attachment.
      - intros a h'. apply attributed_Ok. }
    destruct g.
    + destruct (obj_get (obj_of h newItemBinary) name); try apply Hdecode.
      destruct (match item_binary it with Some b => _ | None => _ end);
        first [apply attributed_Ok | apply Hdecode].
    + destruct (match item_binary it with Some b => _ | None => _ end);
        first [apply attributed_Ok | apply Hdecode].
  - destruct (if truthy _ then _ else _) as [| | b | z | s | l | f]; cbn [snd];
      try apply attributed_Ok; destruct skip; cbn [snd stringify bind];
      try apply attributed_Ok; try (intros m j; discriminate).
    destruct b; apply attributed_Ok.
  - apply attributed_Ok.
  - intros m j [= _ <-]. reflexivity.
Qed.

Lemma attributed_writeDestination i newItemJson newItemBinary w text h :
  attributed i (snd (writeDestination i newItemJson newItemBinary w text h)).
Proof.
  destruct w as [name enc bom fileName mimeType | key | other]; cbn [writeDestination].
  - apply attributed_mbind.
    + intros h'. by apply attributed_iconv_encode.
    + intros encoded h'. apply attributed_Ok.
  - apply attributed_Ok.
  - intros m j [= _ <-]. reflexivity.
Qed.

Lemma attributed_runDataSource i it newItemJson newItemBinary ms ds h :
  attributed i (snd (runDataSource i it newItemJson newItemBinary ms ds h)).
Proof.
  unfold runDataSource. apply attributed_mbind.
  - intros h'. apply attributed_readSource.
  - intros [text|] h'; [|apply attributed_Ok].
    apply attributed_mbind.
    + intros h''. by apply attributed_applyAll.
    + intros text' h''. apply attributed_writeDestination.
Qed.

Lemma attributed_forEach {A : Type} i (f : A -> M unit) (xs : list A) :
  (forall x h, attributed i (snd (f x h))) -> forall h, attributed i (snd (forEach f xs h)).
Proof.
  intros Hf. induction xs as [|x xs IH]; intros h; [apply attributed_Ok|].
  cbn [forEach]. apply attributed_mbind; [apply Hf | intros _; exact IH].
Qed.

Lemma attributed_processItem keepOnlySet groups i it h :
  attributed i (snd (processItem keepOnlySet groups i it h)).
Proof.
  unfold processItem.
  apply attributed_mbind; [intros h'; apply attributed_Ok|]. intros emptyJson h1.
  apply attributed_mbind; [intros h'; apply attributed_Ok|]. intros newItemBinary h2.
  apply attributed_mbind.
  { intros h'. destruct (negb keepOnlySet); [|apply attributed_Ok].
    apply attributed_mbind.
    - intros h''. destruct (item_binary it); apply attributed_Ok.
    - intros _ h''. pose proof (foreign_deepCopy (S (length h'')) (VObject (item_json it)) [] h'')
        as Hcopy.
      destruct (deepCopy _ _ _ _) as [[[copy hash] h3]|e]; [apply attributed_Ok|].
      intros m j [= ->]. by destruct (Hcopy m j). }
  intros newItemJson h3.
  apply attributed_mbind.
  { apply attributed_forEach. intros g. apply attributed_forEach.
    intros ds. apply attributed_runDataSource. }
  intros _ h4.
  apply attributed_mbind; [intros h'; apply attributed_Ok|]. intros keys h5.
  apply attributed_Ok.
Qed.


End AttributionPipeline.

Lemma plain_libraries_are_foreign :
  @libraries_are_foreign internal_codecs plain_primitives.
Proof.
  unfold libraries_are_foreign, foreign.
  cbn [getCodec codec_decoder codec_encoder internal_codecs plain_primitives
       decodeURI decodeURIComponent encodeURI encodeURIComponent
       toLocaleUpperCase toLocaleLowerCase].
  unfold internal_getCodec, internal_decoder, internal_encoder.
  repeat split; intros; repeat (destruct (String.eqb _ _)); discriminate.
Qed.

(** *** Writing a key and reading it back *)

Lemma js_eqb_refl a : js_eqb a a = true.
Proof. by apply js_eqb_eq. Qed.

Lemma js_eqb_neq a b : a <> b -> js_eqb a b = false.
Proof. intros Hne. destruct (js_eqb a b) eqn:E; [|reflexivity]. by apply js_eqb_eq in E. Qed.

Lemma obj_get_set_same o k v : obj_get (obj_set o k v) k = v.
Proof.
  induction o as [|[k' x] o IH]; cbn [obj_set obj_get].
  - by rewrite js_eqb_refl.
  - destruct (js_eqb k' k) eqn:E; cbn [obj_get]; rewrite E; [reflexivity | exact IH].
Qed.

Lemma obj_get_set_other o k v key : k <> key -> obj_get (obj_set o k v) key = obj_get o key.
Proof.
  intros Hne. induction o as [|[k' x] o IH]; cbn [obj_set obj_get].
  - by rewrite js_eqb_neq.
  - destruct (js_eqb k' k) eqn:E; cbn [obj_get].
    + apply js_eqb_eq in E. subst k'. by rewrite js_eqb_neq.
    + destruct (js_eqb k' key); [reflexivity | exact IH].
Qed.

Section WriteRead.
Context `{PathSyntax}.

Lemma baseSet_then_baseGet (path : list jsstring) :
  forall (h : store) (nested : nat) (v : value) (key0 : jsstring),
  safe_keys path = true -> (nested < length h)%nat ->
  head path = Some key0 -> unbound h nested key0 ->
  let h' := baseSet_loop h nested path v in
  baseGet_loop h' (VObject nested) path = v
  /\ (length h <= length h')%nat
  /\ (forall l, (l < length h)%nat -> l <> nested -> obj_of h' l = obj_of h l)
  /\ (exists x, obj_of h' nested = obj_set (obj_of h nested) key0 x).
Proof.
  induction path as [|key rest IH]; intros h nested v key0 Hsafe Hnested Hhead Hfree;
    [discriminate|].
  cbn [head] in Hhead. injection Hhead as <-.
  cbn [safe_keys forallb] in Hsafe. apply andb_true_iff in Hsafe as [Hkey Hrest].
  apply negb_true_iff in Hkey. cbn [baseSet_loop]. rewrite Hkey.
  destruct rest as [|key2 rest].
  - cbv zeta. cbn [baseGet_loop prop]. rewrite obj_of_assign_same by exact Hnested.
    split; [apply obj_get_set_same|]. split; [by rewrite length_assign|].
    split; [intros l _ Hl; by apply obj_of_assign_other|].
    by exists v.
  - assert (Hnew : match obj_get (obj_of h nested) key with
                   | VObject l' =>
                       baseSet_loop (assign h nested key (VObject l')) l' (key2 :: rest) v
                   | VFunction l' =>
                       baseSet_loop (assign h nested key (VFunction l')) l' (key2 :: rest) v
                   | _ =>
                       let '(l', h1) := alloc h [] in
                       baseSet_loop (assign h1 nested key (VObject l')) l' (key2 :: rest) v
                   end
                   = baseSet_loop (assign (h ++ [[]]) nested key (VObject (length h)))
                       (length h) (key2 :: rest) v).
    { destruct (obj_get (obj_of h nested) key) eqn:E; try reflexivity;
        destruct (Hfree l); contradiction. }
    rewrite Hnew. clear Hnew. cbv zeta.
    set (h2 := assign (h ++ [[]]) nested key (VObject (length h))).
    assert (Hlen2 : length h2 = S (length h)).
    { unfold h2. rewrite length_assign, length_app. cbn [length]. lia. }
    assert (Hfresh : obj_of h2 (length h) = []).
    { unfold h2. rewrite obj_of_assign_other by lia. apply obj_of_new. }
    destruct (IH h2 (length h) v key2 Hrest) as (Hget & Hlen & Hframe & _);
      [lia | reflexivity | intros l'; rewrite Hfresh; split; discriminate |].
    assert (Hobj : obj_of (baseSet_loop h2 (length h) (key2 :: rest) v) nested
                   = obj_set (obj_of h nested) key (VObject (length h))).
    { rewrite Hframe by lia. unfold h2.
      rewrite obj_of_assign_same by (rewrite length_app; lia).
      by rewrite obj_of_app. }
    split.
    { change (baseGet_loop ?h' (VObject nested) (key :: key2 :: rest))
        with (baseGet_loop h' (prop h' (VObject nested) key) (key2 :: rest)).
      cbn [prop]. rewrite Hobj, obj_get_set_same. exact Hget. }
    split; [lia|]. split.
    + intros l Hl Hne. rewrite Hframe by lia. unfold h2.
      rewrite obj_of_assign_other by lia. by apply obj_of_app.
    + by exists (VObject (length h)).
Qed.

End WriteRead.

Lemma has_own_set_other (o : list (jsstring * value)) (k key : jsstring) (x : value) :
  k <> key ->
  existsb (fun kv => js_eqb (fst kv) key) (obj_set o k x)
  = existsb (fun kv => js_eqb (fst kv) key) o.
Proof.
  intros Hne. induction o as [|[k' y] o IH]; cbn [obj_set existsb fst].
  - by rewrite js_eqb_neq.
  - destruct (js_eqb k' k) eqn:E; cbn [existsb fst]; [reflexivity | by rewrite IH].
Qed.

Lemma has_own_set_same (o : list (jsstring * value)) (k : jsstring) (x : value) :
  existsb (fun kv => js_eqb (fst kv) k) (obj_set o k x) = true.
Proof.
  induction o as [|[k' y] o IH]; cbn [obj_set existsb fst].
  - by rewrite js_eqb_refl.
  - destruct (js_eqb k' k) eqn:E; cbn [existsb fst]; rewrite E; [reflexivity | exact IH].
Qed.

(** The key list of a path is the same before and after the write. *)
Lemma castPath_after_set (h : store) (l : nat) (path : jsstring) (v : value)
    (key0 : jsstring) :
  (l < length h)%nat -> bracket_free path = true ->
  let keys := @castPath dotted_paths h path (VObject l) in
  safe_keys keys = true -> head keys = Some key0 -> unbound h l key0 ->
  @castPath dotted_paths (baseSet_loop h l keys v) path (VObject l) = keys.
Proof.
  intros Hl Hbr keys Hsafe Hhead Hfree.
  destruct (baseSet_then_baseGet keys h l v key0 Hsafe Hl Hhead Hfree)
    as (_ & _ & _ & x & Hobj).
  unfold keys in *. unfold castPath, isKey in *. cbn [isDeepProp stringToPath dotted_paths] in *.
  destruct (forallb is_word_char path
            || negb (existsb (fun c => cu_eqb c (ch ".") || cu_eqb c (ch "[")) path))%bool
    eqn:Hplain; [reflexivity|].
  cbn [orb] in *. cbn [has_own] in *.
  destruct (existsb (fun kv => js_eqb (fst kv) path) (obj_of h l)) eqn:Hown.
  - cbn [head] in Hhead. injection Hhead as <-. rewrite Hobj, has_own_set_same. reflexivity.
  - assert (Hne : key0 <> path).
    { intros ->. apply orb_false_iff in Hplain as [_ Hdeep]. apply negb_false_iff in Hdeep.
      assert (Hseg : forallb (fun c => negb (cu_eqb c (ch "."))) path = true).
      { apply (split_on_segments (ch ".") path [] path eq_refl).
        destruct (split_on (ch ".") [] path); [discriminate|].
        cbn [head] in Hhead. injection Hhead as ->. by left. }
      apply existsb_exists in Hdeep as (c & Hc & Hdot).
      pose proof (proj1 (forallb_forall _ _) Hseg c Hc) as Hc1.
      pose proof (proj1 (forallb_forall _ _) Hbr c Hc) as Hc2.
      apply negb_true_iff in Hc1. apply negb_true_iff in Hc2.
      apply orb_false_iff in Hc2 as [Hc2 _]. by rewrite Hc1, Hc2 in Hdot. }
    by rewrite Hobj, has_own_set_other, Hown.
Qed.

Section WrittenKey.
Context `{IconvCodecs} `{TextPrimitives} `{BinaryHelpers}.


End WrittenKey.

(** *** Attachments *)

Section Attachments.
Context `{IconvCodecs} `{TextPrimitives} `{PathSyntax} `{BinaryHelpers}.

(** X23. After a text is written to a binary property, the property refers
    to the new attachment and a later source in read-manipulated mode
    decodes that attachment, whatever the text and the raw item hold. *)
Theorem written_file_is_read_back (itemIndex : nat) (it : item) (newItemJson : value)
    (newItemBinary : nat) (h : store) (name fileName mimeType text : jsstring)
    (enc dec : string) (bom strip : option bool) (encoded : buffer) :
  (newItemBinary < length h)%nat ->
  iconv_encode text enc (mkOptions bom None) = Ok encoded ->
  let h' := fst (writeDestination itemIndex newItemJson newItemBinary
                   (ToFile name enc bom fileName mimeType) text h) in
  obj_get (obj_of h' newItemBinary) name = VObject (length h)
  /\ obj_of h' (length h) = prepareBinaryData encoded fileName mimeType
  /\ readSource itemIndex it newItemJson newItemBinary (FromFile true name dec strip) h'
     = mbind (decode_attachment (VObject (length h)) dec strip)
         (fun text' => ret (Some text')) h'.
Proof.
  intros Hnb Henc h'.
  assert (Hh' : h' = assign (h ++ [prepareBinaryData encoded fileName mimeType])
                       newItemBinary name (VObject (length h))).
  { unfold h', writeDestination, mbind, lift. rewrite Henc. reflexivity. }
  assert (Hget : obj_get (obj_of h' newItemBinary) name = VObject (length h)).
  { rewrite Hh', obj_of_assign_same by (rewrite length_app; lia). apply obj_get_set_same. }
  split; [exact Hget|]. split.
  - rewrite Hh', obj_of_assign_other by lia. apply obj_of_new.
  - cbn [readSource]. rewrite Hget. reflexivity.
Qed.

End Attachments.

(** *** The attachments of an untouched item *)

Lemma fold_obj_set_get (ps : list (jsstring * value)) :
  NoDup (map fst ps) ->
  forall o key,
  obj_get (fold_left (fun o' kv => obj_set o' (fst kv) (snd kv)) ps o) key
  = if existsb (fun kv => js_eqb (fst kv) key) ps then obj_get ps key else obj_get o key.
Proof.
  induction ps as [|[k v] ps IH]; intros Hnd o key; [reflexivity|].
  cbn [map fst] in Hnd. inversion Hnd as [|? ? Hk Hnd']; subst. clear Hnd. rename Hnd' into Hnd.
  cbn [fold_left fst snd existsb obj_get]. rewrite (IH Hnd).
  destruct (js_eqb k key) eqn:E; cbn [orb].
  - apply js_eqb_eq in E. subst key.
    assert (Hno : existsb (fun kv => js_eqb (fst kv) k) ps = false).
    { destruct (existsb _ ps) eqn:Hex; [|reflexivity]. exfalso. apply Hk.
      apply existsb_exists in Hex as ([k' x] & Hin & Heq). cbn [fst] in Heq.
      apply js_eqb_eq in Heq. subst k'. apply list_elem_of_In.
      apply in_map_iff. by exists (k, x). }
    rewrite Hno. apply obj_get_set_same.
  - destruct (existsb _ ps); [reflexivity|]. apply obj_get_set_other.
    intros ->. by rewrite js_eqb_refl in E.
Qed.

Lemma fold_obj_set_nil (ps : list (jsstring * value)) (o : list (jsstring * value)) :
  fold_left (fun o' kv => obj_set o' (fst kv) (snd kv)) ps o = [] -> ps = [] /\ o = [].
Proof.
  revert o. induction ps as [|[k v] ps IH]; intros o; cbn [fold_left]; [done|].
  intros Hnil. apply IH in Hnil as [_ Hset]. cbn [fst snd] in Hset.
  destruct o as [|[k' x] o]; cbn [obj_set] in Hset; [discriminate|].
  destruct (js_eqb k' k); discriminate.
Qed.

Lemma fold_assign_obj (ps : list (jsstring * value)) (target : nat) :
  forall h, (target < length h)%nat ->
  let h' := fold_left (fun h' kv => assign h' target (fst kv) (snd kv)) ps h in
  obj_of h' target = fold_left (fun o' kv => obj_set o' (fst kv) (snd kv)) ps (obj_of h target)
  /\ length h' = length h.
Proof.
  induction ps as [|[k v] ps IH]; intros h Ht; cbn [fold_left fst snd]; [done|].
  destruct (IH (assign h target k v)) as [Hobj Hlen]; [by rewrite length_assign|].
  cbv zeta in Hobj, Hlen. rewrite Hobj, Hlen, length_assign.
  by rewrite obj_of_assign_same.
Qed.

Section Untouched.
Context `{IconvCodecs} `{TextPrimitives} `{PathSyntax} `{BinaryHelpers} `{Functions}.

Lemma untouched_item_parts (itemIndex : nat) (it : item)
    (h h' : store) (out : outputItem) :
  plain_data h = true -> (item_json it < length h)%nat ->
  processItem false [] itemIndex it h = (h', Ok out) ->
  (exists c, out_json out = VObject c /\ (length h <= c)%nat)
  /\ match item_binary it with
     | None => out_binary out = None
     | Some b =>
         NoDup (map fst (obj_of h b)) ->
         (obj_of h b = [] -> out_binary out = None)
         /\ (obj_of h b <> [] ->
             exists nb, out_binary out = Some nb /\ (length h <= nb)%nat
               /\ forall key, obj_get (obj_of h' nb) key = obj_get (obj_of h b) key)
     end.
Proof.
  intros Hplain Hitem.
  unfold processItem. unfold mbind at 1. unfold alloc at 1. cbv iota beta.
  unfold mbind at 1. unfold alloc at 1. cbv iota beta.
  set (h2 := (h ++ [[]]) ++ [[]]). set (nb := length (h ++ [[]])).
  assert (Hnb : nb = S (length h)) by (unfold nb; rewrite length_app; cbn; lia).
  assert (Hlen2 : length h2 = S (S (length h))).
  { unfold h2. rewrite !length_app. cbn. lia. }
  cbn [negb]. unfold mbind at 1.
  set (h3 := fst ((match item_binary it with
                   | Some b => Object_assign nb b
                   | None => ret tt
                   end) h2)).
  assert (Hassign : (match item_binary it with
                     | Some b => Object_assign nb b
                     | None => ret tt
                     end) h2 = (h3, Ok tt)).
  { unfold h3. destruct (item_binary it); reflexivity. }
  unfold mbind at 1. rewrite Hassign.
  assert (Hprefix3 : take (length h) h3 = h).
  { unfold h3. destruct (item_binary it) as [b|]; cbn [ret fst].
    - destruct (Object_assign_store nb b h2 (length h) ltac:(lia)) as [Ht _].
      rewrite Ht. unfold h2. rewrite <- app_assoc. apply take_app_length.
    - unfold h2. rewrite <- app_assoc. apply take_app_length. }
  assert (Hh3 : length h3 = length h2
                /\ obj_of h3 nb
                   = match item_binary it with
                     | Some b => fold_left (fun o' kv => obj_set o' (fst kv) (snd kv))
                                   (obj_of h b) []
                     | None => []
                     end).
  { unfold h3. destruct (item_binary it) as [b|]; cbn [ret fst].
    - unfold Object_assign. cbn [fst].
      destruct (fold_assign_obj (obj_of h2 b) nb h2) as [Hobj Hlen]; [lia|].
      cbv zeta in Hobj, Hlen. split; [exact Hlen|]. rewrite Hobj.
      assert (Hempty : obj_of h2 nb = []).
      { unfold h2, nb. apply obj_of_new. }
      rewrite Hempty. f_equal.
      destruct (Nat.lt_ge_cases b (length h)) as [Hlt|Hge].
      + unfold h2. by rewrite !obj_of_app by (rewrite ?length_app; cbn; lia).
      + assert (Hout : obj_of h b = []).
        { unfold obj_of. by rewrite lookup_ge_None_2. }
        rewrite Hout. unfold obj_of, h2.
        destruct (decide (b = length h)) as [->|Hb1].
        { rewrite lookup_app_l by (rewrite length_app; cbn; lia).
          by rewrite list_lookup_middle. }
        destruct (decide (b = S (length h))) as [->|Hb2].
        { replace (S (length h)) with (length (h ++ [[]])) by (rewrite length_app; cbn; lia).
          by rewrite list_lookup_middle. }
        rewrite lookup_ge_None_2; [reflexivity|]. rewrite !length_app. cbn. lia.
    - split; [reflexivity|]. unfold h2, nb. apply obj_of_new. }
  destruct Hh3 as [Hlen3 Hobj3].
  destruct (deepCopy (S (length h3)) (VObject (item_json it)) [] h3)
    as [[[copy hash] h4]|e] eqn:Hcopy; [|discriminate].
  assert (Hho : hash_ok (length h3) [] h3) by (intros a c Hh; discriminate Hh).
  assert (Hsrc : plain_value (length h) (VObject (item_json it)) = true)
    by (by apply Nat.ltb_lt).
  destruct (deepCopy_spec h Hplain (length h3) _ ltac:(lia) _ _ _ _ _ _ Hsrc (Nat.le_refl _)
              Hprefix3 (fresh_closed_none h3) Hho Hcopy)
    as [Hroot (Hlen4 & Htake4 & _ & _ & Hfresh & _)].
  destruct (Hroot _ eq_refl) as [c ->].
  cbn [forEach]. unfold mbind, ret, read. intros [= <- <-]. cbn [out_json out_binary].
  assert (Hobj4 : obj_of h4 nb = obj_of h3 nb).
  { unfold obj_of. rewrite <- (lookup_take_lt h4 (length h3)) by lia.
    rewrite Htake4, firstn_all. reflexivity. }
  split.
  { exists c. split; [reflexivity|]. specialize (Hfresh c eq_refl). lia. }
  rewrite Hobj4, Hobj3. destruct (item_binary it) as [b|]; [|reflexivity].
  cbv beta iota. intros Hnd. split.
  - intros ->. reflexivity.
  - intros Hne. exists nb.
    destruct (Nat.eqb_spec (length (fold_left (fun o' kv => obj_set o' (fst kv) (snd kv))
                                      (obj_of h b) [])) 0) as [Hz|Hnz].
    { apply length_zero_iff_nil in Hz. by apply fold_obj_set_nil in Hz as [? _]. }
    split; [reflexivity|]. split; [lia|].
    intros key. rewrite Hobj4, Hobj3, (fold_obj_set_get _ Hnd).
    destruct (existsb _ (obj_of h b)) eqn:Hex; [reflexivity|].
    cbn [obj_get]. symmetry.
    clear -Hex. induction (obj_of h b) as [|[k v] ps IH]; [reflexivity|].
    cbn [existsb fst obj_get] in *. apply orb_false_iff in Hex as [-> Hex]. by apply IH.
Qed.

Lemma untouched_item_returns (itemIndex : nat) (it : item) (h : store) :
  plain_data h = true -> (item_json it < length h)%nat ->
  exists h' out, processItem false [] itemIndex it h = (h', Ok out).
Proof.
  intros Hplain Hitem.
  unfold processItem. unfold mbind at 1. unfold alloc at 1. cbv iota beta.
  unfold mbind at 1. unfold alloc at 1. cbv iota beta.
  set (h2 := (h ++ [[]]) ++ [[]]). set (nb := length (h ++ [[]])).
  assert (Hnb : nb = S (length h)) by (unfold nb; rewrite length_app; cbn; lia).
  cbn [negb]. unfold mbind at 1.
  set (h3 := fst ((match item_binary it with
                   | Some b => Object_assign nb b
                   | None => ret tt
                   end) h2)).
  assert (Hassign : (match item_binary it with
                     | Some b => Object_assign nb b
                     | None => ret tt
                     end) h2 = (h3, Ok tt)).
  { unfold h3. destruct (item_binary it); reflexivity. }
  unfold mbind at 1. rewrite Hassign.
  assert (Hprefix3 : take (length h) h3 = h).
  { unfold h3. destruct (item_binary it) as [b|]; cbn [ret fst].
    - destruct (Object_assign_store nb b h2 (length h) ltac:(lia)) as [Ht _].
      rewrite Ht. unfold h2. rewrite <- app_assoc. apply take_app_length.
    - unfold h2. rewrite <- app_assoc. apply take_app_length. }
  assert (Hle : (length h <= length h3)%nat).
  { rewrite <- Hprefix3 at 1. rewrite length_take. lia. }
  assert (Hho : hash_ok (length h3) [] h3) by (intros a c Hh; discriminate Hh).
  assert (Hsrc : plain_value (length h) (VObject (item_json it)) = true)
    by (by apply Nat.ltb_lt).
  assert (Hwf : hash_wf (length h) []) by (split; constructor).
  destruct (deepCopy_returns h Hplain (length h3) (S (length h3)) Hle _ _ _ Hsrc
              (Nat.le_refl _) Hprefix3 (fresh_closed_none h3) Hho Hwf)
    as (copy & hash & h4 & -> & _); [cbn [length]; lia|].
  cbn [forEach]. unfold mbind, ret, read. by eexists _, _.
Qed.

(** X24. For an item of plain data (the store holds no functions, so no
    [toJSON] method, and no dangling reference, and the [json] of the item
    is an object of it), without [keepOnlySet] and with no data source,
    the item is processed: the output [json] is a new object, and the
    output [binary] is a new map with the entries of the input map, or
    [undefined] when the input has no map or an empty one. *)
Theorem untouched_item_keeps_its_attachments (itemIndex : nat) (it : item) (h : store) :
  plain_data h = true -> (item_json it < length h)%nat ->
  exists h' out,
    processItem false [] itemIndex it h = (h', Ok out)
    /\ (exists c, out_json out = VObject c /\ (length h <= c)%nat)
    /\ match item_binary it with
       | None => out_binary out = None
       | Some b =>
           NoDup (map fst (obj_of h b)) ->
           (obj_of h b = [] -> out_binary out = None)
           /\ (obj_of h b <> [] ->
               exists nb, out_binary out = Some nb /\ (length h <= nb)%nat
                 /\ forall key, obj_get (obj_of h' nb) key = obj_get (obj_of h b) key)
       end.
Proof.
  intros Hplain Hitem.
  destruct (untouched_item_returns itemIndex it h Hplain Hitem) as (h' & out & Hrun).
  exists h', out. split; [exact Hrun|].
  by apply (untouched_item_parts itemIndex it h h' out).
Qed.

End Untouched.





Lemma written_file_is_read_back_witness :
  (0 < length [[] : list (jsstring * value)])%nat
  /\ @iconv_encode internal_codecs (js "hi") "utf8" (mkOptions None None)
     = Ok (Buffer_from (js "hi"))
  /\ obj_get
       (obj_of (fst (@writeDestination internal_codecs dotted_paths plain_binary 0
                       (VObject 0) 0 (ToFile (js "f") "utf8" None (js "f.txt") (js "text/plain"))
                       (js "hi") [[]])) 0) (js "f")
     = VObject 1.
Proof.
  split; [cbn; lia|]. split; [reflexivity|].
  apply (@written_file_is_read_back internal_codecs dotted_paths plain_binary
           0 (mkItem 0 None) (VObject 0) 0 [[]] (js "f") (js "f.txt") (js "text/plain")
           (js "hi") "utf8" "utf8" None None (Buffer_from (js "hi")));
    [cbn; lia | reflexivity].
Defined.

Lemma untouched_item_keeps_its_attachments_witness :
  plain_data
    [[(js "a", VString (js "x"))]; [(js "file", VObject 2)]; [(js "data", VString [])]]
  = true
  /\ exists h' out,
    @processItem internal_codecs plain_primitives dotted_paths plain_binary no_methods
      false [] 0 (mkItem 0 (Some 1%nat))
      [[(js "a", VString (js "x"))]; [(js "file", VObject 2)]; [(js "data", VString [])]]
    = (h', Ok out)
    /\ exists c, out_json out = VObject c /\ (3 <= c)%nat.
Proof.
  split; [reflexivity|].
  destruct (@untouched_item_keeps_its_attachments internal_codecs plain_primitives
              dotted_paths plain_binary no_methods 0 (mkItem 0 (Some 1%nat))
              [[(js "a", VString (js "x"))]; [(js "file", VObject 2)];
               [(js "data", VString [])]] eq_refl ltac:(cbn; lia))
    as (h' & out & Hrun & Hjson & _).
  by exists h', out.
Defined.

(** ** Option switches and numeric guards *)

Lemma eqb_not_in (x : string) (xs : list string) (y : string) :
  ~ In x xs -> In y xs -> String.eqb x y = false.
Proof.
  intros Hx Hy. destruct (String.eqb_spec x y) as [->|]; [contradiction | reflexivity].
Qed.

Ltac not_listed H :=
  repeat (rewrite (eqb_not_in _ _ _ H) by (cbn; tauto)).

Section Options.
Context `{IconvCodecs} `{TextPrimitives} `{PathSyntax} `{BinaryHelpers}.

(** X25. What the operations do with an option outside its list. Letter
    case, replace mode, predefined rule, trim and substring end are
    rejected with the [NodeOperationError] of their switch and the index of
    the item, and so is the pad mode once the target length passed its
    guard. DecodeEncodeEntities looks at its options only when the two
    codings differ: then an unknown decode coding is rejected, an unknown
    encode coding is rejected once decoding returned, and a mode is
    checked for the codings [xml] and [html] only; with equal codings the
    text is returned as it is, whatever the coding and the modes are. An
    unknown action, read operation or write operation is rejected. *)
Theorem unknown_options_are_rejected (itemIndex : nat) (text : jsstring) :
  (forall caseType language, ~ In caseType caseTypes ->
     apply itemIndex text (LetterCase caseType language)
     = Err (NodeOperationError
         "upperCase, lowerCase, capitalize, camelCase, kebabCase or snakeCase are valid options"
         itemIndex))
  /\ (forall p, ~ In (replaceMode p) replaceModes ->
        apply itemIndex text (Replace p)
        = Err (NodeOperationError
            "substring, extendedSubstring, regex or predefinedRule are valid options"
            itemIndex))
  /\ (forall p, replaceMode p = "predefinedRule"%string ->
        ~ In (predefinedRule p) ["tags"; "characterGroups"]%string ->
        apply itemIndex text (Replace p)
        = Err (NodeOperationError "tags or characterGroups are valid options" itemIndex))
  /\ (forall trim unit trimString,
        ~ In trim ["trimBoth"; "trimStart"; "trimEnd"]%string ->
        apply itemIndex text (Trim trim unit trimString)
        = Err (NodeOperationError "trimBoth, trimStart or trimEnd are valid options"
                 itemIndex))
  /\ (forall pad targetLength padString,
        ~ In pad ["padStart"; "padEnd"]%string -> 0 <= targetLength ->
        apply itemIndex text (Pad pad (Some targetLength) padString)
        = Err (NodeOperationError "padStart or padEnd are valid options" itemIndex))
  /\ (forall startPosition end_ endPosition endLength,
        ~ In end_ ["complete"; "position"; "length"]%string ->
        apply itemIndex text (Substring startPosition end_ endPosition endLength)
        = Err (NodeOperationError "complete, position or length are valid options"
                 itemIndex))
  /\ (forall decodeWith encodeWith decodeMode encodeMode,
        encodeWith <> decodeWith -> ~ In decodeWith entityCodings ->
        apply itemIndex text
          (DecodeEncodeEntities decodeWith encodeWith decodeMode encodeMode)
        = Err (NodeOperationError "url, xml, html or nothing are valid options" itemIndex))
  /\ (forall decodeWith encodeWith decodeMode encodeMode decoded,
        encodeWith <> decodeWith ->
        decodeEntities itemIndex decodeWith decodeMode text = Ok decoded ->
        ~ In encodeWith entityCodings ->
        apply itemIndex text
          (DecodeEncodeEntities decodeWith encodeWith decodeMode encodeMode)
        = Err (NodeOperationError "url, xml, html or nothing are valid options" itemIndex))
  /\ (forall decodeWith encodeWith decodeMode encodeMode,
        encodeWith <> decodeWith -> In decodeWith ["xml"; "html"]%string ->
        ~ In decodeMode ["legacy"; "strict"]%string ->
        apply itemIndex text
          (DecodeEncodeEntities decodeWith encodeWith decodeMode encodeMode)
        = Err (NodeOperationError "legacy or strict are valid options" itemIndex))
  /\ (forall decodeWith encodeWith decodeMode encodeMode decoded,
        encodeWith <> decodeWith ->
        decodeEntities itemIndex decodeWith decodeMode text = Ok decoded ->
        In encodeWith ["xml"; "html"]%string ->
        ~ In encodeMode ["extensive"; "utf8"; "nonAscii"]%string ->
        apply itemIndex text
          (DecodeEncodeEntities decodeWith encodeWith decodeMode encodeMode)
        = Err (NodeOperationError "extensive, utf8 or nonAscii are valid options"
                 itemIndex))
  /\ (forall encodeWith decodeMode encodeMode,
        ~ In encodeWith entityCodings ->
        apply itemIndex text
          (DecodeEncodeEntities "nothing" encodeWith decodeMode encodeMode)
        = Err (NodeOperationError "url, xml, html or nothing are valid options" itemIndex))
  /\ (forall coding decodeMode encodeMode,
        apply itemIndex text (DecodeEncodeEntities coding coding decodeMode encodeMode)
        = Ok text)
  /\ (forall action,
        apply itemIndex text (UnknownAction action)
        = Err (NodeOperationError
            "decodeEncode, replace, trim, pad, substring or repeat are valid options"
            itemIndex))
  /\ (forall it newItemJson newItemBinary other h,
        readSource itemIndex it newItemJson newItemBinary (UnknownRead other) h
        = (h, Err (NodeOperationError "fromFile, fromJSON or fromText are valid options"
                     itemIndex)))
  /\ (forall newItemJson newItemBinary other h,
        writeDestination itemIndex newItemJson newItemBinary (UnknownWrite other) text h
        = (h, Err (NodeOperationError "toFile or toJSON are valid options" itemIndex))).
Proof.
  assert (Hdiffer : forall a b : string, a <> b -> negb (String.eqb a b) = true).
  { intros a b Hab. by destruct (String.eqb_spec a b). }
  repeat split.
  - intros caseType language Hno. cbn [apply]. unfold letterCase, caseTypes in *.
    by not_listed Hno.
  - intros p Hno. cbn [apply]. unfold replace, replaceModes in *. by not_listed Hno.
  - intros p Hmode Hno. cbn [apply]. unfold replace. rewrite Hmode.
    cbn [String.eqb Ascii.eqb Bool.eqb]. by not_listed Hno.
  - intros trim unit trimString Hno. cbn [apply]. unfold trim_case. by not_listed Hno.
  - intros pad targetLength padString Hno Hpos. cbn [apply]. unfold pad_case.
    destruct (Z.ltb_spec targetLength 0); [lia|]. by not_listed Hno.
  - intros startPosition end_ endPosition endLength Hno. cbn [apply]. unfold substring_case.
    by not_listed Hno.
  - intros d e md me Hne Hno. cbn [apply]. rewrite (Hdiffer _ _ Hne).
    unfold decodeEntities, entityCodings in *. by not_listed Hno.
  - intros d e md me decoded Hne Hdec Hno. cbn [apply]. rewrite (Hdiffer _ _ Hne), Hdec.
    cbn [bind]. unfold encodeEntities, entityCodings in *. by not_listed Hno.
  - intros d e md me Hne [<-|[<-|[]]] Hno; cbn [apply]; rewrite (Hdiffer _ _ Hne);
      unfold decodeEntities; cbn [String.eqb Ascii.eqb Bool.eqb]; by not_listed Hno.
  - intros d e md me decoded Hne Hdec [<-|[<-|[]]] Hno; cbn [apply];
      rewrite (Hdiffer _ _ Hne), Hdec; cbn [bind]; unfold encodeEntities;
      cbn [String.eqb Ascii.eqb Bool.eqb]; by not_listed Hno.
  - intros e md me Hno. cbn [apply].
    assert (Hne : e <> "nothing"%string) by (intros ->; apply Hno; cbn; tauto).
    rewrite (Hdiffer _ _ Hne). unfold decodeEntities. cbn [String.eqb Ascii.eqb Bool.eqb bind].
    unfold encodeEntities, entityCodings in *. by not_listed Hno.
  - intros coding md me. cbn [apply]. by rewrite String.eqb_refl.
Qed.

End Options.

(** X26. The numeric guards: Pad raises the target-length error exactly when
    the target length is missing or negative, whatever the pad mode is
    (the guard comes before the mode switch); Substring in [length] mode
    and Repeat raise their error exactly when the length, or the count, is
    missing or negative. A count that passes the guard of Repeat gives the
    text that many times when this fits the platform's string limit, and
    the platform's [RangeError], not an error of the node, when it does
    not. *)
Theorem numeric_guards_come_first (limit : Z) (itemIndex : nat) (text : jsstring) :
  (forall pad targetLength padString,
     unset_or_negative targetLength <->
     pad_case itemIndex pad targetLength padString text
     = Err (NodeOperationError "The Target Length has to be set to at least 0 or higher!"
              itemIndex))
  /\ (forall startPosition endPosition endLength,
        unset_or_negative endLength <->
        substring_case itemIndex startPosition "length" endPosition endLength text
        = Err (NodeOperationError "The Length has to be set to at least 0 or higher!"
                 itemIndex))
  /\ (forall times,
        unset_or_negative times <->
        repeat_case limit itemIndex times text
        = Err (NodeOperationError "The Times has to be set to at least 0 or higher!"
                 itemIndex))
  /\ (forall times, 0 <= times -> Z.of_nat (length text) * times <= limit ->
        repeat_case limit itemIndex (Some times) text = Ok (power (Z.to_nat times) text))
  /\ (forall times, 0 <= times -> limit < Z.of_nat (length text) * times ->
        repeat_case limit itemIndex (Some times) text
        = Err (LibraryError "RangeError: Invalid string length")).
Proof.
  split; [|split; [|split; [|split]]].
  - intros pad [t|] padString; cbn [unset_or_negative pad_case]; [|done].
    destruct (Z.ltb_spec t 0); [done|]. split; [lia|].
    destruct (String.eqb pad "padStart"); [discriminate|].
    destruct (String.eqb pad "padEnd"); discriminate.
  - intros startPosition endPosition [l|]; unfold substring_case;
      cbn [String.eqb Ascii.eqb Bool.eqb unset_or_negative]; [|done].
    destruct (Z.ltb_spec l 0); [done|]. split; [lia|].
    destruct (startPosition <? 0); discriminate.
  - intros [t|]; cbn [unset_or_negative repeat_case]; [|done].
    destruct (Z.ltb_spec t 0); [done|]. split; [lia|]. unfold js_repeat.
    destruct (t <? 0); [discriminate|]. destruct (_ <=? limit); discriminate.
  - intros t Ht Hfits. unfold repeat_case, js_repeat.
    destruct (Z.ltb_spec t 0); [lia|]. by destruct (Z.leb_spec (Z.of_nat (length text) * t) limit); [|lia].
  - intros t Ht Hfits. unfold repeat_case, js_repeat.
    destruct (Z.ltb_spec t 0); [lia|]. by destruct (Z.leb_spec (Z.of_nat (length text) * t) limit); [lia|].
Qed.

Lemma unknown_options_are_rejected_witness :
  ~ In "shout"%string caseTypes
  /\ @apply internal_codecs plain_primitives 0 (js "a") (LetterCase "shout" [])
     = Err (NodeOperationError
         "upperCase, lowerCase, capitalize, camelCase, kebabCase or snakeCase are valid options"
         0).
Proof.
  assert (Hno : ~ In "shout"%string caseTypes).
  { cbn. intros Hin. repeat (destruct Hin as [Hin|Hin]; [discriminate Hin|]). exact Hin. }
  split; [exact Hno|].
  apply (proj1 (@unknown_options_are_rejected internal_codecs plain_primitives dotted_paths
                  plain_binary 0 (js "a")) "shout"%string [] Hno).
Defined.

Lemma numeric_guards_come_first_witness :
  unset_or_negative (Some (-1))
  /\ pad_case 0 "sideways" (Some (-1)) (js " ") (js "a")
     = Err (NodeOperationError "The Target Length has to be set to at least 0 or higher!" 0).
Proof.
  assert (Hneg : unset_or_negative (Some (-1))) by (cbn; lia).
  split; [exact Hneg|].
  apply (proj1 (proj1 (numeric_guards_come_first 536870888 0 (js "a")) "sideways"%string
                  (Some (-1)) (js " ")) Hneg).
Defined.

(** ** Character groups *)

(** A class quantified by [{1,1}] reads exactly one code unit. *)
Lemma rmatch_one_of_class fl neg items k pos c rest prev caps :
  rmatch fl (RRepeat (RClass neg items) 1 (Some 1%nat) true) k
    (mkState pos (c :: rest) prev caps)
  = if class_has fl neg items c then k (mkState (S pos) rest (Some c) caps) else None.
Proof. reflexivity. Qed.

Lemma rmatch_one_of_class_nil fl neg items k pos prev caps :
  rmatch fl (RRepeat (RClass neg items) 1 (Some 1%nat) true) k (mkState pos [] prev caps)
  = None.
Proof. reflexivity. Qed.

Lemma rmatch_alt fl r1 r2 k st :
  rmatch fl (RAlt r1 r2) k st
  = match rmatch fl r1 k st with Some z => Some z | None => rmatch fl r2 k st end.
Proof. reflexivity. Qed.

Lemma class_has_digit c : class_has global_flags false [CDigit false] c = is_digit c.
Proof. unfold class_has. cbn. by destruct (is_digit c). Qed.

Lemma class_has_letter c :
  class_has global_flags false [CRange 97 122; CRange 65 90] c = is_ascii_letter c.
Proof.
  unfold class_has, is_ascii_letter. cbn.
  by destruct (in_range 97 122 c), (in_range 65 90 c).
Qed.

Lemma class_has_space c : class_has global_flags false [CSpace false] c = isWhiteSpace c.
Proof. unfold class_has. cbn -[isWhiteSpace]. by destruct (isWhiteSpace c). Qed.

Lemma characterGroups_pattern_parsed (p : replaceParams) :
  rp_newline p = false -> default_counts p ->
  (rp_number p || rp_alpha p || rp_whitespace p)%bool = true ->
  exists re, new_RegExp (join (js "|") (characterGroups p)) (js "g") = Some re
    /\ re_flags re = global_flags
    /\ (forall pos prev c rest,
          try_at re pos prev (c :: rest)
          = if group_unit p c then Some (mkState (S pos) rest (Some c) []) else None)
    /\ (forall pos prev, try_at re pos prev [] = None).
Proof.
  intros Hnl (Hn1 & Hn2 & Ha1 & Ha2 & Hw1 & Hw2) Hany.
  unfold characterGroups, group_unit. rewrite Hnl, Hn1, Hn2, Ha1, Ha2, Hw1, Hw2.
  destruct (rp_number p), (rp_alpha p), (rp_whitespace p); try discriminate Hany;
    (eexists; split; [vm_compute; reflexivity|]; split; [reflexivity|]; split;
     [intros pos prev c rest; unfold try_at;
      cbn [re_source re_flags re_groups replicate];
      rewrite ?rmatch_alt, ?rmatch_one_of_class,
        ?class_has_digit, ?class_has_letter, ?class_has_space;
      cbn [andb orb];
      destruct (is_digit c), (is_ascii_letter c), (isWhiteSpace c); reflexivity
     |intros pos prev; reflexivity]).
Qed.

(** The global replace loop when every match is one code unit. *)
Lemma replace_loop_units (re : RegExp) (s new : jsstring) (repl : match_result -> jsstring)
    (unit : N -> bool) :
  re_flags re = global_flags -> (forall m, repl m = new) ->
  (forall pos prev c rest,
     try_at re pos prev (c :: rest)
     = if unit c then Some (mkState (S pos) rest (Some c) []) else None) ->
  (forall pos prev, try_at re pos prev [] = None) ->
  forall rest pre fuel emitted prev,
  s = pre ++ rest -> (length rest < fuel)%nat -> (emitted <= length pre)%nat ->
  replace_loop fuel re s repl emitted (length pre) prev rest
  = slice s emitted (length pre) ++ flat_map (fun c => if unit c then new else [c]) rest.
Proof.
  intros Hflags Hrepl Hcons Hnil.
  assert (Hsticky : f_sticky (re_flags re) = false) by (by rewrite Hflags).
  assert (Hglobal : f_global (re_flags re) = true) by (by rewrite Hflags).
  induction rest as [|c rest IH]; intros pre fuel emitted prev Hs Hfuel Hem;
    (destruct fuel as [|fuel]; [lia|]).
  - rewrite replace_loop_no_match by (by rewrite scan_unfold, Hnil, Hsticky).
    rewrite app_nil_r in *. subst s. unfold slice. rewrite take_ge; [reflexivity|].
    rewrite length_drop. lia.
  - cbn [length flat_map] in *. destruct (unit c) eqn:Hc.
    + rewrite replace_loop_unfold, scan_unfold, Hcons, Hc. cbv zeta.
      cbn [m_pos m_rest m_prev m_caps]. rewrite Hglobal.
      destruct (Nat.eqb_spec (S (length pre)) (length pre)); [lia|].
      rewrite Hrepl.
      replace (S (length pre)) with (length (pre ++ [c])) by (rewrite length_app; cbn; lia).
      rewrite (IH (pre ++ [c]) fuel _ (Some c)); [|by rewrite <- app_assoc | lia | lia].
      unfold slice at 2. rewrite Nat.sub_diag. cbn [take app]. by rewrite <- app_assoc.
    + rewrite replace_loop_skip by (exact Hsticky || by rewrite Hcons, Hc).
      replace (S (length pre)) with (length (pre ++ [c])) by (rewrite length_app; cbn; lia).
      rewrite (IH (pre ++ [c]) (S fuel) emitted (Some c));
        [|by rewrite <- app_assoc | lia | rewrite length_app; lia].
      rewrite Hs, length_app. cbn [length]. rewrite Nat.add_1_r.
      rewrite slice_snoc by exact Hem. by rewrite <- app_assoc.
Qed.



Lemma try_at_newline pos prev rest :
  try_at newline_re pos prev rest
  = match rest with
    | c :: rest' =>
        if cu_eqb c 13 then
          match rest' with
          | d :: rest'' =>
              if cu_eqb d 10
              then Some (mkState (S (S pos)) rest'' (Some d) [Some (pos, S (S pos))])
              else Some (mkState (S pos) rest' (Some c) [Some (pos, S pos)])
          | [] => Some (mkState (S pos) [] (Some c) [Some (pos, S pos)])
          end
        else if cu_eqb c 10 then Some (mkState (S pos) rest' (Some c) [Some (pos, S pos)])
        else None
    | [] => None
    end.
Proof.
  destruct rest as [|c [|d rest'']]; [reflexivity| |];
    unfold try_at; cbn -[cu_eqb];
    destruct (cu_eqb c 13), (cu_eqb c 10); try reflexivity;
    destruct (cu_eqb d 10); reflexivity.
Qed.

Lemma newline_pattern_parsed :
  new_RegExp (join (js "|") [buildRegexGroup (js "(\r\n|\r|\n)") 1 1]) (js "g")
  = Some newline_re.
Proof. vm_compute. reflexivity. Qed.

Lemma slice_empty (s : jsstring) (e : nat) : slice s e e = [].
Proof. unfold slice. by rewrite Nat.sub_diag. Qed.

(** The global replace loop of the newline group. *)
Lemma replace_loop_newlines (s new : jsstring) (repl : match_result -> jsstring) :
  (forall m, repl m = new) ->
  forall n rest pre fuel emitted prev,
  (length rest <= n)%nat ->
  s = pre ++ rest -> (length rest < fuel)%nat -> (emitted <= length pre)%nat ->
  replace_loop fuel newline_re s repl emitted (length pre) prev rest
  = slice s emitted (length pre) ++ replace_newlines new rest.
Proof.
  intros Hrepl.
  assert (Hone : forall (pre : jsstring) c, S (length pre) = length (pre ++ [c]))
    by (intros; rewrite length_app; cbn; lia).
  assert (Htwo : forall (pre : jsstring) c d, S (S (length pre)) = length (pre ++ [c; d]))
    by (intros; rewrite length_app; cbn; lia).
  induction n as [|n IH]; intros rest pre fuel emitted prev Hn Hs Hfuel Hem;
    (destruct fuel as [|fuel]; [lia|]);
    (destruct rest as [|c rest];
     [rewrite replace_loop_no_match by (by rewrite scan_unfold, try_at_newline);
      rewrite app_nil_r in *; subst s; unfold slice; rewrite take_ge;
      [reflexivity | rewrite length_drop; lia]
     |]); cbn [length] in *; [lia|].
  pose proof (try_at_newline (length pre) prev (c :: rest)) as Htry.
  cbn [replace_newlines].
  destruct (cu_eqb c 13) eqn:Hcr; [destruct rest as [|d rest]; [|destruct (cu_eqb d 10) eqn:Hlf]
                                  |destruct (cu_eqb c 10) eqn:Hlf];
    cbn iota in Htry; rewrite ?Hcr, ?Hlf in Htry.
  - rewrite replace_loop_unfold, scan_unfold, Htry. cbv zeta.
    cbn [m_pos m_rest m_prev m_caps newline_re re_flags global_flags f_global].
    destruct (Nat.eqb_spec (S (length pre)) (length pre)); [lia|].
    rewrite Hrepl, (Hone pre c).
    rewrite (IH [] (pre ++ [c]) fuel _ (Some c)); cbn [length];
      [|lia | by rewrite app_nil_r in * | cbn in Hfuel; lia | lia].
    by rewrite slice_empty, <- app_assoc.
  - rewrite replace_loop_unfold, scan_unfold, Htry. cbv zeta.
    cbn [m_pos m_rest m_prev m_caps newline_re re_flags global_flags f_global].
    destruct (Nat.eqb_spec (S (S (length pre))) (length pre)); [lia|].
    rewrite Hrepl, (Htwo pre c d).
    rewrite (IH rest (pre ++ [c; d]) fuel _ (Some d));
      [|cbn [length] in Hn; lia | by rewrite <- app_assoc | cbn [length] in Hfuel; lia | lia].
    by rewrite slice_empty, <- app_assoc.
  - rewrite replace_loop_unfold, scan_unfold, Htry. cbv zeta.
    cbn [m_pos m_rest m_prev m_caps newline_re re_flags global_flags f_global].
    destruct (Nat.eqb_spec (S (length pre)) (length pre)); [lia|].
    rewrite Hrepl, (Hone pre c).
    rewrite (IH (d :: rest) (pre ++ [c]) fuel _ (Some c));
      [|lia | by rewrite <- app_assoc | lia | lia].
    by rewrite slice_empty, <- app_assoc.
  - rewrite replace_loop_unfold, scan_unfold, Htry. cbv zeta.
    cbn [m_pos m_rest m_prev m_caps newline_re re_flags global_flags f_global].
    destruct (Nat.eqb_spec (S (length pre)) (length pre)); [lia|].
    rewrite Hrepl, (Hone pre c).
    rewrite (IH rest (pre ++ [c]) fuel _ (Some c));
      [|lia | by rewrite <- app_assoc | lia | lia].
    by rewrite slice_empty, <- app_assoc.
  - rewrite replace_loop_skip by (reflexivity || exact Htry).
    rewrite (Hone pre c).
    rewrite (IH rest (pre ++ [c]) (S fuel) emitted (Some c));
      [|lia | by rewrite <- app_assoc | lia | rewrite length_app; lia].
    rewrite Hs, length_app. cbn [length]. rewrite Nat.add_1_r.
    rewrite slice_snoc by exact Hem. by rewrite <- app_assoc.
Qed.


